(** * The dependency-gated component graph of the pizza order demo

    A shallow embedding of [types/dag.go] and of the component types it
    uses, followed by the properties of construction, completion,
    propagation, the queries and the snapshot.

    Conventions of the embedding.

    - [ComponentType] and [ComponentState] are Go string types; they are
      strings here, and the three state constants are the Go constants.
    - [time.Time] is the instant it denotes, an integer reading;
      [*time.Time] is an [option].
    - [DAG.components] is a slice of pointers.  Every construction in the
      repository ([NewPizzaOrderDAG], [Clone]) allocates one object per
      slot, and the embedding takes the slots to point to pairwise
      distinct, non-nil objects: the slice is a list of component values
      and a [*Component] is the index of its slot together with the value
      read through it.
    - [time.Now()] reads an ambient clock.  The clock is an oracle
      [Clock := nat -> Time] giving the reading of the n-th call, and the
      operations that call it thread the number of calls made so far.
    - Go's [map[ComponentType]bool] in the cycle check is only ever
      observed through [m[k]], which is [false] for an absent key: it is
      the finite set of the keys mapped to [true]. *)

From stdpp Require Import base option list gmap strings relations.
From Stdlib Require Import ZArith.
From Stdlib Require PrimFloat.

Open Scope string_scope.

#[local] Set Warnings "-clear-no-such-hyp".

(** ** Component types (package [types]) *)

Definition ComponentType : Type := string.
Definition ComponentState : Type := string.
Definition Time : Type := Z.

Definition ComponentPayment : ComponentType := "PAYMENT".
Definition ComponentMakeDough : ComponentType := "MAKE_DOUGH".
Definition ComponentAddToppings : ComponentType := "ADD_TOPPINGS".
Definition ComponentBakePizza : ComponentType := "BAKE_PIZZA".
Definition ComponentDeliver : ComponentType := "DELIVER".

Definition StateNeedsInit : ComponentState := "NEEDS_INIT".
Definition StateIncomplete : ComponentState := "INCOMPLETE".
Definition StateCompleted : ComponentState := "COMPLETED".

Record Component : Type := mkComponent {
  Type_ : ComponentType;
  State : ComponentState;
  DependsOn : list ComponentType;
  UpdateTime : Time;
  CompleteTime : option Time
}.

Record DAG : Type := mkDAG { components : list Component }.

(** The three [fmt.Errorf] sites of dag.go. *)
Inductive Error : Type :=
  | ErrNotFound (componentType : ComponentType)
  | ErrNotIncomplete (componentType : ComponentType) (current : ComponentState)
  | ErrCycleDetected.

Inductive Result (A : Type) : Type :=
  | Ok (a : A)
  | Err (e : Error).
Arguments Ok {A} a.
Arguments Err {A} e.

(** A [*Component] into the slice: the slot and the value behind it. *)
Definition Ptr : Type := (nat * Component)%type.

Definition Clock : Type := nat -> Time.

(** ** dag.go *)

(** The loop of [GetComponent], from slot [i] on. *)
Fixpoint findComponent (componentType : ComponentType) (cs : list Component)
    (i : nat) : option Ptr :=
  match cs with
  | [] => None
  | c :: rest =>
      if decide (Type_ c = componentType) then Some (i, c)
      else findComponent componentType rest (S i)
  end.

Definition GetComponent (d : DAG) (componentType : ComponentType) : Result Ptr :=
  match findComponent componentType (components d) 0 with
  | Some p => Ok p
  | None => Err (ErrNotFound componentType)
  end.

Definition GetComponents (d : DAG) : list Component := components d.

(** The inner loop of [updateDependentComponents]: [allDepsComplete] after
    running over [deps], with its [break]. *)
Fixpoint allDepsComplete (d : DAG) (deps : list ComponentType) : bool :=
  match deps with
  | [] => true
  | depType :: rest =>
      match GetComponent d depType with
      | Err _ => false
      | Ok (_, dep) =>
          if decide (State dep = StateCompleted) then allDepsComplete d rest
          else false
      end
  end.

(** One iteration of the outer loop of [updateDependentComponents], for
    the component in slot [i]. *)
Definition promote (clock : Clock) (st : DAG * nat) (i : nat) : DAG * nat :=
  let '(d, tick) := st in
  match components d !! i with
  | None => st
  | Some component =>
      if decide (State component = StateNeedsInit) then
        if allDepsComplete d (DependsOn component) then
          (mkDAG (<[i := mkComponent (Type_ component) StateIncomplete
                            (DependsOn component) (clock tick)
                            (CompleteTime component)]> (components d)),
           S tick)
        else st
      else st
  end.

(** The outer loop, visiting the slots in the given order. *)
Definition scan (clock : Clock) (order : list nat) (st : DAG * nat) : DAG * nat :=
  foldl (promote clock) st order.

(** [range d.components] visits the slots in declaration order. *)
Definition updateDependentComponents (clock : Clock) (st : DAG * nat) : DAG * nat :=
  scan clock (seq 0 (length (components (fst st)))) st.

(** The assignments of [CompleteComponent] through the pointer. *)
Definition markCompleted (now : Time) (d : DAG) (p : Ptr) : DAG :=
  let '(i, component) := p in
  mkDAG (<[i := mkComponent (Type_ component) StateCompleted
                    (DependsOn component) now (Some now)]> (components d)).

(** [CompleteComponent] returns its error (or [nil]) and leaves the graph
    and the clock as the call left them. *)
Definition CompleteComponent (clock : Clock) (componentType : ComponentType)
    (st : DAG * nat) : option Error * (DAG * nat) :=
  let '(d, tick) := st in
  match GetComponent d componentType with
  | Err e => (Some e, st)
  | Ok (i, component) =>
      if decide (State component = StateIncomplete) then
        let now := clock tick in
        (None, updateDependentComponents clock
                 (markCompleted now d (i, component), S tick))
      else (Some (ErrNotIncomplete componentType (State component)), st)
  end.

Fixpoint allCompleted (cs : list Component) : bool :=
  match cs with
  | [] => true
  | c :: rest =>
      if decide (State c = StateCompleted) then allCompleted rest else false
  end.

Definition AllComponentsCompleted (d : DAG) : bool := allCompleted (components d).

(** The loop of [GetNextComponent], from slot [i] on; [None] is [nil]. *)
Fixpoint nextComponent (cs : list Component) (i : nat) : option Ptr :=
  match cs with
  | [] => None
  | c :: rest =>
      if decide (State c = StateIncomplete) then Some (i, c)
      else nextComponent rest (S i)
  end.

Definition GetNextComponent (d : DAG) : option Ptr := nextComponent (components d) 0.

Definition Clone (d : DAG) : DAG :=
  mkDAG (map (fun c => mkComponent (Type_ c) (State c) (DependsOn c)
                         (UpdateTime c) (CompleteTime c)) (components d)).

(** *** The cycle check *)

(** The two maps of [validateNoCycles], as the sets of keys mapped to
    [true]. *)
Record Marks : Type := mkMarks {
  visited : gset ComponentType;
  recStack : gset ComponentType
}.

(** The loop of [hasCycle] over [component.DependsOn]; [rec] is the
    recursive call and [componentType] the node whose [recStack] entry is
    reset when the loop runs to its end.  [None] is a call that did not
    return within the recursion depth allowed. *)
Fixpoint hasCycleDeps (rec : ComponentType -> Marks -> option (bool * Marks))
    (componentType : ComponentType) (deps : list ComponentType) (m : Marks)
    : option (bool * Marks) :=
  match deps with
  | [] => Some (false, mkMarks (visited m) (recStack m ∖ {[componentType]}))
  | depType :: rest =>
      if decide (depType ∈ visited m) then
        if decide (depType ∈ recStack m) then Some (true, m)
        else hasCycleDeps rec componentType rest m
      else
        match rec depType m with
        | None => None
        | Some (true, m') => Some (true, m')
        | Some (false, m') => hasCycleDeps rec componentType rest m'
        end
  end.

(** [hasCycle], with the recursion depth bounded by [fuel]. *)
Fixpoint hasCycle (fuel : nat) (d : DAG) (componentType : ComponentType)
    (m : Marks) : option (bool * Marks) :=
  match fuel with
  | O => None
  | S fuel' =>
      let m1 := mkMarks ({[componentType]} ∪ visited m)
                        ({[componentType]} ∪ recStack m) in
      match GetComponent d componentType with
      | Err _ => Some (false, m1)
      | Ok (_, component) =>
          hasCycleDeps (hasCycle fuel' d) componentType (DependsOn component) m1
      end
  end.

(** The loop of [validateNoCycles] over the components still to visit;
    [Some true] is the [cycle detected] return. *)
Fixpoint validateLoop (fuel : nat) (d : DAG) (cs : list Component) (m : Marks)
    : option bool :=
  match cs with
  | [] => Some false
  | component :: rest =>
      if decide (Type_ component ∈ visited m) then validateLoop fuel d rest m
      else
        match hasCycle fuel d (Type_ component) m with
        | None => None
        | Some (true, _) => Some true
        | Some (false, m') => validateLoop fuel d rest m'
        end
  end.

Definition validateNoCycles (fuel : nat) (d : DAG) : option (option Error) :=
  match validateLoop fuel d (components d) (mkMarks ∅ ∅) with
  | None => None
  | Some true => Some (Some ErrCycleDetected)
  | Some false => Some None
  end.

(** Every id the traversal can meet: the types and the dependencies of the
    components. *)
Definition universe (cs : list Component) : gset ComponentType :=
  list_to_set (map Type_ cs) ∪ list_to_set (concat (map DependsOn cs)).

Definition NewDAG_fuel (fuel : nat) (cs : list Component) : option (Result DAG) :=
  let dag := mkDAG cs in
  match validateNoCycles fuel dag with
  | None => None
  | Some (Some err) => Some (Err err)
  | Some None => Some (Ok dag)
  end.

(** [NewDAG]: each call of [hasCycle] marks an id of [universe] that was
    not marked, so the recursion is never deeper than its size. *)
Definition NewDAG (cs : list Component) : option (Result DAG) :=
  NewDAG_fuel (S (size (universe cs))) cs.

(** [NewPizzaOrderDAG], with the reading [now] of its one [time.Now()]. *)
Definition pizzaComponents (now : Time) : list Component :=
  [ mkComponent ComponentPayment StateIncomplete [] now None;
    mkComponent ComponentMakeDough StateNeedsInit [ComponentPayment] now None;
    mkComponent ComponentAddToppings StateNeedsInit [ComponentMakeDough] now None;
    mkComponent ComponentBakePizza StateNeedsInit [ComponentAddToppings] now None;
    mkComponent ComponentDeliver StateNeedsInit [ComponentBakePizza] now None ].

Definition NewPizzaOrderDAG (now : Time) : option DAG :=
  match NewDAG (pizzaComponents now) with
  | Some (Ok dag) => Some dag
  | _ => None
  end.

(** [MarshalJSON] marshals the component array: one record per component,
    in slice order, with the five JSON fields of [Component]. *)
Record StepRecord : Type := mkStepRecord {
  r_type : ComponentType;
  r_state : ComponentState;
  r_dependsOn : list ComponentType;
  r_updateTime : Time;
  r_completeTime : option Time
}.

Definition MarshalJSON (d : DAG) : list StepRecord :=
  map (fun c => mkStepRecord (Type_ c) (State c) (DependsOn c)
                  (UpdateTime c) (CompleteTime c)) (components d).

(** ** Vocabulary of the statements *)

(** Two components agree when they have the same type and are Done
    together; this is all that [allDepsComplete] reads. *)
Definition agree (c c' : Component) : Prop :=
  Type_ c' = Type_ c /\ (State c' = StateCompleted <-> State c = StateCompleted).

(** The dependencies [deps] are all Done in [d]: each names a component
    of [d], and the component the id resolves to is Done. *)
Definition depsDone (d : DAG) (deps : list ComponentType) : Prop :=
  forall y, y ∈ deps ->
    exists i c, GetComponent d y = Ok (i, c) /\ State c = StateCompleted.

(** What a scan started in [d0] has done to a slot that held [c]: a
    Blocked component with all dependencies Done in [d0] whose slot was
    visited is Ready, stamped with a clock reading; any other is as it
    was. *)
Definition scanned (clock : Clock) (order : list nat) (d0 : DAG) (t0 t' : nat)
    (i : nat) (c c' : Component) : Prop :=
  (State c = StateNeedsInit /\ allDepsComplete d0 (DependsOn c) = true /\
   i ∈ order /\
   exists k, t0 <= k < t' /\
     c' = mkComponent (Type_ c) StateIncomplete (DependsOn c) (clock k)
            (CompleteTime c)) \/
  (~ (State c = StateNeedsInit /\ allDepsComplete d0 (DependsOn c) = true /\
      i ∈ order) /\ c' = c).

(** Any sequence of [CompleteComponent] calls, failed ones included. *)
Definition calls (clock : Clock) (tys : list ComponentType) (st : DAG * nat)
    : DAG * nat :=
  foldl (fun st ty => snd (CompleteComponent clock ty st)) st tys.

(** The moves of the state of one component during one call. *)
Definition step (s s' : ComponentState) : Prop :=
  s' = s \/
  (s = StateNeedsInit /\ s' = StateIncomplete) \/
  (s = StateIncomplete /\ s' = StateCompleted).

(** C10 as it is worded: a call addressed to [ty] leaves every component
    of type [ty] other than the first one as it was. *)
Definition mutates_only_first_occurrence : Prop :=
  forall (clock : Clock) (d : DAG) (ty : ComponentType) (tick i : nat)
         (c : Component),
    GetComponent d ty = Ok (i, c) ->
    forall j cj, j <> i -> components d !! j = Some cj -> Type_ cj = ty ->
      components (fst (snd (CompleteComponent clock ty (d, tick)))) !! j = Some cj.

(** Sample inputs. *)
Definition tickClock : Clock := fun n => Z.of_nat n.

Definition twoSteps : DAG :=
  mkDAG [ mkComponent "A" StateIncomplete [] 0%Z None;
          mkComponent "B" StateNeedsInit ["A"] 0%Z None ].

Definition twins : DAG :=
  mkDAG [ mkComponent "A" StateIncomplete [] 0%Z None;
          mkComponent "A" StateNeedsInit ["A"] 0%Z None ].

(** *** The dependency relation *)

(** The dependencies of an id as the code reads them: those of the
    component [GetComponent] resolves it to, none for an id without a
    definition. *)
Definition depsOf (d : DAG) (x : ComponentType) : list ComponentType :=
  match GetComponent d x with
  | Ok (_, c) => DependsOn c
  | Err _ => []
  end.

Definition edge (d : DAG) (x y : ComponentType) : Prop := y ∈ depsOf d x.

Definition cyclic (d : DAG) : Prop := exists x, tc (edge d) x x.

Definition known (d : DAG) (x : ComponentType) : Prop :=
  x ∈ map Type_ (components d).

(** The dependency relation of a definition list as it is declared: an
    edge for every entry of every definition, repeated ids included. *)
Definition declared (cs : list Component) (x y : ComponentType) : Prop :=
  exists c, c ∈ cs /\ Type_ c = x /\ y ∈ DependsOn c.

Definition hasDeclaredCycle (cs : list Component) : Prop :=
  exists x, tc (declared cs) x x.

Definition uniqueIds (cs : list Component) : Prop := NoDup (map Type_ cs).

Definition depsDefined (cs : list Component) : Prop :=
  forall c y, c ∈ cs -> y ∈ DependsOn c -> y ∈ map Type_ cs.

(** No cycle can be reached from [x]. *)
Definition safe (d : DAG) (x : ComponentType) : Prop :=
  forall y, rtc (edge d) x y -> ~ tc (edge d) y y.

(** Invariants of the traversal: a visited id that is off the stack is
    safe; a defined id on the stack reaches the id being visited. *)
Definition blackSafe (d : DAG) (m : Marks) : Prop :=
  forall y, y ∈ visited m -> y ∉ recStack m -> safe d y.

Definition greyReach (d : DAG) (m : Marks) (x : ComponentType) : Prop :=
  forall y, y ∈ recStack m -> known d y -> rtc (edge d) y x.

Definition closed (d : DAG) : Prop := forall x y, edge d x y -> known d y.

(** What a returned call [hasCycle _ d x m = Some (b, m')] guarantees. *)
Definition hasCyclePost (d : DAG) (x : ComponentType) (m : Marks) (b : bool)
    (m' : Marks) : Prop :=
  {[x]} ∪ visited m ⊆ visited m' /\
  (b = false ->
     (forall y, y ∈ recStack m' -> y ∈ recStack m \/ ~ known d y) /\
     (known d x -> x ∉ recStack m') /\
     (blackSafe d m -> blackSafe d m')) /\
  (b = true -> closed d -> known d x -> greyReach d m x -> cyclic d).

(** What the cycle check reads of an id: its dependencies, if defined. *)
Definition lookupDeps (d : DAG) (x : ComponentType)
    : option (list ComponentType) :=
  match GetComponent d x with
  | Ok (_, c) => Some (DependsOn c)
  | Err _ => None
  end.

(** The definitions that [GetComponent] can return: the first one of each
    id, with [seen] the ids met so far. *)
Fixpoint firstDefsFrom (seen : gset ComponentType) (cs : list Component)
    : list Component :=
  match cs with
  | [] => []
  | c :: rest =>
      if decide (Type_ c ∈ seen) then firstDefsFrom seen rest
      else c :: firstDefsFrom ({[Type_ c]} ∪ seen) rest
  end.

Definition firstDefs (cs : list Component) : list Component :=
  firstDefsFrom ∅ cs.

(** C3 as it is worded, over the declared relation: a definition list
    with a cycle is rejected with the cycle error, one without is
    accepted. *)
Definition cycle_check_decides_declared : Prop :=
  forall cs : list Component,
    (hasDeclaredCycle cs -> NewDAG cs = Some (Err ErrCycleDetected)) /\
    (~ hasDeclaredCycle cs -> NewDAG cs = Some (Ok (mkDAG cs))).

Definition mutualPair : list Component :=
  [ mkComponent "A" StateNeedsInit ["B"] 0%Z None;
    mkComponent "B" StateNeedsInit ["A"] 0%Z None ].

Definition shadowedCycle : list Component :=
  [ mkComponent "A" StateNeedsInit ["B"] 0%Z None;
    mkComponent "B" StateIncomplete [] 0%Z None;
    mkComponent "B" StateNeedsInit ["A"] 0%Z None ].

Definition danglingTwice : list Component :=
  [ mkComponent "A" StateNeedsInit ["Z"; "Z"] 0%Z None ].

(** C4 and C5 as they are worded. *)
Definition rejects_repeated_ids : Prop :=
  forall cs : list Component,
    ~ uniqueIds cs -> exists e, NewDAG cs = Some (Err e).

Definition rejects_unknown_dependencies : Prop :=
  forall cs : list Component,
    ~ depsDefined cs -> exists e, NewDAG cs = Some (Err e).

Definition repeatedId : list Component :=
  [ mkComponent "A" StateIncomplete [] 0%Z None;
    mkComponent "A" StateIncomplete [] 0%Z None ].

Definition danglingOnce : list Component :=
  [ mkComponent "A" StateNeedsInit ["Z"] 0%Z None ].

(** *** Initial states *)

(** The initial state the specification gives a component. *)
Definition initialState (deps : list ComponentType) : ComponentState :=
  match deps with
  | [] => StateIncomplete
  | _ :: _ => StateNeedsInit
  end.

(** C6 as it is worded: the graph [NewDAG] returns has the initial states
    and no CompleteTime. *)
Definition constructor_assigns_states : Prop :=
  forall (cs : list Component) (d : DAG),
    NewDAG cs = Some (Ok d) ->
    forall c, c ∈ components d ->
      State c = initialState (DependsOn c) /\ CompleteTime c = None.

Definition bornDone : list Component :=
  [ mkComponent "A" StateCompleted [] 0%Z (Some 0%Z) ].

(** *** Snapshot and restore *)

Inductive RestoreResult : Type :=
  | Restored (d : DAG)
  | CorruptSnapshot.

Definition recordsWellFormed (records : list StepRecord) : bool :=
  bool_decide (NoDup (map r_type records)) &&
  forallb (fun r =>
             forallb (fun y => bool_decide (y ∈ map r_type records))
                     (r_dependsOn r))
          records.

(** Modelled from the spec: [Restore], the inverse of the snapshot.  The
    repository has [MarshalJSON] for the graph and no decoder.  Section
    4.4 of the specification: the graph is rebuilt from the records with
    every field as recorded, the cycle check is not run again, and records
    with a repeated id or with a dependency that names no record fail
    with [CorruptSnapshot]. *)
Definition Restore (records : list StepRecord) : RestoreResult :=
  if recordsWellFormed records then
    Restored (mkDAG (map (fun r => mkComponent (r_type r) (r_state r)
                                     (r_dependsOn r) (r_updateTime r)
                                     (r_completeTime r)) records))
  else CorruptSnapshot.

(** The restored graph answers the queries and any later calls as [g]
    does. *)
Definition sameBehaviour (g g' : DAG) : Prop :=
  (forall ty, GetComponent g' ty = GetComponent g ty) /\
  GetNextComponent g' = GetNextComponent g /\
  AllComponentsCompleted g' = AllComponentsCompleted g /\
  forall (clock : Clock) tys tick,
    calls clock tys (g', tick) = calls clock tys (g, tick).

(** C8 as it is worded: every graph reached from an accepted
    construction survives the round trip. *)
Definition snapshot_round_trip : Prop :=
  forall (clock : Clock) (cs : list Component) (d0 : DAG) tys tick,
    NewDAG cs = Some (Ok d0) ->
    exists g', Restore (MarshalJSON (fst (calls clock tys (d0, tick)))) =
                 Restored g' /\
               sameBehaviour (fst (calls clock tys (d0, tick))) g'.

(** *** Counting and stamps *)

(** The number of components that are Done. *)
Definition countDone (d : DAG) : nat :=
  length (filter (fun c => State c = StateCompleted) (components d)).

(** The timestamps of a component fit its state: a Done component has a
    CompleteTime, equal to its UpdateTime; any other has none. *)
Definition stamped (c : Component) : Prop :=
  (State c = StateCompleted -> CompleteTime c = Some (UpdateTime c)) /\
  (State c <> StateCompleted -> CompleteTime c = None).

(** *** Progress *)

(** Every component is Ready, Done, or Blocked on a dependency that is not
    Done. *)
Definition settled (d : DAG) : Prop :=
  forall c, c ∈ components d ->
    State c = StateIncomplete \/ State c = StateCompleted \/
    (State c = StateNeedsInit /\ ~ depsDone d (DependsOn c)).

(** The invariants of a graph in use: the three of the data model and
    [settled]. *)
Definition wellFormed (d : DAG) : Prop :=
  uniqueIds (components d) /\ depsDefined (components d) /\ ~ cyclic d /\
  settled d.

(** *** The exact verdict of the cycle check *)

(** The number of times [z] occurs in a dependency list. *)
Definition occ (z : ComponentType) (l : list ComponentType) : nat :=
  length (filter (fun y => y = z) l).

(** The references to [z] in the definitions of [F] whose id is not yet
    visited. *)
Definition pending (z : ComponentType) (F : list Component)
    (V : gset ComponentType) : nat :=
  sum_list_with
    (fun c => if decide (Type_ c ∈ V) then 0 else occ z (DependsOn c)) F.

(** One for [z] once it is visited, plus the references to it that the
    traversal has still to meet. *)
Definition credit (z : ComponentType) (d : DAG) (m : Marks) : nat :=
  (if decide (z ∈ visited m) then 1 else 0) +
  pending z (firstDefs (components d)) (visited m).

(** An id without a definition, once visited, stays on the stack. *)
Definition stuck (d : DAG) (m : Marks) : Prop :=
  forall u, ~ known d u -> u ∈ visited m -> u ∈ recStack m.

(** No id without a definition is referenced twice by the first
    definitions. *)
Definition undefinedOnce (cs : list Component) : Prop :=
  forall z, z ∉ map Type_ cs ->
    occ z (concat (map DependsOn (firstDefs cs))) <= 1.

Definition hasCycleExact (d : DAG) (x : ComponentType) (m : Marks) (b : bool)
    (m' : Marks) : Prop :=
  (b = false ->
     stuck d m' /\
     forall z, ~ known d z ->
       credit z d m' = credit z d m + (if decide (x = z) then 1 else 0)) /\
  (b = true ->
     known d x /\
     (greyReach d m x -> (forall z, ~ known d z -> credit z d m <= 1) ->
      cyclic d)).

(** *** The pizza order *)

Definition pizzaTypes : list ComponentType :=
  [ComponentPayment; ComponentMakeDough; ComponentAddToppings;
   ComponentBakePizza; ComponentDeliver].

(** The states of the pizza order once its first [k] steps are Done: the
    next one Ready, the later ones Blocked. *)
Definition pizzaStates (k : nat) : list ComponentState :=
  replicate k StateCompleted ++
  match 5 - k with
  | O => []
  | S r => StateIncomplete :: replicate r StateNeedsInit
  end.

(** A graph with the steps and dependencies of the pizza order, [k] steps
    done. *)
Definition pizzaAt (k : nat) (d : DAG) : Prop :=
  k <= 5 /\
  map Type_ (components d) = pizzaTypes /\
  map DependsOn (components d) = map DependsOn (pizzaComponents 0%Z) /\
  map State (components d) = pizzaStates k.


Definition twoReady : DAG :=
  mkDAG [ mkComponent "A" StateIncomplete [] 0%Z None;
          mkComponent "B" StateIncomplete [] 0%Z None;
          mkComponent "C" StateNeedsInit ["A"; "B"] 0%Z None ].

(** ** The order and the workflow (package [types], workflow/pizza_workflow.go)

    Conventions.  A [float64] is a binary64 float; the code only stores
    and copies it.  [*DAG] is an [option], [None] being nil.  An activity
    run through [workflow.ExecuteActivity(...).Get] is given by its
    outcome.  [workflow.Now] is given by its reading.  An update handler
    is run from its first statement to its return with no other handler
    in between; a call on a nil [*DAG] panics, and a handler that
    panics gives [None]. *)

Definition float64 : Type := PrimFloat.float.
Definition DAGptr : Type := option DAG.

Definition CloneDAGptr (p : DAGptr) : DAGptr :=
  match p with
  | Some d => Some (Clone d)
  | None => None
  end.

Module Order.

Definition OrderState : Type := string.
Definition OrderStateInProgress : OrderState := "IN_PROGRESS".
Definition OrderStateCompleted : OrderState := "COMPLETED".

Record PizzaOrder : Type := mkPizzaOrder {
  OrderID : string;
  CustomerName : string;
  CustomerEmail : string;
  CustomerPhone : string;
  DeliveryAddress : string;
  State : OrderState;
  DAG : DAGptr;
  CreateTime : Time;
  UpdateTime : Time;
  PaymentTxnID : string;
  PaymentAmount : float64;
  DeliveryID : string;
  DriverName : string;
  TrackingURL : string;
  EstimatedArrival : option Time
}.

(** [PizzaOrder.Clone]: the literal with thirteen fields, then the two
    guarded pointer copies. *)
Definition Clone (po : PizzaOrder) : PizzaOrder :=
  mkPizzaOrder (OrderID po) (CustomerName po) (CustomerEmail po)
    (CustomerPhone po) (DeliveryAddress po) (State po)
    (CloneDAGptr (DAG po))
    (CreateTime po) (UpdateTime po) (PaymentTxnID po) (PaymentAmount po)
    (DeliveryID po) (DriverName po) (TrackingURL po)
    (match EstimatedArrival po with
     | Some t => Some t
     | None => None
     end).

Definition IsDone (po : PizzaOrder) : bool :=
  match DAG po with
  | None => false
  | Some d => AllComponentsCompleted d
  end.

(** workflow/pizza_workflow.go *)

Record PizzaOrderInput : Type := mkPizzaOrderInput {
  in_OrderID : string;
  in_CustomerName : string;
  in_CustomerEmail : string;
  in_CustomerPhone : string;
  in_DeliveryAddress : string;
  in_Amount : float64
}.

Record PaymentResult : Type := mkPaymentResult {
  TransactionID : string;
  pay_Status : string;
  Amount : float64;
  Timestamp : Time
}.

Record DeliveryResult : Type := mkDeliveryResult {
  res_DeliveryID : string;
  res_DriverName : string;
  res_EstimatedArrival : Time;
  res_TrackingURL : string;
  del_Status : string
}.

Inductive Outcome (A : Type) : Type :=
  | Returned (a : A)
  | Failed.
Arguments Returned {A} a.
Arguments Failed {A}.

(** The errors an update handler returns. *)
Inductive HandlerError : Type :=
  | PaymentProcessingFailed
  | DeliverySchedulingFailed
  | DagError (e : Error).

(** The order and the number of [time.Now()] calls made so far. *)
Definition World : Type := (PizzaOrder * nat)%type.

(** The state the workflow starts with: [createTime] and [updateTime] are
    the two readings of [workflow.Now], [dagNow] the one of
    [NewPizzaOrderDAG]. *)
Definition initialOrder (input : PizzaOrderInput) (dagNow createTime updateTime : Time)
    : PizzaOrder :=
  mkPizzaOrder (in_OrderID input) (in_CustomerName input)
    (in_CustomerEmail input) (in_CustomerPhone input)
    (in_DeliveryAddress input) OrderStateInProgress
    (NewPizzaOrderDAG dagNow) createTime updateTime
    "" PrimFloat.zero "" "" "" None.

(** The statements every handler ends with:
    [state.DAG.CompleteComponent(ty)], return its error if any, else
    [state.UpdateTime = workflow.Now(ctx)]. *)
Definition completeStep (clock : Clock) (ty : ComponentType) (wnow : Time)
    (w : World) : option (option HandlerError * World) :=
  let '(po, tick) := w in
  match DAG po with
  | None => None
  | Some d =>
      match CompleteComponent clock ty (d, tick) with
      | (Some e, (d', tick')) =>
          Some (Some (DagError e),
                (mkPizzaOrder (OrderID po) (CustomerName po) (CustomerEmail po)
                   (CustomerPhone po) (DeliveryAddress po) (State po) (Some d')
                   (CreateTime po) (UpdateTime po) (PaymentTxnID po)
                   (PaymentAmount po) (DeliveryID po) (DriverName po)
                   (TrackingURL po) (EstimatedArrival po), tick'))
      | (None, (d', tick')) =>
          Some (None,
                (mkPizzaOrder (OrderID po) (CustomerName po) (CustomerEmail po)
                   (CustomerPhone po) (DeliveryAddress po) (State po) (Some d')
                   (CreateTime po) wnow (PaymentTxnID po)
                   (PaymentAmount po) (DeliveryID po) (DriverName po)
                   (TrackingURL po) (EstimatedArrival po), tick'))
      end
  end.

(** The handler of [CompletePayment]. *)
Definition updateCompletePayment (clock : Clock) (payment : Outcome PaymentResult)
    (wnow : Time) (w : World) : option (option HandlerError * World) :=
  let '(po, tick) := w in
  match payment with
  | Failed => Some (Some PaymentProcessingFailed, w)
  | Returned paymentResult =>
      completeStep clock ComponentPayment wnow
        (mkPizzaOrder (OrderID po) (CustomerName po) (CustomerEmail po)
           (CustomerPhone po) (DeliveryAddress po) (State po) (DAG po)
           (CreateTime po) (UpdateTime po) (TransactionID paymentResult)
           (Amount paymentResult) (DeliveryID po) (DriverName po)
           (TrackingURL po) (EstimatedArrival po), tick)
  end.

Definition updateMakeDough (clock : Clock) :=
  completeStep clock ComponentMakeDough.
Definition updateAddToppings (clock : Clock) :=
  completeStep clock ComponentAddToppings.
Definition updateBakePizza (clock : Clock) :=
  completeStep clock ComponentBakePizza.

(** The handler of [Deliver]. *)
Definition updateDeliver (clock : Clock) (delivery : Outcome DeliveryResult)
    (wnow : Time) (w : World) : option (option HandlerError * World) :=
  let '(po, tick) := w in
  match delivery with
  | Failed => Some (Some DeliverySchedulingFailed, w)
  | Returned deliveryResult =>
      completeStep clock ComponentDeliver wnow
        (mkPizzaOrder (OrderID po) (CustomerName po) (CustomerEmail po)
           (CustomerPhone po) (DeliveryAddress po) (State po) (DAG po)
           (CreateTime po) (UpdateTime po) (PaymentTxnID po)
           (PaymentAmount po) (res_DeliveryID deliveryResult)
           (res_DriverName deliveryResult) (res_TrackingURL deliveryResult)
           (Some (res_EstimatedArrival deliveryResult)), tick)
  end.

(** An update sent to the workflow, with what its handler gets from the
    activities it runs. *)
Inductive Update : Type :=
  | CompletePayment (payment : Outcome PaymentResult)
  | MakeDough
  | AddToppings
  | BakePizza
  | Deliver (delivery : Outcome DeliveryResult).

Definition handle (clock : Clock) (u : Update) (wnow : Time) (w : World)
    : option (option HandlerError * World) :=
  match u with
  | CompletePayment payment => updateCompletePayment clock payment wnow w
  | MakeDough => updateMakeDough clock wnow w
  | AddToppings => updateAddToppings clock wnow w
  | BakePizza => updateBakePizza clock wnow w
  | Deliver delivery => updateDeliver clock delivery wnow w
  end.

(** The updates handled one after the other; the errors are returned to
    the senders and the order goes on. *)
Fixpoint handleAll (clock : Clock) (us : list (Update * Time)) (w : World)
    : option World :=
  match us with
  | [] => Some w
  | (u, wnow) :: rest =>
      match handle clock u wnow w with
      | None => None
      | Some (_, w') => handleAll clock rest w'
      end
  end.

(** The component an update completes, and whether its activity let it
    get that far. *)
Definition stepOf (u : Update) : ComponentType :=
  match u with
  | CompletePayment _ => ComponentPayment
  | MakeDough => ComponentMakeDough
  | AddToppings => ComponentAddToppings
  | BakePizza => ComponentBakePizza
  | Deliver _ => ComponentDeliver
  end.

Definition activityReturned (u : Update) : bool :=
  match u with
  | CompletePayment Failed | Deliver Failed => false
  | _ => true
  end.

End Order.

(** The order of the workflow started with [input] once [k] of its steps
    are Done: the graph is the pizza graph at [k], and the fields no
    handler assigns are as the workflow set them. *)
Definition orderAt (input : Order.PizzaOrderInput) (createTime : Time) (k : nat)
    (po : Order.PizzaOrder) : Prop :=
  (exists d, Order.DAG po = Some d /\ pizzaAt k d) /\
  Order.OrderID po = Order.in_OrderID input /\
  Order.CustomerName po = Order.in_CustomerName input /\
  Order.CustomerEmail po = Order.in_CustomerEmail input /\
  Order.CustomerPhone po = Order.in_CustomerPhone input /\
  Order.DeliveryAddress po = Order.in_DeliveryAddress input /\
  Order.State po = Order.OrderStateInProgress /\
  Order.CreateTime po = createTime.

(** ** dag.go on a store of components

    The same functions with [d.components] as it is in Go: a slice of
    pointers into a store.  A pointer is a location; one that the store
    does not hold is nil, and reading through it panics ([None]).  This
    embedding has no assumption on the slice: it may hold nil and may hold
    a pointer twice. *)

Abbreviation Loc := nat.
Abbreviation Store := (gmap nat Component).

(** The loop of [GetComponent]; [Some None] is the not-found return. *)
Fixpoint findComponentAt (h : Store) (componentType : ComponentType)
    (ptrs : list Loc) : option (option Loc) :=
  match ptrs with
  | [] => Some None
  | l :: rest =>
      match h !! l with
      | None => None
      | Some c =>
          if decide (Type_ c = componentType) then Some (Some l)
          else findComponentAt h componentType rest
      end
  end.

Fixpoint allDepsCompleteAt (h : Store) (ptrs : list Loc)
    (deps : list ComponentType) : option bool :=
  match deps with
  | [] => Some true
  | depType :: rest =>
      match findComponentAt h depType ptrs with
      | None => None
      | Some None => Some false
      | Some (Some l) =>
          match h !! l with
          | None => None
          | Some dep =>
              if decide (State dep = StateCompleted)
              then allDepsCompleteAt h ptrs rest
              else Some false
          end
      end
  end.

(** One iteration of the loop of [updateDependentComponents], on the
    pointer [l]. *)
Definition promoteAt (clock : Clock) (ptrs : list Loc) (st : Store * nat)
    (l : Loc) : option (Store * nat) :=
  let '(h, tick) := st in
  match h !! l with
  | None => None
  | Some component =>
      if decide (State component = StateNeedsInit) then
        match allDepsCompleteAt h ptrs (DependsOn component) with
        | None => None
        | Some true =>
            Some (<[l := mkComponent (Type_ component) StateIncomplete
                            (DependsOn component) (clock tick)
                            (CompleteTime component)]> h, S tick)
        | Some false => Some st
        end
      else Some st
  end.

Fixpoint scanAt (clock : Clock) (ptrs todo : list Loc) (st : Store * nat)
    : option (Store * nat) :=
  match todo with
  | [] => Some st
  | l :: rest =>
      match promoteAt clock ptrs st l with
      | None => None
      | Some st' => scanAt clock ptrs rest st'
      end
  end.

Definition updateDependentComponentsAt (clock : Clock) (ptrs : list Loc)
    (st : Store * nat) : option (Store * nat) :=
  scanAt clock ptrs ptrs st.

Definition CompleteComponentAt (clock : Clock) (ptrs : list Loc)
    (componentType : ComponentType) (st : Store * nat)
    : option (option Error * (Store * nat)) :=
  let '(h, tick) := st in
  match findComponentAt h componentType ptrs with
  | None => None
  | Some None => Some (Some (ErrNotFound componentType), st)
  | Some (Some l) =>
      match h !! l with
      | None => None
      | Some component =>
          if decide (State component = StateIncomplete) then
            let now := clock tick in
            match updateDependentComponentsAt clock ptrs
                    (<[l := mkComponent (Type_ component) StateCompleted
                              (DependsOn component) now (Some now)]> h,
                     S tick) with
            | None => None
            | Some st' => Some (None, st')
            end
          else Some (Some (ErrNotIncomplete componentType (State component)), st)
      end
  end.

(** Calls one after the other on the same slice. *)
Fixpoint callsAt (clock : Clock) (ptrs : list Loc) (tys : list ComponentType)
    (st : Store * nat) : option (Store * nat) :=
  match tys with
  | [] => Some st
  | ty :: rest =>
      match CompleteComponentAt clock ptrs ty st with
      | None => None
      | Some (_, st') => callsAt clock ptrs rest st'
      end
  end.

(** The loop of [Clone]: a new component is allocated for each slot, at a
    location the store does not hold yet. *)
Fixpoint CloneAt (h : Store) (ptrs : list Loc) : option (Store * list Loc) :=
  match ptrs with
  | [] => Some (h, [])
  | l :: rest =>
      match h !! l with
      | None => None
      | Some c =>
          let l' := fresh (dom h) in
          match CloneAt (<[l' := mkComponent (Type_ c) (State c) (DependsOn c)
                                   (UpdateTime c) (CompleteTime c)]> h) rest with
          | None => None
          | Some (h', ptrs') => Some (h', l' :: ptrs')
          end
      end
  end.

(** The slice [ptrs] holds the components [cs], slot by slot. *)
Definition holds (h : Store) (ptrs : list Loc) (cs : list Component) : Prop :=
  Forall2 (fun l c => h !! l = Some c) ptrs cs.

(** [twoReady] laid out in a store, one cell per component. *)
Definition twoReadyStore : Store :=
  <[0 := mkComponent "A" StateIncomplete [] 0%Z None]>
    (<[1 := mkComponent "B" StateIncomplete [] 0%Z None]>
       (<[2 := mkComponent "C" StateNeedsInit ["A"; "B"] 0%Z None]> ∅)).

(** ** Lemmas on the two slice searches *)

Lemma findComponent_Some ty cs i j c :
  findComponent ty cs i = Some (j, c) <->
  exists k, j = i + k /\ cs !! k = Some c /\ Type_ c = ty /\
    forall k' c', k' < k -> cs !! k' = Some c' -> Type_ c' <> ty.
Proof.
  revert i. induction cs as [|a cs IH]; intros i; simpl.
  - split; [done | intros (k & _ & Hk & _); done].
  - destruct (decide (Type_ a = ty)) as [Ha|Ha].
    + split.
      * intros [= <- <-]. exists 0. split; [lia|]. split; [done|]. split; [done|].
        intros; lia.
      * intros (k & -> & Hk & Hty & Hfirst). destruct k as [|k].
        -- simpl in Hk. injection Hk as ->. do 2 f_equal. lia.
        -- exfalso. apply (Hfirst 0 a); [lia | done | done].
    + rewrite IH. split.
      * intros (k & -> & Hk & Hty & Hfirst). exists (S k).
        split; [lia|]. split; [done|]. split; [done|].
        intros [|k'] c' Hlt Hc'; simpl in Hc'.
        -- by injection Hc' as <-.
        -- apply (Hfirst k'); [lia | done].
      * intros (k & -> & Hk & Hty & Hfirst). destruct k as [|k].
        -- simpl in Hk. injection Hk as ->. done.
        -- exists k. split; [lia|]. split; [done|]. split; [done|].
           intros k' c' Hlt Hc'. apply (Hfirst (S k')); [lia | done].
Qed.

Lemma findComponent_None ty cs i :
  findComponent ty cs i = None <-> ty ∉ map Type_ cs.
Proof.
  revert i. induction cs as [|a cs IH]; intros i; simpl.
  - split; [intros _; apply not_elem_of_nil | done].
  - rewrite not_elem_of_cons. destruct (decide (Type_ a = ty)) as [Ha|Ha].
    + split; [done | intros [? _]; congruence].
    + rewrite IH. split; [intros ?; split; [congruence | done] | by intros [_ ?]].
Qed.

Lemma GetComponent_Ok d ty i c :
  GetComponent d ty = Ok (i, c) <->
  components d !! i = Some c /\ Type_ c = ty /\
  forall k c', k < i -> components d !! k = Some c' -> Type_ c' <> ty.
Proof.
  unfold GetComponent.
  destruct (findComponent ty (components d) 0) as [[j c0]|] eqn:E.
  - apply findComponent_Some in E as (k & -> & Hk & Hty & Hfirst). simpl.
    split.
    + intros [= <- <-]. done.
    + intros (Hi & Hty' & Hfirst'). 
      destruct (Nat.lt_trichotomy i k) as [Hlt|[->|Hlt]].
      * exfalso. by apply (Hfirst i c).
      * rewrite Hk in Hi. by injection Hi as ->.
      * exfalso. by apply (Hfirst' k c0).
  - split; [done|]. intros (Hi & Hty & _).
    apply findComponent_None in E. exfalso. apply E.
    apply list_elem_of_fmap. exists c. split; [done|].
    by apply list_elem_of_lookup_2 in Hi.
Qed.

Lemma GetComponent_Err d ty e :
  GetComponent d ty = Err e <-> e = ErrNotFound ty /\ ty ∉ map Type_ (components d).
Proof.
  unfold GetComponent.
  destruct (findComponent ty (components d) 0) as [p|] eqn:E.
  - split; [done|]. intros [_ H].
    apply (proj2 (findComponent_None ty (components d) 0)) in H. congruence.
  - apply findComponent_None in E. split; [by intros [= <-] | by intros [-> _]].
Qed.

Lemma nextComponent_Some cs i j c :
  nextComponent cs i = Some (j, c) <->
  exists k, j = i + k /\ cs !! k = Some c /\ State c = StateIncomplete /\
    forall k' c', k' < k -> cs !! k' = Some c' -> State c' <> StateIncomplete.
Proof.
  revert i. induction cs as [|a cs IH]; intros i; simpl.
  - split; [done | intros (k & _ & Hk & _); done].
  - destruct (decide (State a = StateIncomplete)) as [Ha|Ha].
    + split.
      * intros [= <- <-]. exists 0. split; [lia|]. split; [done|]. split; [done|].
        intros; lia.
      * intros (k & -> & Hk & Hty & Hfirst). destruct k as [|k].
        -- simpl in Hk. injection Hk as ->. do 2 f_equal. lia.
        -- exfalso. apply (Hfirst 0 a); [lia | done | done].
    + rewrite IH. split.
      * intros (k & -> & Hk & Hty & Hfirst). exists (S k).
        split; [lia|]. split; [done|]. split; [done|].
        intros [|k'] c' Hlt Hc'; simpl in Hc'.
        -- by injection Hc' as <-.
        -- apply (Hfirst k'); [lia | done].
      * intros (k & -> & Hk & Hty & Hfirst). destruct k as [|k].
        -- simpl in Hk. injection Hk as ->. done.
        -- exists k. split; [lia|]. split; [done|]. split; [done|].
           intros k' c' Hlt Hc'. apply (Hfirst (S k')); [lia | done].
Qed.

Lemma nextComponent_None cs i :
  nextComponent cs i = None <-> Forall (fun c => State c <> StateIncomplete) cs.
Proof.
  revert i. induction cs as [|a cs IH]; intros i; simpl.
  - split; [by constructor | done].
  - rewrite Forall_cons. destruct (decide (State a = StateIncomplete)) as [Ha|Ha].
    + split; [done | by intros [? _]].
    + rewrite IH. split; [by intros ?; split | by intros [_ ?]].
Qed.

(** C9.  [GetNextComponent] returns the first component in declaration
    order whose state is [StateIncomplete] (Ready): the slot it returns
    holds the returned component, that component is Ready, and no earlier
    slot holds a Ready one.  It returns nil exactly when no component is
    Ready.  The result is a function of the graph alone: the graph is
    neither an output nor changed. *)
Theorem GetNextComponent_first_ready (d : DAG) :
  (forall i c, GetNextComponent d = Some (i, c) <->
     components d !! i = Some c /\ State c = StateIncomplete /\
     forall k c', k < i -> components d !! k = Some c' ->
                  State c' <> StateIncomplete) /\
  (GetNextComponent d = None <->
     forall c, c ∈ components d -> State c <> StateIncomplete).
Proof.
  split.
  - intros i c. unfold GetNextComponent. rewrite nextComponent_Some. split.
    + intros (k & -> & ?). done.
    + intros ?. exists i. done.
  - unfold GetNextComponent. rewrite nextComponent_None, Forall_forall. done.
Qed.

(** ** The propagation scan *)

Lemma states_distinct :
  StateNeedsInit <> StateIncomplete /\ StateNeedsInit <> StateCompleted /\
  StateIncomplete <> StateCompleted.
Proof. done. Qed.

Lemma findComponent_agree ty cs cs' i :
  Forall2 agree cs cs' ->
  match findComponent ty cs i, findComponent ty cs' i with
  | Some (j, c), Some (j', c') => j = j' /\ agree c c'
  | None, None => True
  | _, _ => False
  end.
Proof.
  intros H. revert i. induction H as [|c c' cs cs' [Hty Hst] _ IH]; intros i; simpl.
  - done.
  - rewrite Hty. destruct (decide (Type_ c = ty)); [|apply IH].
    split; [done|]. by split.
Qed.

Lemma allDepsComplete_agree d d' deps :
  Forall2 agree (components d) (components d') ->
  allDepsComplete d' deps = allDepsComplete d deps.
Proof.
  intros H. induction deps as [|y deps IH]; simpl; [done|].
  unfold GetComponent.
  pose proof (findComponent_agree y _ _ 0 H) as Hf.
  destruct (findComponent y (components d) 0) as [[j c]|],
           (findComponent y (components d') 0) as [[j' c']|]; try done.
  destruct Hf as [_ [_ Hst]].
  destruct (decide (State c = StateCompleted)), (decide (State c' = StateCompleted));
    try done; tauto.
Qed.

Lemma allDepsComplete_true d deps :
  allDepsComplete d deps = true <-> depsDone d deps.
Proof.
  unfold depsDone. induction deps as [|y deps IH]; simpl.
  - split; [intros _ y Hy; by apply elem_of_nil in Hy | done].
  - destruct (GetComponent d y) as [[i c]|e] eqn:E.
    + destruct (decide (State c = StateCompleted)) as [Hc|Hc].
      * rewrite IH. split.
        -- intros H z [->|Hz]%elem_of_cons; [by exists i, c | by apply H].
        -- intros H z Hz. apply H. by right.
      * split; [done|]. intros H.
        destruct (H y) as (i' & c' & He & ?); [by left|].
        rewrite E in He. injection He as <- <-. done.
    + split; [done|]. intros H.
      destruct (H y) as (i' & c' & He & ?); [by left|].
      rewrite E in He. done.
Qed.

Lemma scanned_agree clock order d0 t0 t' i c c' :
  scanned clock order d0 t0 t' i c c' -> agree c c'.
Proof.
  intros [(Hs & _ & _ & k & _ & ->)|[_ ->]]; [|done].
  split; [done|]. simpl. rewrite Hs. done.
Qed.

Lemma scan_spec clock order d0 t0 d' t' :
  scan clock order (d0, t0) = (d', t') ->
  t0 <= t' /\
  length (components d') = length (components d0) /\
  forall i c, components d0 !! i = Some c ->
    exists c', components d' !! i = Some c' /\ scanned clock order d0 t0 t' i c c'.
Proof.
  revert d' t'. induction order as [|j order IH] using rev_ind; intros d' t'.
  - intros [= <- <-]. split; [done|]. split; [done|].
    intros i c Hc. exists c. split; [done|]. right. split; [|done].
    intros (_ & _ & H). by apply elem_of_nil in H.
  - unfold scan. rewrite foldl_app. simpl.
    fold (scan clock order (d0, t0)).
    destruct (scan clock order (d0, t0)) as [d1 t1] eqn:E1.
    destruct (IH d1 t1 eq_refl) as (Ht & Hlen & Hall). clear IH.
    assert (Hagree : Forall2 agree (components d0) (components d1)).
    { apply Forall2_same_length_lookup. split; [done|].
      intros i c c1 Hc Hc1. destruct (Hall i c Hc) as (c1' & Hc1' & Hsc).
      rewrite Hc1 in Hc1'. injection Hc1' as <-. by eapply scanned_agree. }
    (* slots other than [j], and [j] when nothing is assigned *)
    assert (Hkeep : forall t2, t1 <= t2 -> forall i c c1,
      components d0 !! i = Some c -> components d1 !! i = Some c1 ->
      (i = j -> ~ (State c1 = StateNeedsInit /\
                   allDepsComplete d1 (DependsOn c1) = true)) ->
      scanned clock order d0 t0 t1 i c c1 ->
      scanned clock (order ++ [j]) d0 t0 t2 i c c1).
    { intros t2 Ht2 i c c1 Hc Hc1 Hj [(Hs & Hd & Hin & k & Hk & ->)|[Hn ->]].
      - left. split; [done|]. split; [done|].
        split; [apply elem_of_app; by left|].
        exists k. split; [lia | done].
      - right. split; [|done]. intros (Hs & Hd & [Hin|Hin]%elem_of_app).
        + by apply Hn.
        + apply list_elem_of_singleton in Hin. apply (Hj Hin).
          split; [done|]. by rewrite (allDepsComplete_agree d0 d1). }
    unfold promote.
    destruct (components d1 !! j) as [cj|] eqn:Ej.
    2:{ intros [= <- <-]. split; [done|]. split; [done|].
        intros i c Hc. destruct (Hall i c Hc) as (c1 & Hc1 & Hsc).
        exists c1. split; [done|]. apply (Hkeep t1); [done..| |done].
        intros ->. congruence. }
    destruct (decide (State cj = StateNeedsInit)) as [Hsj|Hsj].
    2:{ intros [= <- <-]. split; [done|]. split; [done|].
        intros i c Hc. destruct (Hall i c Hc) as (c1 & Hc1 & Hsc).
        exists c1. split; [done|]. apply (Hkeep t1); [done..| |done].
        intros ->. rewrite Ej in Hc1. injection Hc1 as <-. tauto. }
    destruct (allDepsComplete d1 (DependsOn cj)) eqn:Hdj.
    2:{ intros [= <- <-]. split; [done|]. split; [done|].
        intros i c Hc. destruct (Hall i c Hc) as (c1 & Hc1 & Hsc).
        exists c1. split; [done|]. apply (Hkeep t1); [done..| |done].
        intros ->. rewrite Ej in Hc1. injection Hc1 as <-.
        intros [_ ?]. congruence. }
    intros [= <- <-]. simpl. split; [lia|]. split; [by rewrite length_insert|].
    intros i c Hc. destruct (Hall i c Hc) as (c1 & Hc1 & Hsc).
    destruct (decide (i = j)) as [->|Hij].
    + rewrite Ej in Hc1. injection Hc1 as <-.
      rewrite list_lookup_insert_eq by (by eapply lookup_lt_Some).
      eexists. split; [done|].
      destruct Hsc as [(Hs & Hd & Hin & k & Hk & ->)|[Hn ->]]; [done|].
      left. split; [done|].
      split; [by rewrite <- (allDepsComplete_agree d0 d1)|].
      split; [apply elem_of_app; right; by apply list_elem_of_singleton|].
      exists t1. split; [lia | done].
    + rewrite list_lookup_insert_ne by done. exists c1. split; [done|].
      apply (Hkeep (S t1)); [lia | done | done | done | done].
Qed.

(** ** One call of [CompleteComponent] *)

Lemma CompleteComponent_None clock ty d tick st' :
  CompleteComponent clock ty (d, tick) = (None, st') <->
  exists i x, GetComponent d ty = Ok (i, x) /\ State x = StateIncomplete /\
    st' = updateDependentComponents clock
            (markCompleted (clock tick) d (i, x), S tick).
Proof.
  unfold CompleteComponent. destruct (GetComponent d ty) as [[i x]|e].
  - destruct (decide (State x = StateIncomplete)) as [Hx|Hx].
    + split.
      * intros [= <-]. by exists i, x.
      * intros (i' & x' & [= <- <-] & _ & ->). done.
    + split; [done|]. intros (i' & x' & [= <- <-] & ? & _). done.
  - split; [done|]. intros (i' & x' & ? & _). done.
Qed.

Lemma CompleteComponent_Some clock ty d tick e st' :
  CompleteComponent clock ty (d, tick) = (Some e, st') ->
  st' = (d, tick) /\
  ((e = ErrNotFound ty /\ ty ∉ map Type_ (components d)) \/
   exists i x, GetComponent d ty = Ok (i, x) /\ State x <> StateIncomplete /\
     e = ErrNotIncomplete ty (State x)).
Proof.
  unfold CompleteComponent. destruct (GetComponent d ty) as [[i x]|e0] eqn:E.
  - destruct (decide (State x = StateIncomplete)) as [Hx|Hx]; [done|].
    intros [= <- <-]. split; [done|]. right. by exists i, x.
  - intros [= <- <-]. split; [done|]. left.
    by apply GetComponent_Err in E.
Qed.

(** What one call does to the slot [j] that held [cj]: nothing, a
    promotion by the scan, or the completion mark on the slot that
    [GetComponent] returned. *)
Lemma CompleteComponent_slot clock ty d tick err d' tick' :
  CompleteComponent clock ty (d, tick) = (err, (d', tick')) ->
  tick <= tick' /\
  length (components d') = length (components d) /\
  forall j cj, components d !! j = Some cj ->
    exists cj', components d' !! j = Some cj' /\
      Type_ cj' = Type_ cj /\ DependsOn cj' = DependsOn cj /\
      (cj' = cj \/
       (State cj = StateNeedsInit /\ State cj' = StateIncomplete /\
        CompleteTime cj' = CompleteTime cj) \/
       (err = None /\ GetComponent d ty = Ok (j, cj) /\
        State cj = StateIncomplete /\
        cj' = mkComponent (Type_ cj) StateCompleted (DependsOn cj)
                (clock tick) (Some (clock tick)))).
Proof.
  destruct err as [e|].
  - intros [[= <- <-] _]%CompleteComponent_Some. split; [done|]. split; [done|].
    intros j cj Hj. exists cj. split; [done|]. split; [done|]. split; [done|].
    by left.
  - intros (i & x & Hget & Hx & Hst)%CompleteComponent_None.
    symmetry in Hst. unfold updateDependentComponents in Hst.
    apply scan_spec in Hst as (Ht & Hlen & Hall). simpl in *.
    rewrite length_insert in Hlen.
    split; [lia|]. split; [done|]. intros j cj Hj.
    pose proof Hget as (Hi & _)%GetComponent_Ok.
    destruct (decide (j = i)) as [->|Hji].
    + rewrite Hi in Hj. injection Hj as <-.
      destruct (Hall i (mkComponent (Type_ x) StateCompleted (DependsOn x)
                          (clock tick) (Some (clock tick)))) as (c' & Hc' & Hsc).
      { apply list_lookup_insert_eq. by eapply lookup_lt_Some. }
      exists c'. split; [done|].
      destruct Hsc as [(Hs & _)|[_ ->]]; [done|].
      split; [done|]. split; [done|]. right. right. done.
    + destruct (Hall j cj) as (c' & Hc' & Hsc).
      { by rewrite list_lookup_insert_ne. }
      exists c'. split; [done|].
      destruct Hsc as [(Hs & _ & _ & k & _ & ->)|[_ ->]].
      * split; [done|]. split; [done|]. right. left. done.
      * split; [done|]. split; [done|]. by left.
Qed.

(** C1.  After a successful [CompleteComponent], with [d1] the graph
    right after the target is marked Done: the propagation pass has made
    Ready every Blocked component of [d1] whose dependencies are all Done
    in [d1], and has left every other component, Blocked or not, exactly
    as it was; and a scan that visits the slots in any other order ends
    with the same states. *)
Theorem CompleteComponent_propagation clock ty d tick d' tick' :
  CompleteComponent clock ty (d, tick) = (None, (d', tick')) ->
  exists i x, GetComponent d ty = Ok (i, x) /\ State x = StateIncomplete /\
    let d1 := markCompleted (clock tick) d (i, x) in
    length (components d') = length (components d1) /\
    (forall j c, components d1 !! j = Some c ->
       exists c', components d' !! j = Some c' /\
         (State c = StateNeedsInit /\ depsDone d1 (DependsOn c) ->
            State c' = StateIncomplete) /\
         (~ (State c = StateNeedsInit /\ depsDone d1 (DependsOn c)) ->
            c' = c)) /\
    (forall order, order ≡ₚ seq 0 (length (components d1)) ->
       map State (components (fst (scan clock order (d1, S tick)))) =
       map State (components d')).
Proof.
  intros (i & x & Hget & Hx & Hst)%CompleteComponent_None.
  exists i, x. split; [done|]. split; [done|].
  set (d1 := markCompleted (clock tick) d (i, x)) in *. cbv zeta.
  symmetry in Hst. unfold updateDependentComponents in Hst. simpl fst in Hst.
  pose proof (scan_spec _ _ _ _ _ _ Hst) as (Ht & Hlen & Hall).
  split; [done|]. split.
  - intros j c Hj. destruct (Hall j c Hj) as (c' & Hc' & Hsc).
    exists c'. split; [done|]. split.
    + intros [Hs Hd%allDepsComplete_true].
      destruct Hsc as [(_ & _ & _ & k & _ & ->)|[Hn _]]; [done|].
      exfalso. apply Hn. split; [done|]. split; [done|].
      apply elem_of_seq. apply lookup_lt_Some in Hj. lia.
    + intros Hn. destruct Hsc as [(Hs & Hd%allDepsComplete_true & _)|[_ ->]];
        [|done]. exfalso. by apply Hn.
  - intros order Hperm.
    destruct (scan clock order (d1, S tick)) as [d2 t2] eqn:E2.
    pose proof (scan_spec _ _ _ _ _ _ E2) as (Ht2 & Hlen2 & Hall2). simpl.
    apply list_eq_same_length with (length (components d1));
      [by rewrite length_map | by rewrite length_map |].
    intros j s2 s' Hlt. rewrite !list_lookup_fmap.
    destruct (lookup_lt_is_Some_2 (components d1) j Hlt) as [c Hj].
    destruct (Hall j c Hj) as (c' & -> & Hsc).
    destruct (Hall2 j c Hj) as (c2 & -> & Hsc2). simpl.
    intros [= <-] [= <-].
    assert (Hin : j ∈ order <-> j ∈ seq 0 (length (components d1))).
    { by rewrite Hperm. }
    destruct Hsc as [(Hs & Hd & Ho & k & _ & ->)|[Hn ->]],
             Hsc2 as [(Hs2 & Hd2 & Ho2 & k2 & _ & ->)|[Hn2 ->]]; simpl; try done.
    + exfalso. apply Hn2. tauto.
    + exfalso. apply Hn. tauto.
Qed.

Lemma CompleteComponent_propagation_witness :
  exists i x, GetComponent twoSteps "A" = Ok (i, x) /\ State x = StateIncomplete /\
    let d1 := markCompleted (tickClock 0) twoSteps (i, x) in
    length (components (fst (snd (CompleteComponent tickClock "A" (twoSteps, 0)))))
      = length (components d1) /\
    (forall j c, components d1 !! j = Some c ->
       exists c',
         components (fst (snd (CompleteComponent tickClock "A" (twoSteps, 0)))) !! j
           = Some c' /\
         (State c = StateNeedsInit /\ depsDone d1 (DependsOn c) ->
            State c' = StateIncomplete) /\
         (~ (State c = StateNeedsInit /\ depsDone d1 (DependsOn c)) ->
            c' = c)) /\
    (forall order, order ≡ₚ seq 0 (length (components d1)) ->
       map State (components (fst (scan tickClock order (d1, 1)))) =
       map State
         (components (fst (snd (CompleteComponent tickClock "A" (twoSteps, 0)))))).
Proof.
  apply (CompleteComponent_propagation tickClock "A" twoSteps 0 _
           (snd (snd (CompleteComponent tickClock "A" (twoSteps, 0))))).
  reflexivity.
Defined.

(** C2.  A [CompleteComponent] addressed to a component that is Blocked
    or already Done returns the not-in-INCOMPLETE-state error; and after
    any failed call, the not-found one included, the graph is the graph of
    before the call (every state, UpdateTime, CompleteTime and DependsOn)
    and the clock has not been read. *)
Theorem CompleteComponent_guarded clock ty d tick :
  (forall i c, GetComponent d ty = Ok (i, c) ->
     State c = StateNeedsInit \/ State c = StateCompleted ->
     CompleteComponent clock ty (d, tick) =
       (Some (ErrNotIncomplete ty (State c)), (d, tick))) /\
  (forall e st', CompleteComponent clock ty (d, tick) = (Some e, st') ->
     st' = (d, tick)) /\
  (forall e, GetComponent d ty = Err e ->
     CompleteComponent clock ty (d, tick) = (Some (ErrNotFound ty), (d, tick))).
Proof.
  split; [|split].
  - intros i c Hget Hs. unfold CompleteComponent. rewrite Hget.
    destruct (decide (State c = StateIncomplete)) as [Hc|Hc]; [|done].
    destruct Hs as [Hs|Hs]; rewrite Hs in Hc; done.
  - intros e st' H. by apply CompleteComponent_Some in H as [-> _].
  - intros e Hget. unfold CompleteComponent. rewrite Hget.
    apply GetComponent_Err in Hget as [-> _]. done.
Qed.

Lemma CompleteComponent_guarded_witness :
  CompleteComponent tickClock "B" (twoSteps, 0) =
    (Some (ErrNotIncomplete "B" StateNeedsInit), (twoSteps, 0)) /\
  snd (CompleteComponent tickClock "C" (twoSteps, 0)) = (twoSteps, 0).
Proof.
  split.
  - apply (proj1 (CompleteComponent_guarded tickClock "B" twoSteps 0) 1
             (mkComponent "B" StateNeedsInit ["A"] 0%Z None)).
    + reflexivity.
    + left. reflexivity.
  - apply (proj1 (proj2 (CompleteComponent_guarded tickClock "C" twoSteps 0))
             (ErrNotFound "C")).
    reflexivity.
Defined.

(** ** Sequences of calls *)

Lemma calls_app clock tys1 tys2 st :
  calls clock (tys1 ++ tys2) st = calls clock tys2 (calls clock tys1 st).
Proof. apply foldl_app. Qed.

Lemma calls_snoc clock tys ty st :
  calls clock (tys ++ [ty]) st =
  snd (CompleteComponent clock ty (calls clock tys st)).
Proof. by rewrite calls_app. Qed.

Lemma CompleteComponent_step clock ty d tick d' tick' err :
  CompleteComponent clock ty (d, tick) = (err, (d', tick')) ->
  forall j cj, components d !! j = Some cj ->
    exists cj', components d' !! j = Some cj' /\
      Type_ cj' = Type_ cj /\ DependsOn cj' = DependsOn cj /\
      step (State cj) (State cj') /\
      (State cj = StateCompleted -> cj' = cj).
Proof.
  intros (_ & _ & Hall)%CompleteComponent_slot j cj Hj.
  destruct (Hall j cj Hj) as (cj' & Hj' & Hty & Hdeps & Hcases).
  exists cj'. split; [done|]. split; [done|]. split; [done|].
  destruct Hcases as [->|[(Hs & Hs' & _)|(_ & _ & Hs & ->)]].
  - split; [by left | done].
  - split; [right; left; done|]. rewrite Hs. done.
  - split; [right; right; done|]. rewrite Hs. done.
Qed.

Lemma calls_frozen clock tys d tick :
  length (components (fst (calls clock tys (d, tick)))) = length (components d) /\
  forall j cj, components d !! j = Some cj ->
    exists cj', components (fst (calls clock tys (d, tick))) !! j = Some cj' /\
      Type_ cj' = Type_ cj /\ DependsOn cj' = DependsOn cj /\
      (State cj = StateCompleted -> cj' = cj).
Proof.
  induction tys as [|ty tys IH] using rev_ind.
  - split; [done|]. intros j cj Hj. by exists cj.
  - rewrite calls_snoc.
    destruct (calls clock tys (d, tick)) as [d1 t1] eqn:E1. cbn [fst snd] in IH.
    destruct IH as [Hlen IH].
    destruct (CompleteComponent clock ty (d1, t1)) as [err [d2 t2]] eqn:E2.
    cbn [fst snd]. split.
    + apply CompleteComponent_slot in E2 as (_ & -> & _). done.
    + intros j cj Hj. destruct (IH j cj Hj) as (c1 & Hc1 & Hty1 & Hd1 & Hf1).
      destruct (CompleteComponent_step _ _ _ _ _ _ _ E2 j c1 Hc1)
        as (c2 & Hc2 & Hty2 & Hd2 & _ & Hf2).
      exists c2. split; [done|]. split; [congruence|]. split; [congruence|].
      intros Hs. specialize (Hf1 Hs) as ->. by apply Hf2.
Qed.

Lemma allCompleted_true cs :
  allCompleted cs = true <-> forall c, c ∈ cs -> State c = StateCompleted.
Proof.
  induction cs as [|a cs IH]; simpl.
  - split; [intros _ c Hc; by apply elem_of_nil in Hc | done].
  - destruct (decide (State a = StateCompleted)) as [Ha|Ha].
    + rewrite IH. split.
      * intros H c [->|Hc]%elem_of_cons; [done | by apply H].
      * intros H c Hc. apply H. by right.
    + split; [done|]. intros H. exfalso. apply Ha, H. by left.
Qed.

(** C7.  For every graph, so for every graph reached from a construction
    by [CompleteComponent] calls: one call, failed or not, moves the state
    of each component by [step] only (it stays, goes Blocked to Ready, or
    goes Ready to Done: never backwards, never Blocked to Done); a
    component that is Done is the same, timestamps included, after any
    sequence of calls; and [AllComponentsCompleted] is true exactly when
    every component is Done. *)
Theorem monotonic_completion clock d tick :
  (forall ty j cj, components d !! j = Some cj ->
     exists cj',
       components (fst (snd (CompleteComponent clock ty (d, tick)))) !! j
         = Some cj' /\
       Type_ cj' = Type_ cj /\ DependsOn cj' = DependsOn cj /\
       step (State cj) (State cj')) /\
  (forall tys j cj, components d !! j = Some cj -> State cj = StateCompleted ->
     components (fst (calls clock tys (d, tick))) !! j = Some cj) /\
  (forall tys,
     length (components (fst (calls clock tys (d, tick)))) =
     length (components d)) /\
  (AllComponentsCompleted d = true <->
     forall c, c ∈ components d -> State c = StateCompleted).
Proof.
  split; [|split; [|split]].
  - intros ty j cj Hj.
    destruct (CompleteComponent clock ty (d, tick)) as [err [d' t']] eqn:E.
    destruct (CompleteComponent_step _ _ _ _ _ _ _ E j cj Hj)
      as (cj' & ? & ? & ? & ? & _).
    by exists cj'.
  - intros tys j cj Hj Hs.
    destruct (proj2 (calls_frozen clock tys d tick) j cj Hj)
      as (cj' & Hj' & _ & _ & Hf).
    by rewrite <- (Hf Hs).
  - intros tys. apply calls_frozen.
  - apply allCompleted_true.
Qed.

Lemma monotonic_completion_witness :
  (exists cj',
     components (fst (snd (CompleteComponent tickClock "A" (twoSteps, 0)))) !! 1
       = Some cj' /\
     Type_ cj' = "B" /\ DependsOn cj' = ["A"] /\
     step StateNeedsInit (State cj')) /\
  components (fst (calls tickClock ["A"; "B"; "A"] (twoSteps, 0))) !! 0 =
  components (fst (calls tickClock ["A"] (twoSteps, 0))) !! 0.
Proof.
  split.
  - apply (proj1 (monotonic_completion tickClock twoSteps 0) "A" 1
             (mkComponent "B" StateNeedsInit ["A"] 0%Z None)).
    reflexivity.
  - change (calls tickClock ["A"; "B"; "A"] (twoSteps, 0))
      with (calls tickClock ["B"; "A"] (calls tickClock ["A"] (twoSteps, 0))).
    apply (proj1 (proj2 (monotonic_completion tickClock
                           (fst (calls tickClock ["A"] (twoSteps, 0)))
                           (snd (calls tickClock ["A"] (twoSteps, 0)))))
             ["B"; "A"] 0
             (mkComponent "A" StateCompleted [] 0%Z (Some 0%Z))).
    + reflexivity.
    + reflexivity.
Defined.

(** ** Components of the same type *)

Lemma later_duplicate_not_returned d d1 ty i c j cj :
  (forall k ck, components d !! k = Some ck ->
     exists ck', components d1 !! k = Some ck' /\ Type_ ck' = Type_ ck) ->
  GetComponent d ty = Ok (i, c) ->
  j <> i -> components d !! j = Some cj -> Type_ cj = ty ->
  forall ty' k ck, GetComponent d1 ty' = Ok (k, ck) -> k <> j.
Proof.
  intros Hty (Hi & Hc & Hfirst)%GetComponent_Ok Hji Hj Hcj ty' k ck
    (Hk & Hck & Hfirst')%GetComponent_Ok ->.
  destruct (Hty j cj Hj) as (cj' & Hj' & Hcj').
  rewrite Hk in Hj'. injection Hj' as <-.
  destruct (Hty i c Hi) as (c' & Hi' & Hc').
  destruct (Nat.lt_trichotomy i j) as [Hlt|[->|Hlt]]; [|done|].
  - apply (Hfirst' i c' Hlt Hi'). congruence.
  - by apply (Hfirst j cj Hlt Hj).
Qed.

(** C10, the counterexample: the later of two components of type A is
    Blocked on A; completing A promotes it. *)
Lemma mutates_only_first_occurrence_fails : ~ mutates_only_first_occurrence.
Proof.
  intros H.
  specialize (H tickClock twins "A" 0 0
                (mkComponent "A" StateIncomplete [] 0%Z None) eq_refl
                1 (mkComponent "A" StateNeedsInit ["A"] 0%Z None)).
  specialize (H ltac:(done) eq_refl eq_refl).
  vm_compute in H. discriminate H.
Qed.

(** C10, amended.  [GetComponent] returns the first component of the
    requested type in declaration order.  A later component of the same
    type is never returned by [GetComponent], whatever calls were made,
    and never receives the completion mark: after any sequence of
    [CompleteComponent] calls its CompleteTime is as it was and it is
    either untouched or has been moved from Blocked to Ready by the
    propagation scan, which visits every slot. *)
Theorem first_occurrence_only clock d ty i c :
  GetComponent d ty = Ok (i, c) ->
  (components d !! i = Some c /\ Type_ c = ty /\
   forall k ck, k < i -> components d !! k = Some ck -> Type_ ck <> ty) /\
  forall j cj, j <> i -> components d !! j = Some cj -> Type_ cj = ty ->
    forall tys tick,
      (forall ty' k ck,
         GetComponent (fst (calls clock tys (d, tick))) ty' = Ok (k, ck) ->
         k <> j) /\
      exists cj', components (fst (calls clock tys (d, tick))) !! j = Some cj' /\
        Type_ cj' = ty /\ DependsOn cj' = DependsOn cj /\
        CompleteTime cj' = CompleteTime cj /\
        (cj' = cj \/
         (State cj = StateNeedsInit /\ State cj' = StateIncomplete)).
Proof.
  intros Hget. split; [by apply GetComponent_Ok|].
  intros j cj Hji Hj Hcj tys tick.
  assert (Hnever : forall tys' ty' k ck,
    GetComponent (fst (calls clock tys' (d, tick))) ty' = Ok (k, ck) -> k <> j).
  { intros tys'. eapply later_duplicate_not_returned; [|done..].
    intros k ck Hk.
    destruct (proj2 (calls_frozen clock tys' d tick) k ck Hk)
      as (ck' & ? & ? & _).
    by exists ck'. }
  split; [apply Hnever|].
  induction tys as [|ty0 tys IH] using rev_ind.
  - exists cj. split; [done|]. split; [done|]. split; [done|]. split; [done|].
    by left.
  - destruct IH as (c1 & Hc1 & Hty1 & Hd1 & Hct1 & Hcases).
    specialize (Hnever tys).
    rewrite calls_snoc.
    destruct (calls clock tys (d, tick)) as [d1 t1]. cbn [fst snd] in *.
    destruct (CompleteComponent clock ty0 (d1, t1)) as [err [d2 t2]] eqn:E2.
    cbn [fst snd].
    apply CompleteComponent_slot in E2 as (_ & _ & Hall).
    destruct (Hall j c1 Hc1) as (c2 & Hc2 & Hty2 & Hd2 & Hcases2).
    exists c2. split; [done|].
    destruct Hcases2 as [->|[(Hs & Hs' & Hct2)|(_ & Hret & _)]].
    + done.
    + split; [congruence|]. split; [congruence|]. split; [congruence|].
      right. destruct Hcases as [->|[_ Hinc]]; [done|].
      rewrite Hinc in Hs. done.
    + exfalso. by apply (Hnever ty0 j c1).
Qed.

Lemma first_occurrence_only_witness :
  exists cj',
    components (fst (calls tickClock ["A"; "A"] (twins, 0))) !! 1 = Some cj' /\
    Type_ cj' = "A" /\ DependsOn cj' = ["A"] /\ CompleteTime cj' = None /\
    (cj' = mkComponent "A" StateNeedsInit ["A"] 0%Z None \/
     (StateNeedsInit = StateNeedsInit /\ State cj' = StateIncomplete)).
Proof.
  apply (proj2 (first_occurrence_only tickClock twins "A" 0
                  (mkComponent "A" StateIncomplete [] 0%Z None) eq_refl)
           1 (mkComponent "A" StateNeedsInit ["A"] 0%Z None)
           ltac:(discriminate) eq_refl eq_refl ["A"; "A"] 0).
Defined.

(** ** The cycle check *)

Section CycleCheck.
Variable d : DAG.

Lemma known_GetComponent x :
  known d x <-> exists i c, GetComponent d x = Ok (i, c).
Proof.
  unfold known. destruct (GetComponent d x) as [[i c]|e] eqn:E.
  - split; [by exists i, c|]. intros _.
    apply GetComponent_Ok in E as (Hi & <- & _).
    apply list_elem_of_fmap. exists c. split; [done|].
    by apply list_elem_of_lookup_2 in Hi.
  - apply GetComponent_Err in E as [_ E]. split; [done|].
    by intros (? & ? & ?).
Qed.

Lemma edge_known x y : edge d x y -> known d x.
Proof.
  unfold edge, depsOf. intros H. apply known_GetComponent.
  destruct (GetComponent d x) as [[i c]|e]; [by exists i, c|].
  by apply elem_of_nil in H.
Qed.

Lemma tc_inv_l x y : tc (edge d) x y -> exists w, edge d x w /\ rtc (edge d) w y.
Proof.
  intros H. destruct H as [x y H|x w y H1 H2].
  - by exists y.
  - exists w. split; [done|]. by apply tc_rtc.
Qed.

Lemma safe_of_successors x : (forall w, edge d x w -> safe d w) -> safe d x.
Proof.
  intros Hsucc y Hxy Hyy.
  apply rtc_inv in Hxy as [<-|(w & Hxw & Hwy)].
  - apply tc_inv_l in Hyy as (w & Hxw & Hwx).
    apply (Hsucc w Hxw x Hwx). by eapply tc_rtc_r; [apply tc_once|].
  - by apply (Hsucc w Hxw y Hwy).
Qed.

Lemma safe_unknown x : ~ known d x -> safe d x.
Proof.
  intros Hx. apply safe_of_successors. intros w Hw.
  exfalso. by apply Hx, (edge_known x w).
Qed.

(** The loop over the dependencies, for any recursive call that meets
    [hasCyclePost] on unvisited ids. *)
Lemma hasCycleDeps_post rec x deps m b m' :
  (forall w mw bw mw', w ∉ visited mw -> rec w mw = Some (bw, mw') ->
     hasCyclePost d w mw bw mw') ->
  hasCycleDeps rec x deps m = Some (b, m') ->
  visited m ⊆ visited m' /\
  (b = false ->
     (forall y, y ∈ recStack m' -> y <> x /\ (y ∈ recStack m \/ ~ known d y)) /\
     (blackSafe d m ->
        (forall w, w ∈ deps -> safe d w) /\ (safe d x -> blackSafe d m'))) /\
  (b = true -> closed d -> (forall w, w ∈ deps -> edge d x w) ->
     greyReach d m x -> cyclic d).
Proof.
  intros Hrec. revert m. induction deps as [|w deps IH]; intros m; simpl.
  - intros [= <- <-]. simpl. split; [done|]. split; [|done]. intros _. split.
    + intros y Hy. set_solver.
    + intros Hbs. split; [intros w Hw; by apply elem_of_nil in Hw|].
      intros Hx y Hy Hny. simpl in *.
      destruct (decide (y = x)) as [->|Hyx]; [done|].
      apply Hbs; [done|]. set_solver.
  - destruct (decide (w ∈ visited m)) as [Hv|Hv].
    + destruct (decide (w ∈ recStack m)) as [Hr|Hr].
      * intros [= <- <-]. split; [done|]. split; [done|].
        intros _ Hcl Hedge Hgrey. exists w.
        assert (Hxw : edge d x w) by (apply Hedge; by left).
        apply tc_rtc_l with x; [|by apply tc_once].
        apply Hgrey; [done|]. by apply (Hcl x w).
      * intros H. destruct (IH m H) as (Hsub & Hf & Ht).
        split; [done|]. split.
        -- intros Hb. destruct (Hf Hb) as [Hstack Hsafe].
           split; [done|]. intros Hbs. destruct (Hsafe Hbs) as [Hdeps Hfin].
           split; [|done].
           intros w' [->|Hw']%elem_of_cons; [by apply Hbs | by apply Hdeps].
        -- intros Hb Hcl Hedge Hgrey. apply Ht; [done..| |done].
           intros w' Hw'. apply Hedge. by right.
    + destruct (rec w m) as [[[] m1]|] eqn:Erec; [| |done].
      * intros [= <- <-].
        destruct (Hrec w m true m1 Hv Erec) as (Hsub & _ & Ht).
        split; [set_solver|]. split; [done|].
        intros _ Hcl Hedge Hgrey.
        assert (Hxw : edge d x w) by (apply Hedge; by left).
        apply Ht; [done | done | by apply (Hcl x w) |].
        intros y Hy Hky. eapply rtc_r; [by apply Hgrey | done].
      * intros H. destruct (IH m1 H) as (Hsub1 & Hf & Ht).
        destruct (Hrec w m false m1 Hv Erec) as (Hsub & Hfw & _).
        destruct (Hfw eq_refl) as (Hstack_w & Hblack_w & Hbs_w).
        split; [set_solver|]. split.
        -- intros Hb. destruct (Hf Hb) as [Hstack Hsafe]. split.
           ++ intros y Hy. destruct (Hstack y Hy) as [Hyx [Hy1|Hy1]];
                [|by split; [|right]].
              split; [done|]. by apply Hstack_w.
           ++ intros Hbs. destruct (Hsafe (Hbs_w Hbs)) as [Hdeps Hfin].
              split; [|done].
              intros w' [->|Hw']%elem_of_cons; [|by apply Hdeps].
              destruct (decide (w ∈ map Type_ (components d))) as [Hk|Hk];
                [|by apply safe_unknown].
              apply (Hbs_w Hbs); [set_solver | by apply Hblack_w].
        -- intros Hb Hcl Hedge Hgrey. apply Ht; [done..| |].
           ++ intros w' Hw'. apply Hedge. by right.
           ++ intros y Hy Hky. destruct (Hstack_w y Hy) as [Hy0|Hy0];
                [by apply Hgrey | done].
Qed.

Lemma blackSafe_push x m :
  blackSafe d m ->
  blackSafe d (mkMarks ({[x]} ∪ visited m) ({[x]} ∪ recStack m)).
Proof. intros Hbs y Hy Hny. simpl in *. apply Hbs; set_solver. Qed.

Lemma hasCycle_post fuel x m b m' :
  x ∉ visited m ->
  hasCycle fuel d x m = Some (b, m') -> hasCyclePost d x m b m'.
Proof.
  revert x m b m'. induction fuel as [|fuel IH]; intros x m b m' Hx; [done|].
  simpl. destruct (GetComponent d x) as [[i c]|e] eqn:E.
  - intros H.
    apply hasCycleDeps_post in H as (Hsub & Hf & Ht); [|exact IH].
    simpl in Hsub.
    assert (Hdeps : depsOf d x = DependsOn c) by (unfold depsOf; by rewrite E).
    split; [done|]. split.
    + intros Hb. destruct (Hf Hb) as [Hstack Hsafe]. split; [|split].
      * intros y Hy. destruct (Hstack y Hy) as [Hyx [Hy1|Hy1]]; [|by right].
        left. simpl in Hy1. set_solver.
      * intros _ Hin. by destruct (Hstack x Hin).
      * intros Hbs.
        destruct (Hsafe (blackSafe_push x m Hbs)) as [Hsucc Hfin].
        apply Hfin, safe_of_successors. intros w Hw. apply Hsucc.
        unfold edge in Hw. by rewrite Hdeps in Hw.
    + intros Hb Hcl Hk Hgrey. apply Ht; [done | done | |].
      * intros w Hw. unfold edge. by rewrite Hdeps.
      * intros y Hy Hky. simpl in Hy.
        apply elem_of_union in Hy as [->%elem_of_singleton|Hy]; [done|].
        by apply Hgrey.
  - intros [= <- <-]. apply GetComponent_Err in E as [_ E].
    split; [done|]. split.
    + intros _. split; [|split].
      * intros y Hy. simpl in Hy.
        apply elem_of_union in Hy as [->%elem_of_singleton|Hy];
          [by right | by left].
      * done.
      * apply blackSafe_push.
    + done.
Qed.

(** The loop of [validateNoCycles]: accepted means every component still
    to visit is safe; rejected means there is a cycle. *)
Lemma validateLoop_post fuel cs m b :
  (forall c, c ∈ cs -> known d (Type_ c)) ->
  (forall y, y ∈ recStack m -> ~ known d y) ->
  validateLoop fuel d cs m = Some b ->
  (b = false -> blackSafe d m -> forall c, c ∈ cs -> safe d (Type_ c)) /\
  (b = true -> closed d -> cyclic d).
Proof.
  revert m. induction cs as [|c cs IH]; intros m Hknown Hstack; simpl.
  - intros [= <-]. split; [|done]. intros _ _ c Hc. by apply elem_of_nil in Hc.
  - assert (Hknown' : forall c', c' ∈ cs -> known d (Type_ c')).
    { intros c' Hc'. apply Hknown. by right. }
    assert (Hkc : known d (Type_ c)) by (apply Hknown; by left).
    destruct (decide (Type_ c ∈ visited m)) as [Hv|Hv].
    + intros H. destruct (IH m Hknown' Hstack H) as [Hf Ht].
      split; [|done]. intros Hb Hbs c' [->|Hc']%elem_of_cons; [|by apply Hf].
      apply Hbs; [done|]. intros Hr. by apply (Hstack _ Hr).
    + destruct (hasCycle fuel d (Type_ c) m) as [[[] m1]|] eqn:E; [| |done].
      * intros [= <-]. split; [done|]. intros _ Hcl.
        apply hasCycle_post in E as (_ & _ & Ht); [|done].
        apply Ht; [done..|]. intros y Hy Hky. by destruct (Hstack y Hy).
      * intros H.
        apply hasCycle_post in E as (Hsub & Hfc & _); [|done].
        destruct (Hfc eq_refl) as (Hstack1 & Hblack & Hbs1).
        assert (Hstack' : forall y, y ∈ recStack m1 -> ~ known d y).
        { intros y Hy. destruct (Hstack1 y Hy) as [Hy0|Hy0]; [|done].
          by apply Hstack. }
        destruct (IH m1 Hknown' Hstack' H) as [Hf Ht].
        split; [|done]. intros Hb Hbs c' [->|Hc']%elem_of_cons.
        -- apply (Hbs1 Hbs); [set_solver | by apply Hblack].
        -- by apply Hf; [|apply Hbs1|].
Qed.

(** The verdict of [validateNoCycles], when it returns. *)
Lemma validateNoCycles_verdict fuel r :
  validateNoCycles fuel d = Some r ->
  (r = None -> ~ cyclic d) /\
  (r = Some ErrCycleDetected \/ r = None) /\
  (closed d -> r <> None -> cyclic d).
Proof.
  unfold validateNoCycles.
  destruct (validateLoop fuel d (components d) (mkMarks ∅ ∅)) as [b|] eqn:E;
    [|done].
  apply validateLoop_post in E as [Hf Ht].
  2:{ intros c Hc. unfold known. apply list_elem_of_fmap. by exists c. }
  2:{ intros y Hy. simpl in Hy. by apply not_elem_of_empty in Hy. }
  destruct b; intros [= <-].
  - split; [done|]. split; [by left|]. intros Hcl _. by apply Ht.
  - split; [|split; [by right | done]].
    intros _ [x Hx].
    assert (Hkx : known d x).
    { apply tc_inv_l in Hx as (w & Hw & _). by apply (edge_known x w). }
    unfold known in Hkx. apply list_elem_of_fmap in Hkx as (c & -> & Hc).
    apply (Hf eq_refl) in Hc.
    + by apply (Hc (Type_ c)).
    + intros y Hy. simpl in Hy. by apply not_elem_of_empty in Hy.
Qed.

End CycleCheck.

(** *** Termination: enough fuel, and more fuel changes nothing *)

Lemma hasCycleDeps_total (U : gset ComponentType) f rec x deps m :
  (forall w mw, w ∈ U -> w ∉ visited mw -> size (U ∖ visited mw) <= f ->
     exists b mw', rec w mw = Some (b, mw') /\ visited mw ⊆ visited mw') ->
  (forall w, w ∈ deps -> w ∈ U) ->
  size (U ∖ visited m) <= f ->
  exists b m', hasCycleDeps rec x deps m = Some (b, m') /\
    visited m ⊆ visited m'.
Proof.
  intros Hrec. revert m. induction deps as [|w deps IH]; intros m HU Hsize; simpl.
  - eexists _, _. split; [done|]. done.
  - assert (HU' : forall w', w' ∈ deps -> w' ∈ U).
    { intros w' Hw'. apply HU. by right. }
    destruct (decide (w ∈ visited m)) as [Hv|Hv].
    + destruct (decide (w ∈ recStack m)); [by eexists _, _|].
      by apply IH.
    + destruct (Hrec w m) as (b & m1 & -> & Hsub); [apply HU; by left|done..|].
      destruct b; [by eexists _, _|].
      destruct (IH m1 HU') as (b' & m' & -> & Hsub').
      * etrans; [|exact Hsize]. apply subseteq_size. set_solver.
      * eexists _, _. split; [done|]. set_solver.
Qed.

Lemma DependsOn_universe cs c y :
  c ∈ cs -> y ∈ DependsOn c -> y ∈ universe cs.
Proof.
  intros Hc Hy. unfold universe. apply elem_of_union_r, elem_of_list_to_set.
  apply list_elem_of_In, in_concat. exists (DependsOn c).
  split; [|by apply list_elem_of_In].
  apply list_elem_of_In, list_elem_of_fmap. by exists c.
Qed.

Lemma Type_universe cs c : c ∈ cs -> Type_ c ∈ universe cs.
Proof.
  intros Hc. unfold universe. apply elem_of_union_l, elem_of_list_to_set.
  apply list_elem_of_fmap. by exists c.
Qed.

Lemma hasCycle_total fuel d x m :
  x ∈ universe (components d) -> x ∉ visited m ->
  size (universe (components d) ∖ visited m) <= fuel ->
  exists b m', hasCycle fuel d x m = Some (b, m') /\ visited m ⊆ visited m'.
Proof.
  set (U := universe (components d)).
  revert x m. induction fuel as [|fuel IH]; intros x m HxU Hx Hsize.
  - exfalso. assert (size ({[x]} : gset ComponentType) <= size (U ∖ visited m)).
    { apply subseteq_size. set_solver. }
    rewrite size_singleton in H. lia.
  - simpl. destruct (GetComponent d x) as [[i c]|e] eqn:E.
    + apply GetComponent_Ok in E as (Hi & _ & _).
      apply list_elem_of_lookup_2 in Hi.
      destruct (hasCycleDeps_total U fuel (hasCycle fuel d) x (DependsOn c)
                  (mkMarks ({[x]} ∪ visited m) ({[x]} ∪ recStack m)))
        as (b & m' & -> & Hsub).
      * exact IH.
      * intros w Hw. by apply (DependsOn_universe _ c).
      * simpl. assert (size (U ∖ ({[x]} ∪ visited m)) < size (U ∖ visited m));
          [|lia].
        apply subset_size. split; [set_solver|].
        intros Hsub. assert (Hin : x ∈ U ∖ visited m) by set_solver.
        apply Hsub in Hin. set_solver.
      * eexists _, _. split; [done|]. simpl in Hsub. set_solver.
    + eexists _, _. split; [done|]. simpl. set_solver.
Qed.

Lemma validateLoop_total fuel d cs m :
  (forall c, c ∈ cs -> c ∈ components d) ->
  size (universe (components d)) <= fuel ->
  exists b, validateLoop fuel d cs m = Some b.
Proof.
  intros Hcs Hfuel. revert m Hcs. induction cs as [|c cs IH]; intros m Hcs; simpl.
  - by eexists.
  - assert (Hcs' : forall c', c' ∈ cs -> c' ∈ components d).
    { intros c' Hc'. apply Hcs. by right. }
    destruct (decide (Type_ c ∈ visited m)) as [Hv|Hv]; [by apply IH|].
    destruct (hasCycle_total fuel d (Type_ c) m) as (b & m' & -> & _).
    + apply Type_universe, Hcs. by left.
    + done.
    + etrans; [|exact Hfuel]. apply subseteq_size. set_solver.
    + destruct b; [by eexists | by apply IH].
Qed.

Lemma hasCycleDeps_mono rec rec' x deps m r :
  (forall w mw rw, rec w mw = Some rw -> rec' w mw = Some rw) ->
  hasCycleDeps rec x deps m = Some r -> hasCycleDeps rec' x deps m = Some r.
Proof.
  intros Hrec. revert m. induction deps as [|w deps IH]; intros m; simpl; [done|].
  destruct (decide (w ∈ visited m)).
  - destruct (decide (w ∈ recStack m)); [done | apply IH].
  - destruct (rec w m) as [[[] m1]|] eqn:E; [| |done];
      rewrite (Hrec _ _ _ E); [done | apply IH].
Qed.

Lemma hasCycle_mono fuel fuel' d x m r :
  fuel <= fuel' ->
  hasCycle fuel d x m = Some r -> hasCycle fuel' d x m = Some r.
Proof.
  revert fuel' x m r. induction fuel as [|fuel IH]; intros fuel' x m r Hle; [done|].
  destruct fuel' as [|fuel']; [lia|]. simpl.
  destruct (GetComponent d x) as [[i c]|e]; [|done].
  apply hasCycleDeps_mono. intros w mw rw. apply IH. lia.
Qed.

Lemma validateLoop_mono fuel fuel' d cs m b :
  fuel <= fuel' ->
  validateLoop fuel d cs m = Some b -> validateLoop fuel' d cs m = Some b.
Proof.
  intros Hle. revert m. induction cs as [|c cs IH]; intros m; simpl; [done|].
  destruct (decide (Type_ c ∈ visited m)); [apply IH|].
  destruct (hasCycle fuel d (Type_ c) m) as [[[] m1]|] eqn:E; [| |done];
    rewrite (hasCycle_mono _ _ _ _ _ _ Hle E); [done | apply IH].
Qed.

(** [NewDAG] returns, with the graph it was given or with the cycle
    error, and a deeper recursion bound gives the same result. *)
Lemma NewDAG_total cs :
  exists r, NewDAG cs = Some r /\
    (r = Ok (mkDAG cs) \/ r = Err ErrCycleDetected) /\
    forall fuel, S (size (universe cs)) <= fuel -> NewDAG_fuel fuel cs = Some r.
Proof.
  unfold NewDAG, NewDAG_fuel, validateNoCycles.
  destruct (validateLoop_total (S (size (universe cs))) (mkDAG cs) cs
              (mkMarks ∅ ∅)) as [b Hb]; [done | simpl; lia |].
  simpl components. rewrite Hb.
  exists (if b then Err ErrCycleDetected else Ok (mkDAG cs)).
  split; [by destruct b|]. split; [destruct b; [by right | by left]|].
  intros fuel Hfuel. rewrite (validateLoop_mono _ _ _ _ _ _ Hfuel Hb).
  by destruct b.
Qed.

Lemma NewDAG_verdict cs r :
  NewDAG cs = Some r ->
  (r = Ok (mkDAG cs) \/ r = Err ErrCycleDetected) /\
  (r = Ok (mkDAG cs) -> ~ cyclic (mkDAG cs)) /\
  (closed (mkDAG cs) -> r = Err ErrCycleDetected -> cyclic (mkDAG cs)).
Proof.
  unfold NewDAG, NewDAG_fuel.
  destruct (validateNoCycles _ _) as [v|] eqn:E; [|done].
  apply validateNoCycles_verdict in E as (Hacc & Hv & Hrej).
  destruct v as [e|]; intros [= <-].
  - destruct Hv as [[= ->]|]; [|done].
    split; [by right|]. split; [done|]. intros Hcl _. by apply Hrej.
  - split; [by left|]. split; [|done]. intros _. by apply Hacc.
Qed.

Lemma NewDAG_Ok_components cs d : NewDAG cs = Some (Ok d) -> components d = cs.
Proof.
  intros Hd. destruct (NewDAG_total cs) as (r & Hr & [->| ->] & _);
    rewrite Hr in Hd; by simplify_eq.
Qed.

(** *** The relation the code reads and the declared relation *)

Lemma tc_subrel {A} (R R' : relation A) x y :
  (forall a b, R a b -> R' a b) -> tc R x y -> tc R' x y.
Proof.
  intros HR H. induction H as [x y H|x w y H _ IH].
  - by apply tc_once, HR.
  - eapply tc_l; [by apply HR | done].
Qed.

Lemma edge_declared cs x y : edge (mkDAG cs) x y -> declared cs x y.
Proof.
  unfold edge, depsOf. destruct (GetComponent (mkDAG cs) x) as [[i c]|e] eqn:E.
  - intros Hy. apply GetComponent_Ok in E as (Hi & Hty & _).
    exists c. split; [by apply list_elem_of_lookup_2 in Hi | done].
  - intros Hy. by apply elem_of_nil in Hy.
Qed.

Lemma uniqueIds_GetComponent cs c :
  uniqueIds cs -> c ∈ cs -> exists i, GetComponent (mkDAG cs) (Type_ c) = Ok (i, c).
Proof.
  intros Hnd Hc.
  destruct (GetComponent (mkDAG cs) (Type_ c)) as [[i c0]|e] eqn:E.
  - exists i. apply GetComponent_Ok in E as (Hi & Hty & _). simpl in Hi.
    apply list_elem_of_lookup_1 in Hc as [j Hj].
    assert (i = j) as ->.
    { apply (NoDup_lookup _ i j (Type_ c) Hnd); rewrite list_lookup_fmap.
      - by rewrite Hi; simpl; rewrite Hty.
      - by rewrite Hj. }
    rewrite Hj in Hi. by injection Hi as ->.
  - apply GetComponent_Err in E as [_ E]. exfalso. apply E.
    apply list_elem_of_fmap. by exists c.
Qed.

Lemma declared_edge cs x y :
  uniqueIds cs -> declared cs x y -> edge (mkDAG cs) x y.
Proof.
  intros Hnd (c & Hc & <- & Hy). unfold edge, depsOf.
  destruct (uniqueIds_GetComponent cs c Hnd Hc) as [i ->]. done.
Qed.

Lemma cyclic_declared cs : cyclic (mkDAG cs) -> hasDeclaredCycle cs.
Proof.
  intros [x Hx]. exists x. eapply tc_subrel; [|done]. apply edge_declared.
Qed.

Lemma declared_cyclic cs :
  uniqueIds cs -> hasDeclaredCycle cs -> cyclic (mkDAG cs).
Proof.
  intros Hnd [x Hx]. exists x. eapply tc_subrel; [|done].
  intros a b. by apply declared_edge.
Qed.

Lemma depsDefined_closed cs : depsDefined cs -> closed (mkDAG cs).
Proof.
  intros Hdef x y (c & Hc & _ & Hy)%edge_declared. by apply (Hdef c).
Qed.

(** C3, the counterexample: A depends on B, and the id B is defined
    twice, without dependencies and then depending on A.  The declared
    relation has the cycle A, B, A; the traversal resolves B to its first
    definition and accepts. *)
Lemma cycle_check_decides_declared_fails : ~ cycle_check_decides_declared.
Proof.
  intros H. destruct (H shadowedCycle) as [Hcyc _].
  assert (Hc : hasDeclaredCycle shadowedCycle).
  { exists "A". apply tc_l with "B"; [|apply tc_once].
    - exists (mkComponent "A" StateNeedsInit ["B"] 0%Z None).
      split; [by left|]. split; [done | by left].
    - exists (mkComponent "B" StateNeedsInit ["A"] 0%Z None).
      split; [by right; right; left|]. split; [done | by left]. }
  specialize (Hcyc Hc). vm_compute in Hcyc. discriminate Hcyc.
Qed.

(** The early return of [hasCycle] for an id without a definition leaves
    its [recStack] entry set: a second reference to the id is reported
    as a cycle although the list has none. *)
Lemma danglingTwice_rejected :
  ~ hasDeclaredCycle danglingTwice /\
  NewDAG danglingTwice = Some (Err ErrCycleDetected).
Proof.
  split; [|reflexivity].
  assert (Hstep : forall x y, declared danglingTwice x y -> x = "A" /\ y <> "A").
  { intros x y (c & Hc & <- & Hy).
    apply list_elem_of_singleton in Hc as ->. simpl in *. split; [done|].
    intros ->. set_solver. }
  intros [x Hx].
  assert (Hlast : forall a b, tc (declared danglingTwice) a b -> b <> "A").
  { intros a b Hab. induction Hab as [a b H|a w b _ _ IH]; [|done].
    by apply Hstep in H as [_ ?]. }
  assert (Hfirst : forall a b, tc (declared danglingTwice) a b -> a = "A").
  { intros a b Hab. destruct Hab as [a b H|a w b H _];
      by apply Hstep in H as [? _]. }
  apply (Hlast x x Hx), (Hfirst x x Hx).
Qed.

(** C3, amended.  The traversal returns on every definition list, and a
    deeper recursion bound gives the same result.  A list is rejected with
    the cycle error, and no graph, whenever the relation the code reads
    (every id resolved to its first definition) has a cycle; with unique
    ids that is the declared relation.  A list whose dependencies all name
    defined ids is accepted whenever that relation has no cycle. *)
Theorem NewDAG_cycle_check cs :
  (exists r, NewDAG cs = Some r /\
     forall fuel, S (size (universe cs)) <= fuel ->
       NewDAG_fuel fuel cs = Some r) /\
  (cyclic (mkDAG cs) -> NewDAG cs = Some (Err ErrCycleDetected)) /\
  (uniqueIds cs -> hasDeclaredCycle cs ->
     NewDAG cs = Some (Err ErrCycleDetected)) /\
  (depsDefined cs -> ~ cyclic (mkDAG cs) -> NewDAG cs = Some (Ok (mkDAG cs))) /\
  (depsDefined cs -> ~ hasDeclaredCycle cs ->
     NewDAG cs = Some (Ok (mkDAG cs))).
Proof.
  destruct (NewDAG_total cs) as (r & Hr & Hcases & Hfuel).
  pose proof (NewDAG_verdict cs r Hr) as (_ & Hacc & Hrej).
  assert (Hcyc : cyclic (mkDAG cs) -> NewDAG cs = Some (Err ErrCycleDetected)).
  { intros Hc. destruct Hcases as [->| ->]; [|done]. by destruct Hacc. }
  assert (Hok : depsDefined cs -> ~ cyclic (mkDAG cs) ->
                NewDAG cs = Some (Ok (mkDAG cs))).
  { intros Hdef Hnc. destruct Hcases as [->| ->]; [done|].
    destruct Hnc. apply Hrej; [by apply depsDefined_closed | done]. }
  split; [by exists r|]. split; [done|]. split; [|split; [done|]].
  - intros Hnd Hc. by apply Hcyc, declared_cyclic.
  - intros Hdef Hnc. apply Hok; [done|]. intros Hc. by apply Hnc, cyclic_declared.
Qed.

Lemma NewDAG_cycle_check_witness :
  NewDAG mutualPair = Some (Err ErrCycleDetected).
Proof.
  apply (proj1 (proj2 (proj2 (NewDAG_cycle_check mutualPair)))).
  - unfold uniqueIds. simpl. apply NoDup_cons. split; [set_solver|].
    apply NoDup_singleton.
  - exists "A". apply tc_l with "B"; [|apply tc_once].
    + exists (mkComponent "A" StateNeedsInit ["B"] 0%Z None).
      split; [by left|]. split; [done | by left].
    + exists (mkComponent "B" StateNeedsInit ["A"] 0%Z None).
      split; [by right; left|]. split; [done | by left].
Defined.

(** *** Repeated ids *)

Lemma hasCycleDeps_ext rec rec' x deps m :
  (forall w mw, rec w mw = rec' w mw) ->
  hasCycleDeps rec x deps m = hasCycleDeps rec' x deps m.
Proof.
  intros Hrec. revert m. induction deps as [|w deps IH]; intros m; simpl; [done|].
  destruct (decide (w ∈ visited m)).
  - destruct (decide (w ∈ recStack m)); [done | apply IH].
  - rewrite <- Hrec. destruct (rec w m) as [[[] m1]|]; [done | apply IH | done].
Qed.

(** The traversal reads the graph through [lookupDeps] only. *)
Lemma hasCycle_ext fuel d d' x m :
  (forall y, lookupDeps d y = lookupDeps d' y) ->
  hasCycle fuel d x m = hasCycle fuel d' x m.
Proof.
  intros Hd. revert x m. induction fuel as [|fuel IH]; intros x m; [done|].
  simpl. specialize (Hd x). unfold lookupDeps in Hd.
  destruct (GetComponent d x) as [[i c]|e], (GetComponent d' x) as [[i' c']|e'];
    try done.
  injection Hd as ->. by apply hasCycleDeps_ext.
Qed.

Lemma validateLoop_ext fuel d d' cs m :
  (forall y, lookupDeps d y = lookupDeps d' y) ->
  validateLoop fuel d cs m = validateLoop fuel d' cs m.
Proof.
  intros Hd. revert m. induction cs as [|c cs IH]; intros m; simpl; [done|].
  destruct (decide (Type_ c ∈ visited m)); [apply IH|].
  rewrite (hasCycle_ext fuel d d' _ _ Hd).
  destruct (hasCycle fuel d' (Type_ c) m) as [[[] m1]|]; [done | apply IH | done].
Qed.

Lemma findComponent_firstDefsFrom seen ty cs i j :
  ty ∉ seen ->
  snd <$> findComponent ty (firstDefsFrom seen cs) i =
  snd <$> findComponent ty cs j.
Proof.
  revert seen i j. induction cs as [|c cs IH]; intros seen i j Hty; simpl; [done|].
  destruct (decide (Type_ c ∈ seen)) as [Hs|Hs].
  - destruct (decide (Type_ c = ty)) as [<-|Hc]; [done|]. by apply IH.
  - simpl. destruct (decide (Type_ c = ty)) as [<-|Hc]; [done|].
    apply IH. set_solver.
Qed.

Lemma lookupDeps_firstDefs cs y :
  lookupDeps (mkDAG cs) y = lookupDeps (mkDAG (firstDefs cs)) y.
Proof.
  unfold lookupDeps, GetComponent, firstDefs. simpl.
  pose proof (findComponent_firstDefsFrom ∅ y cs 0 0) as H.
  destruct (findComponent y (firstDefsFrom ∅ cs) 0) as [[i c]|],
           (findComponent y cs 0) as [[i' c']|]; simpl in H;
    try (by specialize (H ltac:(set_solver))).
  specialize (H ltac:(set_solver)). by injection H as ->.
Qed.

(** A later definition of an id already visited is skipped by the loop of
    [validateNoCycles]. *)
Lemma validateLoop_firstDefsFrom fuel d seen cs m :
  seen ⊆ visited m ->
  validateLoop fuel d (firstDefsFrom seen cs) m = validateLoop fuel d cs m.
Proof.
  revert seen m. induction cs as [|c cs IH]; intros seen m Hseen; simpl; [done|].
  destruct (decide (Type_ c ∈ seen)) as [Hs|Hs].
  - destruct (decide (Type_ c ∈ visited m)) as [Hv|Hv]; [by apply IH|].
    exfalso. by apply Hv, Hseen.
  - simpl. destruct (decide (Type_ c ∈ visited m)) as [Hv|Hv].
    + apply IH. set_solver.
    + destruct (hasCycle fuel d (Type_ c) m) as [[[] m1]|] eqn:E; [done| |done].
      apply hasCycle_post in E as (Hsub & _); [|done].
      apply IH. set_solver.
Qed.

Lemma firstDefsFrom_types seen cs c :
  c ∈ firstDefsFrom seen cs -> c ∈ cs /\ Type_ c ∉ seen.
Proof.
  revert seen. induction cs as [|a cs IH]; intros seen; simpl.
  - intros H. by apply elem_of_nil in H.
  - destruct (decide (Type_ a ∈ seen)) as [Hs|Hs].
    + intros [? ?]%IH. split; [by right | done].
    + intros [->|[? ?]%IH]%elem_of_cons.
      * split; [by left | done].
      * split; [by right | set_solver].
Qed.

Lemma firstDefsFrom_uniqueIds seen cs : uniqueIds (firstDefsFrom seen cs).
Proof.
  unfold uniqueIds. revert seen. induction cs as [|a cs IH]; intros seen; simpl.
  - apply NoDup_nil_2.
  - destruct (decide (Type_ a ∈ seen)); [apply IH|].
    simpl. apply NoDup_cons. split; [|apply IH].
    intros (c & Hty & [_ Hc]%firstDefsFrom_types)%list_elem_of_fmap.
    set_solver.
Qed.

Lemma firstDefsFrom_id seen cs :
  uniqueIds cs -> (forall c, c ∈ cs -> Type_ c ∉ seen) ->
  firstDefsFrom seen cs = cs.
Proof.
  unfold uniqueIds. revert seen. induction cs as [|a cs IH]; intros seen; simpl;
    [done|].
  intros [Ha Hnd]%NoDup_cons Hseen.
  destruct (decide (Type_ a ∈ seen)) as [Hs|Hs].
  - exfalso. apply (Hseen a); [by left | done].
  - f_equal. apply IH; [done|]. intros c Hc.
    assert (Type_ c <> Type_ a).
    { intros Heq. apply Ha. rewrite <- Heq. apply list_elem_of_fmap. by exists c. }
    assert (Type_ c ∉ seen) by (apply Hseen; by right). set_solver.
Qed.

Lemma validateLoop_firstDefs fuel cs :
  validateLoop fuel (mkDAG (firstDefs cs)) (firstDefs cs) (mkMarks ∅ ∅) =
  validateLoop fuel (mkDAG cs) cs (mkMarks ∅ ∅).
Proof.
  rewrite <- (validateLoop_ext fuel (mkDAG cs));
    [|apply lookupDeps_firstDefs].
  by apply validateLoop_firstDefsFrom.
Qed.

(** C4, the counterexample: the id A defined twice is accepted. *)
Lemma rejects_repeated_ids_fails : ~ rejects_repeated_ids.
Proof.
  intros H. destruct (H repeatedId) as [e He].
  - unfold uniqueIds. simpl. intros [Hn _]%NoDup_cons. set_solver.
  - vm_compute in He. discriminate He.
Qed.

(** C4, amended.  [NewDAG] has no check for repeated ids.  Its verdict on
    a definition list is its verdict on the list of the first definitions
    of each id ([firstDefs], which has unique ids and is the list itself
    when its ids are unique): the later definitions of an id are never
    looked at.  The only error is the cycle error, and an accepted list is
    returned as the graph whole, repeated ids included. *)
Theorem NewDAG_repeated_ids cs :
  uniqueIds (firstDefs cs) /\
  (uniqueIds cs -> firstDefs cs = cs) /\
  (NewDAG cs = Some (Ok (mkDAG cs)) <->
   NewDAG (firstDefs cs) = Some (Ok (mkDAG (firstDefs cs)))) /\
  (NewDAG cs = Some (Err ErrCycleDetected) <->
   NewDAG (firstDefs cs) = Some (Err ErrCycleDetected)) /\
  (NewDAG cs = Some (Ok (mkDAG cs)) \/ NewDAG cs = Some (Err ErrCycleDetected)).
Proof.
  split; [apply firstDefsFrom_uniqueIds|].
  split; [intros Hnd; apply firstDefsFrom_id; [done | set_solver]|].
  destruct (NewDAG_total cs) as (r & Hr & Hcases & Hfuel).
  destruct (NewDAG_total (firstDefs cs)) as (r' & Hr' & Hcases' & Hfuel').
  set (f := S (size (universe cs)) `max` S (size (universe (firstDefs cs)))).
  specialize (Hfuel f ltac:(lia)). specialize (Hfuel' f ltac:(lia)).
  unfold NewDAG_fuel, validateNoCycles in Hfuel, Hfuel'. simpl in Hfuel, Hfuel'.
  rewrite validateLoop_firstDefs in Hfuel'.
  rewrite Hr, Hr'.
  destruct (validateLoop f (mkDAG cs) cs (mkMarks ∅ ∅)) as [[]|]; [| |done];
    injection Hfuel as <-; injection Hfuel' as <-.
  - split; [done|]. split; [done|]. by right.
  - split; [done|]. split; [done|]. by left.
Qed.

Lemma NewDAG_repeated_ids_witness :
  firstDefs mutualPair = mutualPair.
Proof.
  apply (proj1 (proj2 (NewDAG_repeated_ids mutualPair))).
  unfold uniqueIds. simpl. apply NoDup_cons. split; [set_solver|].
  apply NoDup_singleton.
Defined.

(** *** Dependencies without a definition *)

Lemma markCompleted_types now d i x :
  components d !! i = Some x ->
  map Type_ (components (markCompleted now d (i, x))) = map Type_ (components d).
Proof.
  intros Hi. simpl. rewrite list_fmap_insert. simpl.
  apply list_insert_id. by rewrite list_lookup_fmap, Hi.
Qed.

(** A component that a call moved from Blocked has only dependencies with
    a definition. *)
Lemma promoted_deps_known clock ty d tick err d' tick' j cj cj' :
  CompleteComponent clock ty (d, tick) = (err, (d', tick')) ->
  components d !! j = Some cj -> components d' !! j = Some cj' ->
  State cj = StateNeedsInit -> cj' <> cj ->
  forall z, z ∈ DependsOn cj -> known d z.
Proof.
  intros Hcall Hj Hj' Hs Hne z Hz. destruct err as [e|].
  - apply CompleteComponent_Some in Hcall as [[= <- <-] _]. congruence.
  - apply CompleteComponent_None in Hcall as (i & x & Hget & Hx & Hst).
    pose proof Hget as (Hi & _)%GetComponent_Ok.
    symmetry in Hst. unfold updateDependentComponents in Hst.
    apply scan_spec in Hst as (_ & _ & Hall).
    assert (Hij : j <> i).
    { intros ->. rewrite Hi in Hj. injection Hj as ->.
      rewrite Hx in Hs. done. }
    destruct (Hall j cj) as (c' & Hc' & Hsc).
    { simpl. by rewrite list_lookup_insert_ne. }
    rewrite Hj' in Hc'. injection Hc' as <-.
    destruct Hsc as [(_ & Hd & _)|[_ ->]]; [|done].
    apply allDepsComplete_true in Hd. destruct (Hd z Hz) as (k & ck & Hk & _).
    unfold known. rewrite <- (markCompleted_types (clock tick) d i x Hi).
    apply known_GetComponent. by exists k, ck.
Qed.

Lemma calls_types clock tys d tick :
  map Type_ (components (fst (calls clock tys (d, tick)))) =
  map Type_ (components d).
Proof.
  destruct (calls_frozen clock tys d tick) as [Hlen Hall].
  apply list_eq_same_length with (length (components d));
    [by rewrite length_map | by rewrite length_map |].
  intros j a b Hlt. rewrite !list_lookup_fmap.
  destruct (lookup_lt_is_Some_2 (components d) j Hlt) as [c Hc].
  destruct (Hall j c Hc) as (c' & -> & Hty & _). rewrite Hc. simpl.
  intros [= <-] [= <-]. done.
Qed.

(** C5, the counterexample: A depends on Z, which has no definition, and
    the list is accepted. *)
Lemma rejects_unknown_dependencies_fails : ~ rejects_unknown_dependencies.
Proof.
  intros H. destruct (H danglingOnce) as [e He].
  - intros Hdef.
    specialize (Hdef (mkComponent "A" StateNeedsInit ["Z"] 0%Z None) "Z").
    specialize (Hdef ltac:(by left) ltac:(by left)).
    simpl in Hdef. set_solver.
  - vm_compute in He. discriminate He.
Qed.

(** C5, amended.  [NewDAG] has no check that dependencies name defined
    ids.  The traversal takes an id without a definition for a node
    without dependencies: [hasCycle] marks it and returns false.  The only
    construction error is the cycle error, and an accepted list is
    returned as the graph with the reference kept.  In the graph, a
    Blocked component with such a dependency is never promoted: it is the
    same after any sequence of [CompleteComponent] calls. *)
Theorem NewDAG_unknown_dependencies :
  (forall fuel d x m, ~ known d x ->
     hasCycle (S fuel) d x m =
       Some (false, mkMarks ({[x]} ∪ visited m) ({[x]} ∪ recStack m))) /\
  (forall cs, NewDAG cs = Some (Ok (mkDAG cs)) \/
              NewDAG cs = Some (Err ErrCycleDetected)) /\
  (forall clock d j c z tys tick,
     components d !! j = Some c -> State c = StateNeedsInit ->
     z ∈ DependsOn c -> ~ known d z ->
     components (fst (calls clock tys (d, tick))) !! j = Some c).
Proof.
  split; [|split].
  - intros fuel d x m Hx. simpl.
    destruct (GetComponent d x) as [[i c]|e] eqn:E; [|done].
    exfalso. apply Hx, known_GetComponent. by exists i, c.
  - intros cs. destruct (NewDAG_total cs) as (r & -> & [->| ->] & _);
      [by left | by right].
  - intros clock d j c z tys tick Hj Hs Hz Hnk.
    induction tys as [|ty tys IH] using rev_ind; [done|].
    rewrite calls_snoc.
    pose proof (calls_types clock tys d tick) as Htypes.
    destruct (calls clock tys (d, tick)) as [d1 t1]. cbn [fst snd] in *.
    destruct (CompleteComponent clock ty (d1, t1)) as [err [d2 t2]] eqn:E.
    cbn [fst snd].
    pose proof E as (_ & _ & Hall)%CompleteComponent_slot.
    destruct (Hall j c IH) as (c' & Hc' & _ & _ & Hcases).
    destruct Hcases as [->|[(_ & Hs' & _)|(_ & _ & Hs' & _)]]; [done| |].
    + exfalso. apply Hnk. unfold known. rewrite <- Htypes.
      apply (promoted_deps_known _ _ _ _ _ _ _ _ _ _ E IH Hc' Hs); [|done].
      intros ->. rewrite Hs in Hs'. done.
    + rewrite Hs in Hs'. done.
Qed.

Lemma NewDAG_unknown_dependencies_witness :
  components (fst (calls tickClock ["A"; "Z"] (mkDAG danglingOnce, 0))) !! 0 =
  Some (mkComponent "A" StateNeedsInit ["Z"] 0%Z None).
Proof.
  apply (proj2 (proj2 NewDAG_unknown_dependencies) tickClock
           (mkDAG danglingOnce) 0 _ "Z").
  - reflexivity.
  - reflexivity.
  - by left.
  - unfold known. simpl. set_solver.
Defined.

(** ** Initial states *)

(** The order of the repository: after construction Payment is Ready and
    the others Blocked; completing Payment makes MakeDough Ready;
    MakeDough cannot be completed before Payment; completing the five in
    declaration order ends with every component Done. *)
Example pizza_scenario :
  (map State (pizzaComponents 0%Z) =
     [StateIncomplete; StateNeedsInit; StateNeedsInit; StateNeedsInit;
      StateNeedsInit]) /\
  (map State (components (fst (calls tickClock [ComponentPayment]
                                 (mkDAG (pizzaComponents 0%Z), 0)))) =
     [StateCompleted; StateIncomplete; StateNeedsInit; StateNeedsInit;
      StateNeedsInit]) /\
  (CompleteComponent tickClock ComponentMakeDough (mkDAG (pizzaComponents 0%Z), 0) =
     (Some (ErrNotIncomplete ComponentMakeDough StateNeedsInit),
      (mkDAG (pizzaComponents 0%Z), 0))) /\
  (AllComponentsCompleted
     (fst (calls tickClock
             [ComponentPayment; ComponentMakeDough; ComponentAddToppings;
              ComponentBakePizza; ComponentDeliver]
             (mkDAG (pizzaComponents 0%Z), 0))) = true).
Proof. repeat split; reflexivity. Qed.

(** C6, the counterexample: a component handed to [NewDAG] as Done, with
    a CompleteTime, is in the returned graph as it was handed in. *)
Lemma constructor_assigns_states_fails : ~ constructor_assigns_states.
Proof.
  intros H.
  destruct (H bornDone (mkDAG bornDone) eq_refl
              (mkComponent "A" StateCompleted [] 0%Z (Some 0%Z)))
    as [Hs _]; [by left|].
  simpl in Hs. discriminate Hs.
Qed.

(** C6, amended.  [NewDAG] assigns no state and no timestamp: the graph
    it returns holds the components it was given, with the states the
    caller set.  The repository's constructor [NewPizzaOrderDAG] sets
    them as the specification asks: its graph is accepted, and each of its
    components is Ready if its DependsOn is empty and Blocked otherwise,
    with the construction time as UpdateTime and no CompleteTime. *)
Theorem NewDAG_keeps_components :
  (forall cs d, NewDAG cs = Some (Ok d) -> components d = cs) /\
  (forall now, exists d,
     NewPizzaOrderDAG now = Some d /\
     map Type_ (components d) =
       [ComponentPayment; ComponentMakeDough; ComponentAddToppings;
        ComponentBakePizza; ComponentDeliver] /\
     forall c, c ∈ components d ->
       State c = initialState (DependsOn c) /\
       UpdateTime c = now /\ CompleteTime c = None).
Proof.
  split; [apply NewDAG_Ok_components|].
  - intros now. exists (mkDAG (pizzaComponents now)). split; [done|].
    split; [done|]. intros c Hc. simpl in Hc. unfold pizzaComponents in Hc.
    repeat (apply elem_of_cons in Hc as [->|Hc]; [done|]).
    by apply elem_of_nil in Hc.
Qed.

Lemma NewDAG_keeps_components_witness :
  components (mkDAG bornDone) = bornDone.
Proof.
  apply (proj1 NewDAG_keeps_components bornDone (mkDAG bornDone)).
  reflexivity.
Defined.

(** ** Snapshot and restore *)

Lemma recordsWellFormed_MarshalJSON g :
  uniqueIds (components g) -> depsDefined (components g) ->
  recordsWellFormed (MarshalJSON g) = true.
Proof.
  intros Hnd Hdef. unfold recordsWellFormed, MarshalJSON.
  assert (Hty : map r_type (map (fun c => mkStepRecord (Type_ c) (State c)
                  (DependsOn c) (UpdateTime c) (CompleteTime c)) (components g))
                = map Type_ (components g)).
  { rewrite map_map. done. }
  rewrite Hty. apply andb_true_iff. split; [by apply bool_decide_eq_true|].
  apply forallb_forall. intros r [c [<- Hc]]%in_map_iff. simpl.
  apply forallb_forall. intros y Hy. apply bool_decide_eq_true.
  apply (Hdef c); by apply list_elem_of_In.
Qed.

Lemma Restore_MarshalJSON g :
  uniqueIds (components g) -> depsDefined (components g) ->
  Restore (MarshalJSON g) = Restored g.
Proof.
  intros Hnd Hdef. unfold Restore.
  rewrite recordsWellFormed_MarshalJSON by done.
  unfold MarshalJSON. rewrite map_map. simpl. f_equal.
  destruct g as [cs]. simpl. f_equal. clear Hnd Hdef.
  induction cs as [|[] cs IH]; simpl; [done|]. by rewrite IH.
Qed.

Lemma calls_wellFormed clock tys d tick :
  uniqueIds (components d) -> depsDefined (components d) ->
  uniqueIds (components (fst (calls clock tys (d, tick)))) /\
  depsDefined (components (fst (calls clock tys (d, tick)))).
Proof.
  intros Hnd Hdef. pose proof (calls_types clock tys d tick) as Hty.
  destruct (calls_frozen clock tys d tick) as [Hlen Hall].
  split; [unfold uniqueIds; by rewrite Hty|].
  intros c' y [j Hj]%list_elem_of_lookup_1 Hy. rewrite Hty.
  assert (Hlt : j < length (components d)).
  { rewrite <- Hlen. by eapply lookup_lt_Some. }
  destruct (lookup_lt_is_Some_2 _ _ Hlt) as [c Hc].
  destruct (Hall j c Hc) as (c2 & Hc2 & _ & Hdeps & _).
  rewrite Hj in Hc2. injection Hc2 as <-.
  apply (Hdef c); [by eapply list_elem_of_lookup_2 | by rewrite <- Hdeps].
Qed.

(** C8, the counterexample: the accepted list that defines A twice is
    refused by [Restore] as corrupt. *)
Lemma snapshot_round_trip_fails : ~ snapshot_round_trip.
Proof.
  intros H.
  destruct (H tickClock repeatedId (mkDAG repeatedId) [] 0 eq_refl)
    as (g' & Hg' & _).
  vm_compute in Hg'. discriminate Hg'.
Qed.

(** C8, amended.  For every graph reached by [CompleteComponent] calls
    from an accepted construction whose ids are unique and whose
    dependencies all name defined ids, restoring the records of
    [MarshalJSON] gives the graph itself: it answers [GetComponent],
    [GetNextComponent] and [AllComponentsCompleted] as the original does,
    and any later sequence of calls under the same clock readings leaves
    both with the same states, UpdateTime and CompleteTime. *)
Theorem snapshot_round_trip_wellformed (clock : Clock) cs d0 tys tick :
  NewDAG cs = Some (Ok d0) -> uniqueIds cs -> depsDefined cs ->
  exists g', Restore (MarshalJSON (fst (calls clock tys (d0, tick)))) =
               Restored g' /\
             g' = fst (calls clock tys (d0, tick)) /\
             sameBehaviour (fst (calls clock tys (d0, tick))) g'.
Proof.
  intros Hd0 Hnd Hdef.
  apply NewDAG_Ok_components in Hd0.
  destruct (calls_wellFormed clock tys d0 tick) as [Hnd' Hdef'];
    [by rewrite Hd0 | by rewrite Hd0 |].
  exists (fst (calls clock tys (d0, tick))).
  split; [by apply Restore_MarshalJSON|]. split; [done|].
  by repeat split.
Qed.

Lemma snapshot_round_trip_wellformed_witness :
  exists g',
    Restore (MarshalJSON (fst (calls tickClock ["A"] (twoSteps, 0)))) =
      Restored g' /\
    g' = fst (calls tickClock ["A"] (twoSteps, 0)) /\
    sameBehaviour (fst (calls tickClock ["A"] (twoSteps, 0))) g'.
Proof.
  apply (snapshot_round_trip_wellformed tickClock (components twoSteps)).
  - reflexivity.
  - unfold uniqueIds. simpl. apply NoDup_cons. split; [set_solver|].
    apply NoDup_singleton.
  - intros c y Hc Hy. simpl in *.
    apply elem_of_cons in Hc as [->|Hc]; [by apply elem_of_nil in Hy|].
    apply list_elem_of_singleton in Hc as ->. simpl in Hy.
    apply list_elem_of_singleton in Hy as ->. by left.
Defined.

(** * Further properties of dag.go *)

(** ** Counting the Done components *)

Lemma scan_agree clock order d0 t0 d' t' :
  scan clock order (d0, t0) = (d', t') ->
  Forall2 agree (components d0) (components d').
Proof.
  intros (_ & Hlen & Hall)%scan_spec.
  apply Forall2_same_length_lookup. split; [done|].
  intros i c c1 Hc Hc1. destruct (Hall i c Hc) as (c1' & Hc1' & Hsc).
  rewrite Hc1 in Hc1'. injection Hc1' as <-. by eapply scanned_agree.
Qed.

Lemma countDone_agree d d' :
  Forall2 agree (components d) (components d') -> countDone d' = countDone d.
Proof.
  unfold countDone. induction 1 as [|c c' cs cs' [_ Hst] _ IH]; [done|].
  rewrite !filter_cons.
  destruct (decide (State c = StateCompleted)),
           (decide (State c' = StateCompleted)); simpl; try lia; tauto.
Qed.

Lemma countDone_insert cs i c c' :
  cs !! i = Some c -> State c <> StateCompleted -> State c' = StateCompleted ->
  countDone (mkDAG (<[i := c']> cs)) = S (countDone (mkDAG cs)).
Proof.
  intros Hi Hc Hc'. unfold countDone. simpl.
  rewrite insert_take_drop by (by eapply lookup_lt_Some).
  rewrite <- (take_drop_middle cs i c Hi) at 3.
  rewrite !filter_app, !filter_cons, !length_app.
  destruct (decide (State c = StateCompleted)); [done|].
  destruct (decide (State c' = StateCompleted)); [|done].
  simpl. lia.
Qed.

Lemma countDone_call clock ty d tick :
  countDone (fst (snd (CompleteComponent clock ty (d, tick)))) =
  countDone d +
  match fst (CompleteComponent clock ty (d, tick)) with
  | None => 1
  | Some _ => 0
  end.
Proof.
  destruct (CompleteComponent clock ty (d, tick)) as [[e|] [d' t']] eqn:E; simpl.
  - apply CompleteComponent_Some in E as [[= <- <-] _]. lia.
  - apply CompleteComponent_None in E as (i & x & Hget & Hx & Hst).
    apply GetComponent_Ok in Hget as (Hi & _).
    symmetry in Hst. unfold updateDependentComponents in Hst.
    apply scan_agree in Hst. rewrite (countDone_agree _ _ Hst).
    unfold markCompleted.
    rewrite (countDone_insert (components d) i x); [|done| |done].
    + unfold countDone. simpl. lia.
    + rewrite Hx. done.
Qed.

Lemma countDone_calls clock tys d tick :
  countDone d <= countDone (fst (calls clock tys (d, tick))) <=
  countDone d + length tys.
Proof.
  induction tys as [|ty tys IH] using rev_ind; [simpl; lia|].
  rewrite calls_snoc, length_app. simpl.
  destruct (calls clock tys (d, tick)) as [d1 t1]. cbn [fst] in IH.
  pose proof (countDone_call clock ty d1 t1) as H.
  destruct (fst (CompleteComponent clock ty (d1, t1))); lia.
Qed.

(** X1.  A successful [CompleteComponent] raises the number of Done
    components by exactly one and a failed one leaves it as it was; so a
    sequence of calls raises it by at most its length. *)
Theorem CompleteComponent_counts clock ty tys d tick :
  countDone (fst (snd (CompleteComponent clock ty (d, tick)))) =
    countDone d +
    match fst (CompleteComponent clock ty (d, tick)) with
    | None => 1
    | Some _ => 0
    end /\
  countDone d <= countDone (fst (calls clock tys (d, tick))) <=
    countDone d + length tys.
Proof. split; [apply countDone_call | apply countDone_calls]. Qed.

(** ** Completing twice *)

Lemma GetComponent_same_types d d' ty i c :
  map Type_ (components d') = map Type_ (components d) ->
  GetComponent d ty = Ok (i, c) ->
  exists c', GetComponent d' ty = Ok (i, c') /\ components d' !! i = Some c'.
Proof.
  intros Hty (Hi & Hc & Hfirst)%GetComponent_Ok.
  assert (Hlook : forall k, Type_ <$> components d' !! k = Type_ <$> components d !! k).
  { intros k. rewrite <- !list_lookup_fmap.
    change (map Type_ (components d') !! k = map Type_ (components d) !! k).
    by rewrite Hty. }
  pose proof (Hlook i) as Hi'. rewrite Hi in Hi'. simpl in Hi'.
  destruct (components d' !! i) as [c'|] eqn:Ei; [|done].
  injection Hi' as Hc'. exists c'. split; [|done].
  apply GetComponent_Ok. split; [done|]. split; [congruence|].
  intros k ck Hk Hck. pose proof (Hlook k) as Hk'. rewrite Hck in Hk'.
  destruct (components d !! k) as [ck0|] eqn:Ek; [|done].
  injection Hk' as Hk'. rewrite Hk'. by apply (Hfirst k).
Qed.

Lemma call_types clock ty d tick :
  map Type_ (components (fst (snd (CompleteComponent clock ty (d, tick))))) =
  map Type_ (components d).
Proof. apply (calls_types clock [ty] d tick). Qed.

Lemma CompleteComponent_marks clock ty d tick d' tick' :
  CompleteComponent clock ty (d, tick) = (None, (d', tick')) ->
  exists i x, GetComponent d ty = Ok (i, x) /\ State x = StateIncomplete /\
    components d' !! i =
      Some (mkComponent (Type_ x) StateCompleted (DependsOn x) (clock tick)
              (Some (clock tick))).
Proof.
  intros (i & x & Hget & Hx & Hst)%CompleteComponent_None.
  exists i, x. split; [done|]. split; [done|].
  pose proof Hget as (Hi & _)%GetComponent_Ok.
  symmetry in Hst. unfold updateDependentComponents in Hst.
  apply scan_spec in Hst as (_ & _ & Hall).
  destruct (Hall i (mkComponent (Type_ x) StateCompleted (DependsOn x)
                      (clock tick) (Some (clock tick)))) as (c' & Hc' & Hsc).
  { apply list_lookup_insert_eq. by eapply lookup_lt_Some. }
  by destruct Hsc as [(Hs & _)|[_ ->]].
Qed.

(** X2.  Once a [CompleteComponent] on a type has succeeded, every later
    [CompleteComponent] on that type, whatever calls were made in between,
    fails with the not-INCOMPLETE error reporting COMPLETED and changes
    nothing. *)
Theorem CompleteComponent_twice clock ty d tick st1 tys :
  CompleteComponent clock ty (d, tick) = (None, st1) ->
  CompleteComponent clock ty (calls clock tys st1) =
    (Some (ErrNotIncomplete ty StateCompleted), calls clock tys st1).
Proof.
  destruct st1 as [d1 t1]. intros H.
  pose proof (call_types clock ty d tick) as Hty1. rewrite H in Hty1.
  apply CompleteComponent_marks in H as (i & x & Hget & Hx & Hi1).
  cbn [fst snd] in Hty1.
  destruct (GetComponent_same_types d d1 ty i x Hty1 Hget) as (c1 & Hget1 & Hc1).
  rewrite Hi1 in Hc1. injection Hc1 as <-.
  pose proof (calls_types clock tys d1 t1) as Hty2.
  destruct (proj2 (calls_frozen clock tys d1 t1) i _ Hi1)
    as (c2 & Hc2 & _ & _ & Hfrozen).
  specialize (Hfrozen eq_refl) as ->.
  destruct (calls clock tys (d1, t1)) as [d2 t2]. cbn [fst snd] in *.
  destruct (GetComponent_same_types d1 d2 ty i _ Hty2 Hget1) as (c2 & Hget2 & Hc2').
  rewrite Hc2 in Hc2'. injection Hc2' as <-.
  unfold CompleteComponent. rewrite Hget2. simpl.
  destruct (decide (StateCompleted = StateIncomplete)); done.
Qed.

Lemma CompleteComponent_twice_witness :
  CompleteComponent tickClock "A" (calls tickClock ["B"; "Z"]
     (snd (CompleteComponent tickClock "A" (twoSteps, 0)))) =
  (Some (ErrNotIncomplete "A" StateCompleted),
   calls tickClock ["B"; "Z"]
     (snd (CompleteComponent tickClock "A" (twoSteps, 0)))).
Proof.
  apply (CompleteComponent_twice tickClock "A" twoSteps 0). reflexivity.
Defined.

(** ** Timestamps *)

Lemma stamped_call clock ty d tick :
  (forall c, c ∈ components d -> stamped c) ->
  forall c', c' ∈ components (fst (snd (CompleteComponent clock ty (d, tick)))) ->
    stamped c'.
Proof.
  intros Hd c' [j Hj]%list_elem_of_lookup_1.
  destruct (CompleteComponent clock ty (d, tick)) as [err [d' t']] eqn:E.
  cbn [fst snd] in Hj.
  apply CompleteComponent_slot in E as (_ & Hlen & Hall).
  assert (is_Some (components d !! j)) as [c Hc].
  { apply lookup_lt_is_Some. rewrite <- Hlen. by eapply lookup_lt_Some. }
  destruct (Hall j c Hc) as (c2 & Hc2 & _ & _ & Hcases).
  rewrite Hj in Hc2. injection Hc2 as <-.
  assert (Hsc : stamped c) by (by eapply Hd, list_elem_of_lookup_2).
  destruct Hcases as [->|[(Hs & Hs' & Hct)|(_ & _ & _ & ->)]]; [done| |].
  - split.
    + rewrite Hs'. done.
    + intros _. rewrite Hct. apply Hsc. rewrite Hs. done.
  - split; [done|]. intros Hne. by destruct Hne.
Qed.

(** X3.  If in a graph every Done component has a CompleteTime equal to
    its UpdateTime and no other component has a CompleteTime, the same
    holds after any sequence of [CompleteComponent] calls. *)
Theorem calls_stamped clock tys d tick :
  (forall c, c ∈ components d -> stamped c) ->
  forall c', c' ∈ components (fst (calls clock tys (d, tick))) -> stamped c'.
Proof.
  intros Hd. induction tys as [|ty tys IH] using rev_ind; [done|].
  rewrite calls_snoc. destruct (calls clock tys (d, tick)) as [d1 t1].
  by apply stamped_call.
Qed.

Lemma calls_stamped_witness :
  stamped (mkComponent "B" StateCompleted ["A"] 2%Z (Some 2%Z)).
Proof.
  apply (calls_stamped tickClock ["A"; "B"] twoSteps 0).
  - intros c Hc. simpl in Hc.
    apply elem_of_cons in Hc as [->|Hc]; [by split|].
    apply list_elem_of_singleton in Hc as ->. by split.
  - vm_compute. right. left.
Defined.

(** ** One scan is enough *)

Lemma scan_noop clock order d t :
  (forall i c, components d !! i = Some c ->
     ~ (State c = StateNeedsInit /\ allDepsComplete d (DependsOn c) = true)) ->
  scan clock order (d, t) = (d, t).
Proof.
  intros Hnone. unfold scan. induction order as [|i order IH]; [done|].
  change (foldl (promote clock) (promote clock (d, t) i) order = (d, t)).
  assert (promote clock (d, t) i = (d, t)) as ->; [|done].
  unfold promote. destruct (components d !! i) as [c|] eqn:Ei; [|done].
  destruct (decide (State c = StateNeedsInit)) as [Hs|Hs]; [|done].
  destruct (allDepsComplete d (DependsOn c)) eqn:Hd; [|done].
  exfalso. by apply (Hnone i c).
Qed.

Lemma updateDependentComponents_settles clock d t d' t' :
  updateDependentComponents clock (d, t) = (d', t') ->
  forall i c, components d' !! i = Some c ->
    ~ (State c = StateNeedsInit /\ allDepsComplete d' (DependsOn c) = true).
Proof.
  unfold updateDependentComponents. simpl. intros Hscan i c' Hi [Hs Hd].
  pose proof (scan_agree _ _ _ _ _ _ Hscan) as Hagree.
  apply scan_spec in Hscan as (_ & Hlen & Hall).
  assert (is_Some (components d !! i)) as [c Hc].
  { apply lookup_lt_is_Some. rewrite <- Hlen. by eapply lookup_lt_Some. }
  destruct (Hall i c Hc) as (c2 & Hc2 & Hsc).
  rewrite Hi in Hc2. injection Hc2 as <-.
  destruct Hsc as [(_ & _ & _ & k & _ & ->)|[Hn ->]]; [done|].
  apply Hn. split; [done|]. split.
  - by rewrite <- (allDepsComplete_agree d d').
  - apply elem_of_seq. apply lookup_lt_Some in Hc. lia.
Qed.

(** X4.  One propagation scan is enough.  Running
    [updateDependentComponents] a second time changes nothing and does not
    read the clock; and after a successful [CompleteComponent] no
    component is left Blocked with all its dependencies Done. *)
Theorem scan_once_suffices clock :
  (forall st, updateDependentComponents clock (updateDependentComponents clock st)
              = updateDependentComponents clock st) /\
  (forall ty d tick d' tick' c,
     CompleteComponent clock ty (d, tick) = (None, (d', tick')) ->
     c ∈ components d' -> State c = StateNeedsInit ->
     ~ depsDone d' (DependsOn c)).
Proof.
  split.
  - intros [d t].
    destruct (updateDependentComponents clock (d, t)) as [d' t'] eqn:E.
    unfold updateDependentComponents at 1. apply scan_noop.
    by eapply updateDependentComponents_settles.
  - intros ty d tick d' tick' c (i & x & _ & _ & Hst)%CompleteComponent_None
      [j Hj]%list_elem_of_lookup_1 Hs Hd.
    symmetry in Hst.
    apply (updateDependentComponents_settles _ _ _ _ _ Hst j c Hj).
    split; [done|]. by apply allDepsComplete_true.
Qed.

Lemma scan_once_suffices_witness :
  ~ depsDone (fst (snd (CompleteComponent tickClock ComponentPayment
                          (mkDAG (pizzaComponents 0%Z), 0%nat))))
      [ComponentMakeDough].
Proof.
  apply (proj2 (scan_once_suffices tickClock) ComponentPayment
           (mkDAG (pizzaComponents 0%Z)) 0 _
           (snd (snd (CompleteComponent tickClock ComponentPayment
                        (mkDAG (pizzaComponents 0%Z), 0%nat))))
           (mkComponent ComponentAddToppings StateNeedsInit [ComponentMakeDough]
              0%Z None)).
  - reflexivity.
  - right. right. by left.
  - reflexivity.
Defined.

(** ** The ids of a graph never change *)

(** X5.  The calls never add, remove or move a component: after any
    sequence of [CompleteComponent] calls, [GetComponent] on a type
    returns the slot it returned before, holding a component with the
    same type and dependencies, and it fails for a type exactly when it
    failed before. *)
Theorem GetComponent_stable clock tys d tick ty :
  match GetComponent d ty with
  | Ok (i, c) =>
      exists c', GetComponent (fst (calls clock tys (d, tick))) ty = Ok (i, c') /\
                 Type_ c' = Type_ c /\ DependsOn c' = DependsOn c
  | Err e => GetComponent (fst (calls clock tys (d, tick))) ty = Err e
  end.
Proof.
  pose proof (calls_types clock tys d tick) as Hty.
  destruct (GetComponent d ty) as [[i c]|e] eqn:E.
  - destruct (GetComponent_same_types d _ ty i c Hty E) as (c' & Hget & Hc').
    exists c'. split; [done|].
    apply GetComponent_Ok in E as (Hi & _).
    destruct (proj2 (calls_frozen clock tys d tick) i c Hi)
      as (c2 & Hc2 & ? & ? & _).
    rewrite Hc' in Hc2. by injection Hc2 as <-.
  - apply GetComponent_Err in E as [-> E]. apply GetComponent_Err.
    split; [done|]. by rewrite Hty.
Qed.

(** ** The snapshot *)



(** ** Progress: a graph in use is never stuck *)

Lemma tc_last {A} (R : relation A) x y : tc R x y -> exists z, R z y.
Proof. induction 1 as [x y H|x w y _ _ IH]; [by exists x | done]. Qed.

Lemma edge_universe d x y : edge d x y -> y ∈ universe (components d).
Proof.
  intros (c & Hc & _ & Hy)%(edge_declared (components d) x y).
  - by apply (DependsOn_universe _ c).
Qed.

Lemma acyclic_sn d x : ~ cyclic d -> sn (edge d) x.
Proof.
  intros Hacyc. apply tc_finite_sn.
  - intros y Hy. apply Hacyc. by exists y.
  - exists (elements (universe (components d))). intros y Hy.
    apply elem_of_elements. apply tc_last in Hy as [z Hz].
    by apply (edge_universe d z).
Qed.

Lemma allDepsComplete_false d deps :
  allDepsComplete d deps = false ->
  exists y, y ∈ deps /\
    match GetComponent d y with
    | Ok (_, c) => State c <> StateCompleted
    | Err _ => True
    end.
Proof.
  induction deps as [|y deps IH]; simpl; [done|].
  destruct (GetComponent d y) as [[i c]|e] eqn:E.
  - destruct (decide (State c = StateCompleted)) as [Hc|Hc].
    + intros (z & Hz & H)%IH. exists z. split; [by right | done].
    + intros _. exists y. split; [by left|]. by rewrite E.
  - intros _. exists y. split; [by left|]. by rewrite E.
Qed.

Lemma ready_GetNextComponent d c :
  c ∈ components d -> State c = StateIncomplete ->
  exists p, GetNextComponent d = Some p.
Proof.
  intros Hc Hs. unfold GetNextComponent.
  destruct (nextComponent (components d) 0) as [p|] eqn:E; [by exists p|].
  apply nextComponent_None in E. rewrite Forall_forall in E.
  by destruct (E c Hc).
Qed.

(** A Blocked component of a settled graph has a dependency whose first
    definition is not Done. *)
Lemma blocked_on d c :
  settled d -> depsDefined (components d) -> c ∈ components d ->
  State c = StateNeedsInit ->
  exists y i cy, y ∈ DependsOn c /\ GetComponent d y = Ok (i, cy) /\
                 State cy <> StateCompleted.
Proof.
  intros Hset Hdef Hc Hs.
  destruct (Hset c Hc) as [H|[H|[_ Hnd]]]; [rewrite Hs in H; done..|].
  destruct (allDepsComplete d (DependsOn c)) eqn:Hd.
  { by apply allDepsComplete_true in Hd. }
  apply allDepsComplete_false in Hd as (y & Hy & Hget).
  destruct (GetComponent d y) as [[i cy]|e] eqn:E; [by exists y, i, cy|].
  apply GetComponent_Err in E as [_ E]. destruct E. by apply (Hdef c).
Qed.

Lemma not_done_ready d x :
  settled d -> depsDefined (components d) -> sn (edge d) x ->
  forall i c, GetComponent d x = Ok (i, c) -> State c <> StateCompleted ->
    exists c', c' ∈ components d /\ State c' = StateIncomplete.
Proof.
  intros Hset Hdef Hsn. induction Hsn as [x _ IH]. intros i c Hget Hs.
  pose proof Hget as (Hi & _)%GetComponent_Ok.
  apply list_elem_of_lookup_2 in Hi.
  destruct (Hset c Hi) as [H|[H|[Hni _]]]; [by exists c | done|].
  destruct (blocked_on d c Hset Hdef Hi Hni) as (y & j & cy & Hy & Hgy & Hsy).
  apply (IH y) with j cy; [|done..].
  unfold flip, edge, depsOf. by rewrite Hget.
Qed.

Lemma allCompleted_false cs :
  allCompleted cs = false -> exists c, c ∈ cs /\ State c <> StateCompleted.
Proof.
  induction cs as [|a cs IH]; simpl; [done|].
  destruct (decide (State a = StateCompleted)).
  - intros (c & ? & ?)%IH. exists c. split; [by right | done].
  - intros _. exists a. split; [by left | done].
Qed.

Lemma progress d :
  settled d -> depsDefined (components d) -> ~ cyclic d ->
  AllComponentsCompleted d = false -> exists p, GetNextComponent d = Some p.
Proof.
  intros Hset Hdef Hacyc (c & Hc & Hs)%allCompleted_false.
  destruct (Hset c Hc) as [H|[H|[Hni _]]];
    [by apply (ready_GetNextComponent d c) | done |].
  destruct (blocked_on d c Hset Hdef Hc Hni) as (y & j & cy & Hy & Hgy & Hsy).
  destruct (not_done_ready d y Hset Hdef (acyclic_sn d y Hacyc) j cy Hgy Hsy)
    as (c' & Hc' & Hs').
  by apply (ready_GetNextComponent d c').
Qed.

(** X7.  A graph with defined dependencies and no cycle, in which every
    Blocked component has a dependency that is not Done and every other
    one is Ready or Done, is never stuck: [GetNextComponent] returns nil
    exactly when [AllComponentsCompleted] is true. *)
Theorem GetNextComponent_nil_iff_done d :
  settled d -> depsDefined (components d) -> ~ cyclic d ->
  (GetNextComponent d = None <-> AllComponentsCompleted d = true).
Proof.
  intros Hset Hdef Hacyc. split.
  - intros Hnone. destruct (AllComponentsCompleted d) eqn:E; [done|].
    destruct (progress d Hset Hdef Hacyc E) as [p Hp]. congruence.
  - intros Hall. apply nextComponent_None, Forall_forall. intros c Hc.
    rewrite (proj1 (allCompleted_true _) Hall c Hc). done.
Qed.

Lemma GetNextComponent_nil_iff_done_witness :
  GetNextComponent twoSteps = None <-> AllComponentsCompleted twoSteps = true.
Proof.
  apply (GetNextComponent_nil_iff_done twoSteps).
  - intros c Hc. simpl in Hc. apply elem_of_cons in Hc as [->|Hc]; [by left|].
    apply list_elem_of_singleton in Hc as ->. right. right. split; [done|].
    intros Hd. destruct (Hd "A") as (i & c & Hget & Hs); [by left|].
    vm_compute in Hget. injection Hget as <- <-. discriminate Hs.
  - intros c y Hc Hy. simpl in *.
    apply elem_of_cons in Hc as [->|Hc]; [by apply elem_of_nil in Hy|].
    apply list_elem_of_singleton in Hc as ->. simpl in Hy.
    apply list_elem_of_singleton in Hy as ->. by left.
  - apply (proj1 (proj2 (NewDAG_verdict (components twoSteps) _ eq_refl))).
    reflexivity.
Defined.

(** ** The invariants of a graph in use are kept *)

Lemma fresh_settled d :
  (forall c, c ∈ components d -> State c = initialState (DependsOn c)) ->
  settled d.
Proof.
  intros Hinit c Hc. pose proof (Hinit c Hc) as Hs.
  destruct (DependsOn c) as [|y deps] eqn:Hdeps; simpl in Hs; [by left|].
  right. right. split; [done|]. intros Hd.
  destruct (Hd y) as (i & cy & (Hi & _)%GetComponent_Ok & Hcy); [by left|].
  apply list_elem_of_lookup_2 in Hi. rewrite (Hinit cy Hi) in Hcy.
  by destruct (DependsOn cy).
Qed.

Lemma settled_call clock ty d tick :
  settled d -> settled (fst (snd (CompleteComponent clock ty (d, tick)))).
Proof.
  intros Hset.
  destruct (CompleteComponent clock ty (d, tick)) as [[e|] [d' t']] eqn:E;
    cbn [fst snd].
  { by apply CompleteComponent_Some in E as [[= <- <-] _]. }
  intros c' Hc'. pose proof Hc' as [j Hj]%list_elem_of_lookup_1.
  pose proof E as (_ & Hlen & Hall)%CompleteComponent_slot.
  assert (is_Some (components d !! j)) as [c Hc].
  { apply lookup_lt_is_Some. rewrite <- Hlen. by eapply lookup_lt_Some. }
  destruct (Hall j c Hc) as (c2 & Hc2 & _ & _ & Hcases).
  rewrite Hj in Hc2. injection Hc2 as <-.
  destruct Hcases as [->|[(_ & Hs' & _)|(_ & _ & _ & ->)]];
    [|by left | by right; left].
  destruct (Hset c (list_elem_of_lookup_2 _ _ _ Hc)) as [H|[H|[Hni _]]];
    [by left | by right; left|].
  right. right. split; [done|]. intros Hd.
  apply CompleteComponent_None in E as (i & x & _ & _ & Hst). symmetry in Hst.
  apply (updateDependentComponents_settles _ _ _ _ _ Hst j c Hj).
  split; [done|]. by apply allDepsComplete_true.
Qed.

Lemma lookupDeps_calls clock tys d tick y :
  lookupDeps (fst (calls clock tys (d, tick))) y = lookupDeps d y.
Proof.
  unfold lookupDeps. pose proof (calls_types clock tys d tick) as Hty.
  destruct (GetComponent d y) as [[i c]|e] eqn:E.
  - destruct (GetComponent_same_types d _ y i c Hty E) as (c' & -> & Hc').
    apply GetComponent_Ok in E as (Hi & _).
    destruct (proj2 (calls_frozen clock tys d tick) i c Hi)
      as (c2 & Hc2 & _ & Hdeps & _).
    rewrite Hc' in Hc2. injection Hc2 as <-. by rewrite Hdeps.
  - apply GetComponent_Err in E as [_ E].
    destruct (GetComponent (fst (calls clock tys (d, tick))) y)
      as [[i c']|e'] eqn:E'; [|done].
    exfalso. apply E. rewrite <- Hty.
    apply GetComponent_Ok in E' as (Hi & <- & _).
    apply list_elem_of_fmap. exists c'. split; [done|].
    by eapply list_elem_of_lookup_2.
Qed.

Lemma cyclic_ext d d' :
  (forall y, lookupDeps d' y = lookupDeps d y) -> cyclic d' -> cyclic d.
Proof.
  intros Hext [x Hx]. exists x. eapply tc_subrel; [|done].
  intros a b. unfold edge, depsOf. specialize (Hext a). unfold lookupDeps in Hext.
  destruct (GetComponent d' a) as [[i c]|e], (GetComponent d a) as [[i' c']|e'];
    try done.
  by injection Hext as ->.
Qed.

Lemma wellFormed_calls clock tys d tick :
  wellFormed d -> wellFormed (fst (calls clock tys (d, tick))).
Proof.
  intros (Hnd & Hdef & Hacyc & Hset).
  destruct (calls_wellFormed clock tys d tick Hnd Hdef) as [Hnd' Hdef'].
  split; [done|]. split; [done|]. split.
  - intros Hc. apply Hacyc. eapply cyclic_ext; [|done].
    apply lookupDeps_calls.
  - clear -Hset. induction tys as [|ty tys IH] using rev_ind; [done|].
    rewrite calls_snoc. destruct (calls clock tys (d, tick)) as [d1 t1].
    by apply settled_call.
Qed.

(** X8.  The invariants of a graph in use are kept by the calls.  A graph
    whose components all have the initial state (Ready without
    dependencies, Blocked otherwise) is settled; and if a graph has
    unique ids, defined dependencies, no cycle and is settled, so it is
    after any sequence of [CompleteComponent] calls. *)
Theorem wellFormed_kept clock tys d tick :
  ((forall c, c ∈ components d -> State c = initialState (DependsOn c)) ->
   settled d) /\
  (wellFormed d -> wellFormed (fst (calls clock tys (d, tick)))).
Proof. split; [apply fresh_settled | apply wellFormed_calls]. Qed.

Lemma wellFormed_pizza now : wellFormed (mkDAG (pizzaComponents now)).
Proof.
  split; [|split; [|split]].
  - unfold uniqueIds. simpl. repeat (apply NoDup_cons; split; [set_solver|]).
    apply NoDup_nil_2.
  - intros c y Hc Hy. simpl in Hc. unfold pizzaComponents in Hc.
    repeat (apply elem_of_cons in Hc as [->|Hc];
            [simpl in *; set_solver|]).
    by apply elem_of_nil in Hc.
  - apply (proj1 (proj2 (NewDAG_verdict (pizzaComponents now) _ eq_refl))).
    reflexivity.
  - apply fresh_settled. intros c Hc. simpl in Hc. unfold pizzaComponents in Hc.
    repeat (apply elem_of_cons in Hc as [->|Hc]; [done|]).
    by apply elem_of_nil in Hc.
Qed.

Lemma wellFormed_kept_witness :
  wellFormed (fst (calls tickClock [ComponentPayment; ComponentDeliver]
                     (mkDAG (pizzaComponents 0%Z), 0))).
Proof.
  apply (proj2 (wellFormed_kept tickClock [ComponentPayment; ComponentDeliver]
                  (mkDAG (pizzaComponents 0%Z)) 0)).
  apply wellFormed_pizza.
Defined.

(** ** Completing what [GetNextComponent] returns *)

Lemma uniqueIds_slot cs i c :
  uniqueIds cs -> cs !! i = Some c -> GetComponent (mkDAG cs) (Type_ c) = Ok (i, c).
Proof.
  intros Hnd Hi.
  destruct (uniqueIds_GetComponent cs c Hnd (list_elem_of_lookup_2 _ _ _ Hi))
    as [j Hget].
  pose proof Hget as (Hj & _)%GetComponent_Ok. simpl in Hj.
  assert (i = j) as ->; [|done].
  apply (NoDup_lookup _ i j (Type_ c) Hnd); rewrite list_lookup_fmap.
  - by rewrite Hi.
  - by rewrite Hj.
Qed.

Lemma complete_next clock d tick i c :
  uniqueIds (components d) -> GetNextComponent d = Some (i, c) ->
  exists st', CompleteComponent clock (Type_ c) (d, tick) = (None, st') /\
    components (fst st') !! i =
      Some (mkComponent (Type_ c) StateCompleted (DependsOn c) (clock tick)
              (Some (clock tick))).
Proof.
  intros Hnd Hnext.
  apply nextComponent_Some in Hnext as (k & -> & Hk & Hs & _). simpl.
  destruct d as [cs]. simpl in *.
  pose proof (uniqueIds_slot cs k c Hnd Hk) as Hget.
  destruct (CompleteComponent clock (Type_ c) (mkDAG cs, tick)) as [err st'] eqn:E.
  assert (err = None) as ->.
  { unfold CompleteComponent in E. rewrite Hget in E.
    destruct (decide (State c = StateIncomplete)); [|done]. by injection E as <-. }
  exists st'. split; [done|]. destruct st' as [d' t'].
  apply CompleteComponent_marks in E as (i' & x & Hget' & _ & Hi').
  rewrite Hget in Hget'. by injection Hget' as <- <-.
Qed.

(** X9.  In a graph with unique ids, completing the type of the component
    that [GetNextComponent] returns always succeeds, and marks that very
    component Done. *)
Theorem GetNextComponent_completes clock d tick i c :
  uniqueIds (components d) -> GetNextComponent d = Some (i, c) ->
  exists st', CompleteComponent clock (Type_ c) (d, tick) = (None, st') /\
    components (fst st') !! i =
      Some (mkComponent (Type_ c) StateCompleted (DependsOn c) (clock tick)
              (Some (clock tick))).
Proof. apply complete_next. Qed.

Lemma GetNextComponent_completes_witness :
  exists st', CompleteComponent tickClock "A" (twoSteps, 0) = (None, st') /\
    components (fst st') !! 0 =
      Some (mkComponent "A" StateCompleted [] 0%Z (Some 0%Z)).
Proof.
  apply (GetNextComponent_completes tickClock twoSteps 0 0
           (mkComponent "A" StateIncomplete [] 0%Z None)).
  - unfold uniqueIds. simpl. apply NoDup_cons. split; [set_solver|].
    apply NoDup_singleton.
  - reflexivity.
Defined.

(** ** Finishing a graph *)

Lemma allCompleted_countDone d :
  AllComponentsCompleted d = true <-> countDone d = length (components d).
Proof.
  unfold AllComponentsCompleted, countDone.
  induction (components d) as [|a cs IH]; simpl; [done|].
  rewrite filter_cons. destruct (decide (State a = StateCompleted)); simpl.
  - rewrite IH. lia.
  - split; [done|]. pose proof (length_filter (fun c => State c = StateCompleted) cs).
    lia.
Qed.

Lemma calls_cons clock ty tys st :
  calls clock (ty :: tys) st =
  calls clock tys (snd (CompleteComponent clock ty st)).
Proof. done. Qed.

Lemma finishing_calls clock n d tick :
  wellFormed d -> length (components d) - countDone d = n ->
  exists tys, length tys = n /\
    AllComponentsCompleted (fst (calls clock tys (d, tick))) = true.
Proof.
  revert d tick. induction n as [|n IH]; intros d tick Hwf Hn.
  - exists []. split; [done|]. simpl. apply allCompleted_countDone.
    pose proof (length_filter (fun c => State c = StateCompleted) (components d)).
    unfold countDone in *. lia.
  - pose proof Hwf as (Hnd & Hdef & Hacyc & Hset).
    destruct (AllComponentsCompleted d) eqn:Hall.
    { apply allCompleted_countDone in Hall. lia. }
    destruct (progress d Hset Hdef Hacyc Hall) as [[i c] Hnext].
    destruct (complete_next clock d tick i c Hnd Hnext) as ([d' t'] & Hcall & _).
    pose proof (countDone_call clock (Type_ c) d tick) as Hcount.
    pose proof (wellFormed_calls clock [Type_ c] d tick Hwf) as Hwf'.
    pose proof (proj1 (calls_frozen clock [Type_ c] d tick)) as Hlen.
    change (calls clock [Type_ c] (d, tick))
      with (snd (CompleteComponent clock (Type_ c) (d, tick))) in Hwf', Hlen.
    rewrite Hcall in Hcount, Hwf', Hlen. cbn [fst snd] in *.
    destruct (IH d' t' Hwf') as (tys & Htys & Hdone); [lia|].
    exists (Type_ c :: tys). split; [simpl; lia|].
    by rewrite calls_cons, Hcall.
Qed.

(** X10.  A graph with unique ids, defined dependencies, no cycle and
    settled states can always be finished: some sequence of
    [CompleteComponent] calls, as long as the number of components that
    are not Done, ends with [AllComponentsCompleted] true; and no shorter
    sequence does. *)
Theorem finishing_sequence clock d tick :
  wellFormed d ->
  exists tys,
    length tys = length (components d) - countDone d /\
    AllComponentsCompleted (fst (calls clock tys (d, tick))) = true /\
    forall tys',
      AllComponentsCompleted (fst (calls clock tys' (d, tick))) = true ->
      length tys <= length tys'.
Proof.
  intros Hwf.
  destruct (finishing_calls clock _ d tick Hwf eq_refl) as (tys & Hlen & Hdone).
  exists tys. split; [done|]. split; [done|].
  intros tys' Hdone'. apply allCompleted_countDone in Hdone'.
  rewrite (proj1 (calls_frozen clock tys' d tick)) in Hdone'.
  pose proof (countDone_calls clock tys' d tick). lia.
Qed.

Lemma finishing_sequence_witness :
  exists tys,
    length tys = length (pizzaComponents 0%Z) -
                 countDone (mkDAG (pizzaComponents 0%Z)) /\
    AllComponentsCompleted
      (fst (calls tickClock tys (mkDAG (pizzaComponents 0%Z), 0))) = true /\
    forall tys',
      AllComponentsCompleted
        (fst (calls tickClock tys' (mkDAG (pizzaComponents 0%Z), 0))) = true ->
      length tys <= length tys'.
Proof.
  apply (finishing_sequence tickClock (mkDAG (pizzaComponents 0%Z)) 0).
  apply wellFormed_pizza.
Defined.

(** ** The exact verdict of [NewDAG] *)

Lemma occ_cons z w l :
  occ z (w :: l) = (if decide (w = z) then 1 else 0) + occ z l.
Proof.
  unfold occ. rewrite filter_cons. by destruct (decide (w = z)).
Qed.

Lemma occ_app z l k : occ z (l ++ k) = occ z l + occ z k.
Proof. unfold occ. by rewrite filter_app, length_app. Qed.

Lemma pending_all_visited z F V :
  (forall c, c ∈ F -> Type_ c ∈ V) -> pending z F V = 0.
Proof.
  unfold pending. induction F as [|a F IH]; intros H; simpl; [done|].
  destruct (decide (Type_ a ∈ V)) as [|Ha].
  - apply IH. intros c Hc. apply H. by right.
  - destruct Ha. apply H. by left.
Qed.

Lemma pending_mark_other z F V x :
  (forall c, c ∈ F -> Type_ c <> x) ->
  pending z F ({[x]} ∪ V) = pending z F V.
Proof.
  unfold pending. induction F as [|a F IH]; intros H; simpl; [done|].
  rewrite IH by (intros c Hc; apply H; by right).
  assert (Type_ a <> x) by (apply H; by left).
  destruct (decide (Type_ a ∈ {[x]} ∪ V)), (decide (Type_ a ∈ V));
    try done; set_solver.
Qed.

Lemma pending_mark z F V c0 :
  NoDup (map Type_ F) -> c0 ∈ F -> Type_ c0 ∉ V ->
  pending z F V = occ z (DependsOn c0) + pending z F ({[Type_ c0]} ∪ V).
Proof.
  unfold pending. induction F as [|a F IH]; simpl.
  - intros _ H. by apply elem_of_nil in H.
  - intros [Ha Hnd]%NoDup_cons [->|Hc0]%elem_of_cons HV.
    + fold (pending z F ({[Type_ a]} ∪ V)). fold (pending z F V).
      rewrite pending_mark_other.
      * destruct (decide (Type_ a ∈ V)); [done|].
        destruct (decide (Type_ a ∈ {[Type_ a]} ∪ V)); [lia | set_solver].
      * intros c Hc Heq. apply Ha. rewrite <- Heq.
        apply list_elem_of_fmap. by exists c.
    + rewrite (IH Hnd Hc0 HV).
      assert (Type_ a <> Type_ c0).
      { intros Heq. apply Ha. rewrite Heq. apply list_elem_of_fmap. by exists c0. }
      destruct (decide (Type_ a ∈ V)),
               (decide (Type_ a ∈ {[Type_ c0]} ∪ V)); try lia; set_solver.
Qed.

Lemma pending_empty z F :
  pending z F ∅ = occ z (concat (map DependsOn F)).
Proof.
  unfold pending. induction F as [|a F IH]; simpl; [done|].
  rewrite occ_app, IH. destruct (decide (Type_ a ∈ (∅ : gset ComponentType)));
    [set_solver | done].
Qed.

Lemma firstDefs_sub cs c : c ∈ firstDefs cs -> c ∈ cs.
Proof. by intros [? _]%firstDefsFrom_types. Qed.

Lemma firstDef_in d x i c0 :
  GetComponent d x = Ok (i, c0) -> c0 ∈ firstDefs (components d).
Proof.
  unfold GetComponent, firstDefs.
  pose proof (findComponent_firstDefsFrom ∅ x (components d) 0 0
                ltac:(set_solver)) as H.
  destruct (findComponent x (components d) 0) as [[j c]|] eqn:E; [|done].
  intros [= <- <-].
  destruct (findComponent x (firstDefsFrom ∅ (components d)) 0)
    as [[k c']|] eqn:E'; [|done].
  simpl in H. injection H as ->.
  apply findComponent_Some in E' as (k' & _ & Hk & _).
  by eapply list_elem_of_lookup_2.
Qed.

Lemma credit_mark_known z d m x i c0 :
  ~ known d z -> GetComponent d x = Ok (i, c0) -> x ∉ visited m ->
  credit z d (mkMarks ({[x]} ∪ visited m) ({[x]} ∪ recStack m)) +
    occ z (DependsOn c0) = credit z d m.
Proof.
  intros Hz Hget Hx. unfold credit. simpl.
  pose proof Hget as (_ & Hty & _)%GetComponent_Ok.
  assert (Hzx : z <> x).
  { intros ->. apply Hz, known_GetComponent. by exists i, c0. }
  rewrite (pending_mark z _ (visited m) c0);
    [|apply firstDefsFrom_uniqueIds | by eapply firstDef_in | by rewrite Hty].
  rewrite Hty.
  destruct (decide (z ∈ {[x]} ∪ visited m)), (decide (z ∈ visited m));
    try lia; set_solver.
Qed.

Lemma credit_mark_unknown z d m x :
  ~ known d x -> x ∉ visited m ->
  credit z d (mkMarks ({[x]} ∪ visited m) ({[x]} ∪ recStack m)) =
  credit z d m + (if decide (x = z) then 1 else 0).
Proof.
  intros Hx Hv. unfold credit. simpl. rewrite pending_mark_other.
  - destruct (decide (x = z)) as [->|Hxz].
    + destruct (decide (z ∈ {[z]} ∪ visited m)), (decide (z ∈ visited m));
        try lia; set_solver.
    + destruct (decide (z ∈ {[x]} ∪ visited m)), (decide (z ∈ visited m));
        try lia; set_solver.
  - intros c Hc%firstDefs_sub Heq. apply Hx. unfold known. rewrite <- Heq.
    apply list_elem_of_fmap. by exists c.
Qed.

Lemma stuck_push d x m :
  stuck d m -> stuck d (mkMarks ({[x]} ∪ visited m) ({[x]} ∪ recStack m)).
Proof.
  intros Hst u Hu Hv. simpl in *.
  apply elem_of_union in Hv as [Hv|Hv]; [set_solver|].
  apply elem_of_union_r. by apply Hst.
Qed.

(** The loop over the dependencies of a defined id [x], for any recursive
    call that meets [hasCyclePost] and [hasCycleExact]. *)
Lemma hasCycleDeps_exact d rec x deps m b m' :
  known d x ->
  (forall w mw bw mw', w ∉ visited mw -> rec w mw = Some (bw, mw') ->
     hasCyclePost d w mw bw mw') ->
  (forall w mw bw mw', w ∉ visited mw -> stuck d mw ->
     rec w mw = Some (bw, mw') -> hasCycleExact d w mw bw mw') ->
  stuck d m ->
  hasCycleDeps rec x deps m = Some (b, m') ->
  (b = false ->
     stuck d m' /\
     forall z, ~ known d z -> credit z d m' = credit z d m + occ z deps) /\
  (b = true ->
     (forall w, w ∈ deps -> edge d x w) -> greyReach d m x ->
     (forall z, ~ known d z -> credit z d m + occ z deps <= 1) -> cyclic d).
Proof.
  intros Hkx Hpost Hexact. revert m.
  induction deps as [|w deps IH]; intros m Hst; simpl.
  - intros [= <- <-]. split; [|done]. intros _. split.
    + intros u Hu Hv. simpl in *. apply elem_of_difference. split; [by apply Hst|].
      intros ->%elem_of_singleton. done.
    + intros z Hz. unfold credit, occ. simpl. lia.
  - destruct (decide (w ∈ visited m)) as [Hv|Hv].
    + destruct (decide (w ∈ recStack m)) as [Hr|Hr].
      * intros [= <- <-]. split; [done|]. intros _ Hedge Hgrey Hbudget.
        destruct (decide (w ∈ map Type_ (components d))) as [Hkw|Hkw].
        -- exists w. apply tc_rtc_l with x; [by apply Hgrey|].
           apply tc_once, Hedge. by left.
        -- exfalso. specialize (Hbudget w Hkw). rewrite occ_cons in Hbudget.
           unfold credit in Hbudget.
           destruct (decide (w ∈ visited m)); [|done].
           destruct (decide (w = w)); [lia | done].
      * intros H. destruct (IH m Hst H) as [Hf Ht]. split.
        -- intros Hb. destruct (Hf Hb) as [Hst' Hcr]. split; [done|].
           intros z Hz. rewrite (Hcr z Hz), occ_cons.
           destruct (decide (w = z)) as [->|]; [|lia].
           exfalso. by apply Hr, Hst.
        -- intros Hb Hedge Hgrey Hbudget. apply Ht; [done| |done|].
           ++ intros w' Hw'. apply Hedge. by right.
           ++ intros z Hz. specialize (Hbudget z Hz). rewrite occ_cons in Hbudget.
              lia.
    + destruct (rec w m) as [[[] m1]|] eqn:Erec; [| |done].
      * intros [= <- <-]. split; [done|]. intros _ Hedge Hgrey Hbudget.
        destruct (Hexact w m true m1 Hv Hst Erec) as [_ Ht].
        destruct (Ht eq_refl) as [Hkw Hcyc]. apply Hcyc.
        -- intros y Hy Hky. eapply rtc_r; [by apply Hgrey|]. apply Hedge. by left.
        -- intros z Hz. specialize (Hbudget z Hz). lia.
      * intros H.
        destruct (Hexact w m false m1 Hv Hst Erec) as [Hfw _].
        destruct (Hfw eq_refl) as [Hst1 Hcr1].
        destruct (Hpost w m false m1 Hv Erec) as (_ & Hpw & _).
        destruct (Hpw eq_refl) as (Hstack_w & _ & _).
        destruct (IH m1 Hst1 H) as [Hf Ht]. split.
        -- intros Hb. destruct (Hf Hb) as [Hst' Hcr]. split; [done|].
           intros z Hz. rewrite (Hcr z Hz), (Hcr1 z Hz), occ_cons. lia.
        -- intros Hb Hedge Hgrey Hbudget. apply Ht; [done| | |].
           ++ intros w' Hw'. apply Hedge. by right.
           ++ intros y Hy Hky. destruct (Hstack_w y Hy) as [Hy0|Hy0];
                [by apply Hgrey | done].
           ++ intros z Hz. specialize (Hbudget z Hz).
              rewrite occ_cons in Hbudget. rewrite (Hcr1 z Hz). lia.
Qed.

Lemma hasCycle_exact fuel d x m b m' :
  x ∉ visited m -> stuck d m ->
  hasCycle fuel d x m = Some (b, m') -> hasCycleExact d x m b m'.
Proof.
  revert x m b m'. induction fuel as [|fuel IH]; intros x m b m' Hx Hst; [done|].
  simpl. destruct (GetComponent d x) as [[i c]|e] eqn:E.
  - intros H.
    assert (Hkx : known d x) by (apply known_GetComponent; by exists i, c).
    assert (Hdeps : depsOf d x = DependsOn c) by (unfold depsOf; by rewrite E).
    apply (hasCycleDeps_exact d _ _ _ _ _ _ Hkx) in H as [Hf Ht].
    + split.
      * intros Hb. destruct (Hf Hb) as [Hst' Hcr]. split; [done|].
        intros z Hz. rewrite (Hcr z Hz).
        rewrite (credit_mark_known z d m x i c Hz E Hx).
        destruct (decide (x = z)) as [->|]; [done | lia].
      * intros Hb. split; [done|]. intros Hgrey Hbudget. apply Ht; [done| | |].
        -- intros w Hw. unfold edge. by rewrite Hdeps.
        -- intros y Hy Hky. simpl in Hy.
           apply elem_of_union in Hy as [->%elem_of_singleton|Hy]; [done|].
           by apply Hgrey.
        -- intros z Hz. rewrite (credit_mark_known z d m x i c Hz E Hx).
           by apply Hbudget.
    + intros w mw bw mw'. apply hasCycle_post.
    + exact IH.
    + by apply stuck_push.
  - intros [= <- <-]. apply GetComponent_Err in E as [_ E]. split; [|done].
    intros _. split; [by apply stuck_push|].
    intros z Hz. by apply credit_mark_unknown.
Qed.

Lemma validateLoop_exact fuel d cs m b :
  (forall c, c ∈ cs -> known d (Type_ c)) ->
  (forall y, y ∈ recStack m -> ~ known d y) -> stuck d m ->
  validateLoop fuel d cs m = Some b ->
  (b = false -> forall z, ~ known d z ->
     (forall c, c ∈ firstDefs (components d) ->
        Type_ c ∈ visited m \/ Type_ c ∈ map Type_ cs) ->
     credit z d m <= 1) /\
  (b = true -> (forall z, ~ known d z -> credit z d m <= 1) -> cyclic d).
Proof.
  revert m. induction cs as [|c cs IH]; intros m Hknown Hstack Hst; simpl.
  - intros [= <-]. split; [|done]. intros _ z Hz Hall. unfold credit.
    rewrite pending_all_visited.
    + destruct (decide (z ∈ visited m)); lia.
    + intros c Hc. destruct (Hall c Hc) as [?|H]; [done|].
      by apply elem_of_nil in H.
  - assert (Hknown' : forall c', c' ∈ cs -> known d (Type_ c')).
    { intros c' Hc'. apply Hknown. by right. }
    assert (Hkc : known d (Type_ c)) by (apply Hknown; by left).
    destruct (decide (Type_ c ∈ visited m)) as [Hv|Hv].
    + intros H. destruct (IH m Hknown' Hstack Hst H) as [Hf Ht].
      split; [|done]. intros Hb z Hz Hall. apply Hf; [done..|].
      intros c' Hc'. destruct (Hall c' Hc') as [?|[->|?]%elem_of_cons];
        [by left | by left | by right].
    + destruct (hasCycle fuel d (Type_ c) m) as [[[] m1]|] eqn:E; [| |done].
      * intros [= <-]. split; [done|]. intros _ Hbudget.
        apply hasCycle_exact in E as [_ Ht]; [|done..].
        destruct (Ht eq_refl) as [_ Hcyc]. apply Hcyc; [|done].
        intros y Hy Hky. by destruct (Hstack y Hy).
      * intros H.
        pose proof (hasCycle_post d _ _ _ _ _ Hv E) as (Hsub & Hpw & _).
        destruct (Hpw eq_refl) as (Hstack1 & _ & _).
        apply hasCycle_exact in E as [Hfe _]; [|done..].
        destruct (Hfe eq_refl) as [Hst1 Hcr].
        assert (Hstack' : forall y, y ∈ recStack m1 -> ~ known d y).
        { intros y Hy. destruct (Hstack1 y Hy) as [Hy0|Hy0]; [|done].
          by apply Hstack. }
        assert (Hsame : forall z, ~ known d z -> credit z d m1 = credit z d m).
        { intros z Hz. rewrite (Hcr z Hz).
          destruct (decide (Type_ c = z)) as [<-|]; [done | lia]. }
        destruct (IH m1 Hknown' Hstack' Hst1 H) as [Hf Ht]. split.
        -- intros Hb z Hz Hall. rewrite <- (Hsame z Hz). apply Hf; [done..|].
           intros c' Hc'. destruct (Hall c' Hc') as [?|[->|?]%elem_of_cons];
             [left; set_solver | left; set_solver | by right].
        -- intros Hb Hbudget. apply Ht; [done|].
           intros z Hz. rewrite (Hsame z Hz). by apply Hbudget.
Qed.

Lemma validateLoop_verdict_exact cs b :
  validateLoop (S (size (universe cs))) (mkDAG cs) cs (mkMarks ∅ ∅) = Some b ->
  (b = false <-> ~ cyclic (mkDAG cs) /\ undefinedOnce cs).
Proof.
  intros Hb.
  assert (Hcredit : forall z, credit z (mkDAG cs) (mkMarks ∅ ∅) =
                              occ z (concat (map DependsOn (firstDefs cs)))).
  { intros z. unfold credit. simpl. rewrite pending_empty.
    destruct (decide (z ∈ (∅ : gset ComponentType))); [set_solver | done]. }
  pose proof (validateLoop_post (mkDAG cs) (S (size (universe cs))) cs
                (mkMarks ∅ ∅) b) as Hpost.
  pose proof (validateLoop_exact (S (size (universe cs))) (mkDAG cs) cs
                (mkMarks ∅ ∅) b) as Hexact.
  assert (Hk : forall c, c ∈ cs -> known (mkDAG cs) (Type_ c)).
  { intros c Hc. unfold known. apply list_elem_of_fmap. by exists c. }
  assert (He : forall y, y ∈ recStack (mkMarks ∅ ∅) -> ~ known (mkDAG cs) y).
  { intros y Hy. simpl in Hy. set_solver. }
  assert (Hs : stuck (mkDAG cs) (mkMarks ∅ ∅)).
  { intros u _ Hu. simpl in Hu. set_solver. }
  destruct (Hpost Hk He Hb) as [Hsafe _].
  destruct (Hexact Hk He Hs Hb) as [Hf Ht]. split.
  - intros ->. split.
    + intros [x Hx].
      assert (Hkx : known (mkDAG cs) x).
      { apply tc_inv_l in Hx as (w & Hw & _). by apply (edge_known _ x w). }
      unfold known in Hkx. apply list_elem_of_fmap in Hkx as (c & -> & Hc).
      apply (Hsafe eq_refl) in Hc.
      * by apply (Hc (Type_ c)).
      * intros y Hy. simpl in Hy. set_solver.
    + intros z Hz. rewrite <- Hcredit. apply Hf; [done..|].
      intros c Hc%firstDefs_sub. right. apply list_elem_of_fmap. by exists c.
  - intros [Hacyc Honce]. destruct b; [|done].
    destruct Hacyc. apply Ht; [done|]. intros z Hz. rewrite Hcredit.
    by apply Honce.
Qed.

(** X11.  The exact verdict of [NewDAG].  A definition list is accepted
    if and only if the relation the code reads has no cycle and no id
    without a definition is referenced twice by the first definitions;
    every other list is rejected with the cycle error. *)
Theorem NewDAG_exact cs :
  (NewDAG cs = Some (Ok (mkDAG cs)) <->
     ~ cyclic (mkDAG cs) /\ undefinedOnce cs) /\
  (NewDAG cs = Some (Err ErrCycleDetected) <->
     ~ (~ cyclic (mkDAG cs) /\ undefinedOnce cs)).
Proof.
  unfold NewDAG, NewDAG_fuel, validateNoCycles. simpl.
  destruct (validateLoop_total (S (size (universe cs))) (mkDAG cs) cs
              (mkMarks ∅ ∅)) as [b Hb]; [done | simpl; lia |].
  rewrite Hb. apply validateLoop_verdict_exact in Hb.
  destruct b; split; split; try done.
  - intros [= <-]%Hb. 
  - intros _ H%Hb. done.
  - intros _. by apply Hb.
  - intros H. destruct H. by apply Hb.
Qed.

(** ** The pizza order is completed in its declared order *)

Lemma pizzaAt_call clock ty k d tick :
  pizzaAt k d ->
  (pizzaTypes !! k = Some ty /\
   fst (CompleteComponent clock ty (d, tick)) = None /\
   pizzaAt (S k) (fst (snd (CompleteComponent clock ty (d, tick))))) \/
  (pizzaTypes !! k <> Some ty /\
   fst (CompleteComponent clock ty (d, tick)) <> None /\
   snd (CompleteComponent clock ty (d, tick)) = (d, tick)).
Proof.
  intros (Hk & Hty & Hdeps & Hst). destruct d as [cs]. simpl in *.
  destruct cs as [|[t0 s0 d0 u0 e0] [|[t1 s1 d1 u1 e1] [|[t2 s2 d2 u2 e2]
    [|[t3 s3 d3 u3 e3] [|[t4 s4 d4 u4 e4] [|? ?]]]]]]; try discriminate Hty.
  simpl in Hty, Hdeps, Hst.
  injection Hty as -> -> -> -> ->. injection Hdeps as -> -> -> -> ->.
  destruct (decide (ty ∈ pizzaTypes)) as [Hin|Hout].
  - unfold pizzaTypes in Hin.
    do 6 (destruct k as [|k]; [injection Hst as -> -> -> -> ->;
      repeat (apply elem_of_cons in Hin as [->|Hin];
              [first [ left; repeat split; try reflexivity; simpl; lia
                     | right; repeat split; try discriminate; reflexivity ]|]);
      by apply elem_of_nil in Hin|]).
    lia.
  - right.
    assert (Herr : GetComponent
              (mkDAG [mkComponent ComponentPayment s0 [] u0 e0;
                      mkComponent ComponentMakeDough s1 [ComponentPayment] u1 e1;
                      mkComponent ComponentAddToppings s2 [ComponentMakeDough] u2 e2;
                      mkComponent ComponentBakePizza s3 [ComponentAddToppings] u3 e3;
                      mkComponent ComponentDeliver s4 [ComponentBakePizza] u4 e4])
              ty = Err (ErrNotFound ty)).
    { apply GetComponent_Err. split; [done|]. exact Hout. }
    unfold CompleteComponent. rewrite Herr. simpl. split; [|done].
    intros Hnth. apply Hout. by eapply list_elem_of_lookup_2.
Qed.

Lemma pizzaAt_calls clock tys d tick k :
  pizzaAt k d -> exists k', k <= k' /\ pizzaAt k' (fst (calls clock tys (d, tick))).
Proof.
  intros Hd. induction tys as [|ty tys IH] using rev_ind; [by exists k|].
  destruct IH as (k1 & Hle & H1). rewrite calls_snoc.
  destruct (calls clock tys (d, tick)) as [d1 t1]. cbn [fst] in H1.
  destruct (pizzaAt_call clock ty k1 d1 t1 H1) as [(_ & _ & H2)|(_ & _ & H2)].
  - exists (S k1). split; [lia | done].
  - exists k1. split; [done|]. by rewrite H2.
Qed.

Lemma pizzaAt_initial now : pizzaAt 0 (mkDAG (pizzaComponents now)).
Proof. by repeat split; try lia. Qed.

(** X12.  The graph of [NewPizzaOrderDAG] can only be completed in its
    declared order.  After any sequence of [CompleteComponent] calls its
    first [k] steps are Done, the next one is Ready and the later ones are
    Blocked, for some [k]; and a further [CompleteComponent] succeeds
    exactly for the type of step [k] (for none once all five are Done). *)
Theorem pizza_pipeline clock now tick tys :
  exists k, k <= 5 /\
    map State (components (fst (calls clock tys
                                   (mkDAG (pizzaComponents now), tick)))) =
      pizzaStates k /\
    forall ty,
      fst (CompleteComponent clock ty
             (calls clock tys (mkDAG (pizzaComponents now), tick))) = None <->
      pizzaTypes !! k = Some ty.
Proof.
  destruct (pizzaAt_calls clock tys _ tick 0 (pizzaAt_initial now))
    as (k & _ & Hk).
  exists k. destruct Hk as (Hle & Hty & Hdeps & Hst) eqn:E. clear E.
  split; [done|]. split; [done|]. intros ty.
  destruct (calls clock tys (mkDAG (pizzaComponents now), tick)) as [d1 t1].
  destruct (pizzaAt_call clock ty k d1 t1) as [(? & ? & _)|(? & ? & _)];
    [by repeat split | done | done].
Qed.

(** ** Completing two Ready components in either order *)

Lemma findComponent_grow ty cs cs' i :
  Forall2 (fun c c' => Type_ c' = Type_ c /\
             (State c = StateCompleted -> State c' = StateCompleted)) cs cs' ->
  match findComponent ty cs i, findComponent ty cs' i with
  | Some (_, c), Some (_, c') =>
      State c = StateCompleted -> State c' = StateCompleted
  | None, None => True
  | _, _ => False
  end.
Proof.
  intros H. revert i. induction H as [|c c' cs cs' [Hty Hst] _ IH]; intros i; simpl.
  - done.
  - rewrite Hty. destruct (decide (Type_ c = ty)); [done | apply IH].
Qed.

(** More Done components can only make more dependency lists complete. *)
Lemma allDepsComplete_grow d d' deps :
  Forall2 (fun c c' => Type_ c' = Type_ c /\
             (State c = StateCompleted -> State c' = StateCompleted))
    (components d) (components d') ->
  allDepsComplete d deps = true -> allDepsComplete d' deps = true.
Proof.
  intros H. induction deps as [|y deps IH]; simpl; [done|].
  unfold GetComponent. pose proof (findComponent_grow y _ _ 0 H) as Hf.
  destruct (findComponent y (components d) 0) as [[j c]|],
           (findComponent y (components d') 0) as [[j' c']|]; try done.
  destruct (decide (State c = StateCompleted)) as [Hc|]; [|done].
  rewrite decide_True by (by apply Hf). done.
Qed.

(** The states after a successful call, read off the graph it leaves. *)
Lemma call_exact clock ty d tick d' tick' i x :
  CompleteComponent clock ty (d, tick) = (None, (d', tick')) ->
  GetComponent d ty = Ok (i, x) ->
  forall k c, components d !! k = Some c ->
    exists c', components d' !! k = Some c' /\
      Type_ c' = Type_ c /\ DependsOn c' = DependsOn c /\
      (State c' = StateCompleted <-> k = i \/ State c = StateCompleted) /\
      (State c = StateNeedsInit ->
         State c' = if allDepsComplete d' (DependsOn c) then StateIncomplete
                    else StateNeedsInit) /\
      (State c <> StateNeedsInit -> k <> i -> State c' = State c).
Proof.
  intros (i' & x' & Hget & Hx & Hst)%CompleteComponent_None Hget'.
  rewrite Hget' in Hget. injection Hget as <- <-.
  pose proof Hget' as (Hi & _)%GetComponent_Ok.
  symmetry in Hst. unfold updateDependentComponents in Hst. simpl fst in Hst.
  pose proof (scan_agree _ _ _ _ _ _ Hst) as Hagree.
  apply scan_spec in Hst as (_ & _ & Hall).
  intros k c Hk. destruct (decide (k = i)) as [->|Hki].
  - rewrite Hi in Hk. injection Hk as <-.
    destruct (Hall i (mkComponent (Type_ x) StateCompleted (DependsOn x)
                        (clock tick) (Some (clock tick)))) as (c' & Hc' & Hsc).
    { apply list_lookup_insert_eq. by eapply lookup_lt_Some. }
    destruct Hsc as [(Hs & _)|[_ ->]]; [done|].
    eexists. split; [done|]. split; [done|]. split; [done|].
    split; [by split; [left|]|]. split; [|done].
    intros Hni. rewrite Hx in Hni. done.
  - destruct (Hall k c) as (c' & Hc' & Hsc).
    { simpl. by rewrite list_lookup_insert_ne. }
    exists c'. split; [done|].
    destruct Hsc as [(Hs & Hd & _ & n & _ & ->)|[Hn ->]]; simpl.
    + split; [done|]. split; [done|]. split.
      * rewrite Hs. split; [done | by intros [?|?]].
      * split; [|done]. intros _.
        by rewrite (allDepsComplete_agree _ d' _ Hagree), Hd.
    + split; [done|]. split; [done|]. split; [by split; [right | intros [?|?]]|].
      split; [|done]. intros Hs.
      destruct (allDepsComplete d' (DependsOn c)) eqn:Hd; [|done].
      exfalso. apply Hn. split; [done|]. split.
      * by rewrite <- (allDepsComplete_agree _ d' _ Hagree).
      * apply elem_of_seq. apply lookup_lt_Some in Hk. simpl.
        rewrite length_insert. lia.
Qed.

(** Two successful calls in a row, on the slots [i] and [j]. *)
Lemma two_calls_exact clock a b d tick i j x y :
  GetComponent d a = Ok (i, x) -> GetComponent d b = Ok (j, y) -> i <> j ->
  State x = StateIncomplete -> State y = StateIncomplete ->
  exists d1 t1 d2 t2,
    CompleteComponent clock a (d, tick) = (None, (d1, t1)) /\
    CompleteComponent clock b (d1, t1) = (None, (d2, t2)) /\
    length (components d2) = length (components d) /\
    forall k c, components d !! k = Some c ->
      exists c2, components d2 !! k = Some c2 /\
        Type_ c2 = Type_ c /\
        (State c2 = StateCompleted <-> k = i \/ k = j \/ State c = StateCompleted) /\
        State c2 =
          if decide (k = i \/ k = j) then StateCompleted
          else if decide (State c = StateNeedsInit) then
                 if allDepsComplete d2 (DependsOn c) then StateIncomplete
                 else StateNeedsInit
               else State c.
Proof.
  intros Hga Hgb Hij Hx Hy.
  destruct (CompleteComponent clock a (d, tick)) as [e1 [d1 t1]] eqn:E1.
  assert (e1 = None) as ->.
  { unfold CompleteComponent in E1. rewrite Hga in E1.
    rewrite decide_True in E1 by done. by injection E1 as <-. }
  pose proof (call_exact _ _ _ _ _ _ _ _ E1 Hga) as Hall1.
  pose proof (call_types clock a d tick) as Hty1. rewrite E1 in Hty1.
  cbn [fst snd] in Hty1.
  destruct (GetComponent_same_types d d1 b j y Hty1 Hgb) as (y1 & Hgb1 & Hj1).
  pose proof Hgb as (Hj & _)%GetComponent_Ok.
  destruct (Hall1 j y Hj) as (y1' & Hj1' & _ & _ & _ & _ & Hkeep).
  rewrite Hj1 in Hj1'. injection Hj1' as <-.
  assert (Hy1 : State y1 = StateIncomplete).
  { rewrite Hkeep; [done | by rewrite Hy | done]. }
  destruct (CompleteComponent clock b (d1, t1)) as [e2 [d2 t2]] eqn:E2.
  assert (e2 = None) as ->.
  { unfold CompleteComponent in E2. rewrite Hgb1 in E2.
    rewrite decide_True in E2 by done. by injection E2 as <-. }
  pose proof (call_exact _ _ _ _ _ _ _ _ E2 Hgb1) as Hall2.
  exists d1, t1, d2, t2. split; [done|]. split; [done|]. split.
  { apply CompleteComponent_slot in E1 as (_ & <- & _).
    by apply CompleteComponent_slot in E2 as (_ & <- & _). }
  assert (Hgrow : Forall2 (fun c c' => Type_ c' = Type_ c /\
             (State c = StateCompleted -> State c' = StateCompleted))
             (components d1) (components d2)).
  { apply Forall2_same_length_lookup. split.
    - by apply CompleteComponent_slot in E2 as (_ & <- & _).
    - intros k c1 c2 Hk1 Hk2.
      destruct (Hall2 k c1 Hk1) as (c2' & Hk2' & Hty & _ & Hdone & _).
      rewrite Hk2 in Hk2'. injection Hk2' as <-. split; [done|].
      intros Hc. apply Hdone. by right. }
  intros k c Hk.
  destruct (Hall1 k c Hk) as (c1 & Hk1 & Hty1' & Hdeps1 & Hdone1 & Hni1 & Hkeep1).
  destruct (Hall2 k c1 Hk1) as (c2 & Hk2 & Hty2 & Hdeps2 & Hdone2 & Hni2 & Hkeep2).
  exists c2. split; [done|]. split; [congruence|].
  assert (Hdone : State c2 = StateCompleted <->
                  k = i \/ k = j \/ State c = StateCompleted).
  { rewrite Hdone2, Hdone1. tauto. }
  split; [done|].
  destruct (decide (k = i \/ k = j)) as [Hk'|Hk'].
  { apply Hdone. tauto. }
  assert (k <> i /\ k <> j) as [Hki Hkj] by tauto.
  destruct (decide (State c = StateNeedsInit)) as [Hs|Hs].
  - specialize (Hni1 Hs). rewrite <- Hdeps1.
    destruct (allDepsComplete d1 (DependsOn c)) eqn:Hd1.
    + rewrite Hkeep2, Hni1; [|by rewrite Hni1 | done].
      rewrite <- Hdeps1 in Hd1.
      by rewrite (allDepsComplete_grow d1 d2 _ Hgrow Hd1).
    + by apply Hni2.
  - rewrite Hkeep2, Hkeep1; [done..| |done]. by rewrite Hkeep1.
Qed.

(** X13.  Completing two different Ready components commutes: in either
    order both calls succeed, and the two final graphs have the same
    state in every slot (only the clock readings stamped differ). *)
Theorem complete_commute clock clock' a b d tick tick' i j x y :
  GetComponent d a = Ok (i, x) -> GetComponent d b = Ok (j, y) -> a <> b ->
  State x = StateIncomplete -> State y = StateIncomplete ->
  exists d1 t1 d2 t2 d1' t1' d2' t2',
    CompleteComponent clock a (d, tick) = (None, (d1, t1)) /\
    CompleteComponent clock b (d1, t1) = (None, (d2, t2)) /\
    CompleteComponent clock' b (d, tick') = (None, (d1', t1')) /\
    CompleteComponent clock' a (d1', t1') = (None, (d2', t2')) /\
    map State (components d2) = map State (components d2').
Proof.
  intros Hga Hgb Hab Hx Hy.
  assert (Hij : i <> j).
  { intros ->. apply GetComponent_Ok in Hga as (Hi & Ha & _).
    apply GetComponent_Ok in Hgb as (Hj & Hb & _). congruence. }
  destruct (two_calls_exact clock a b d tick i j x y Hga Hgb Hij Hx Hy)
    as (d1 & t1 & d2 & t2 & E1 & E2 & Hlen & Hall).
  destruct (two_calls_exact clock' b a d tick' j i y x Hgb Hga
              (not_eq_sym Hij) Hy Hx)
    as (d1' & t1' & d2' & t2' & E1' & E2' & Hlen' & Hall').
  exists d1, t1, d2, t2, d1', t1', d2', t2'. repeat (split; [done|]).
  assert (Hagree : Forall2 agree (components d2') (components d2)).
  { apply Forall2_same_length_lookup. split; [congruence|].
    intros k c2' c2 Hk' Hk.
    assert (is_Some (components d !! k)) as [c Hc].
    { apply lookup_lt_is_Some. rewrite <- Hlen. by eapply lookup_lt_Some. }
    destruct (Hall k c Hc) as (c2a & Hka & Hty & Hdone & _).
    destruct (Hall' k c Hc) as (c2b & Hkb & Hty' & Hdone' & _).
    rewrite Hk in Hka. injection Hka as <-.
    rewrite Hk' in Hkb. injection Hkb as <-.
    split; [congruence|]. rewrite Hdone, Hdone'. tauto. }
  apply list_eq_same_length with (length (components d));
    [by rewrite length_map | by rewrite length_map |].
  intros k s2 s2' Hlt. rewrite !list_lookup_fmap.
  destruct (lookup_lt_is_Some_2 (components d) k Hlt) as [c Hc].
  destruct (Hall k c Hc) as (c2 & -> & _ & _ & Hs).
  destruct (Hall' k c Hc) as (c2' & -> & _ & _ & Hs'). simpl.
  intros [= <-] [= <-]. rewrite Hs, Hs'.
  rewrite (allDepsComplete_agree d2' d2 _ Hagree).
  destruct (decide (k = i \/ k = j)), (decide (k = j \/ k = i)); try done; tauto.
Qed.

Lemma complete_commute_witness :
  exists d1 t1 d2 t2 d1' t1' d2' t2',
    CompleteComponent tickClock "A" (twoReady, 0) = (None, (d1, t1)) /\
    CompleteComponent tickClock "B" (d1, t1) = (None, (d2, t2)) /\
    CompleteComponent tickClock "B" (twoReady, 0) = (None, (d1', t1')) /\
    CompleteComponent tickClock "A" (d1', t1') = (None, (d2', t2')) /\
    map State (components d2) = map State (components d2').
Proof.
  apply (complete_commute tickClock tickClock "A" "B" twoReady 0 0 0 1
           (mkComponent "A" StateIncomplete [] 0%Z None)
           (mkComponent "B" StateIncomplete [] 0%Z None)).
  - reflexivity.
  - reflexivity.
  - discriminate.
  - reflexivity.
  - reflexivity.
Defined.

(** * The order and the workflow *)

(** ** Clone and IsDone *)

Lemma Clone_components d : Clone d = d.
Proof.
  destruct d as [cs]. unfold Clone. simpl. f_equal.
  induction cs as [|[] cs IH]; simpl; [done|]. by rewrite IH.
Qed.

(** X14.  [Clone] copies everything: the clone of a graph has the same
    components, field by field and in the same order, and the clone of an
    order has every field of the original, a nil graph and a nil
    EstimatedArrival staying nil; so [IsDone] answers the same on both.
    [IsDone] is true exactly for an order with a graph all of whose
    components are Done. *)
Theorem Clone_equal :
  (forall d, Clone d = d) /\
  (forall po, Order.Clone po = po) /\
  (forall po, Order.IsDone (Order.Clone po) = Order.IsDone po) /\
  (forall po, Order.IsDone po = true <->
     exists d, Order.DAG po = Some d /\
       forall c, c ∈ components d -> State c = StateCompleted).
Proof.
  assert (Hpo : forall po, Order.Clone po = po).
  { intros [? ? ? ? ? ? dg ? ? ? ? ? ? ? ea]. unfold Order.Clone. simpl.
    destruct dg as [d|], ea; simpl; by rewrite ?Clone_components. }
  split; [apply Clone_components|]. split; [done|].
  split; [intros po; by rewrite Hpo|].
  intros po. unfold Order.IsDone. destruct (Order.DAG po) as [d|].
  - unfold AllComponentsCompleted. rewrite allCompleted_true. split.
    + intros H. by exists d.
    + intros (d' & [= <-] & H). done.
  - split; [done|]. by intros (d & ? & _).
Qed.

(** ** The update handlers *)

Lemma completeStep_fails clock ty wnow w e w' :
  Order.completeStep clock ty wnow w = Some (Some e, w') -> w' = w.
Proof.
  destruct w as [po tick]. unfold Order.completeStep.
  destruct (Order.DAG po) as [d|] eqn:Ed; [|done].
  destruct (CompleteComponent clock ty (d, tick)) as [[e0|] [d' t']] eqn:E;
    [|done].
  apply CompleteComponent_Some in E as [[= <- <-] _].
  intros [= <- <-]. destruct po. simpl in *. by rewrite Ed.
Qed.

(** X15.  A failed update is atomic only when its handler runs no
    activity.  A [MakeDough], [AddToppings] or [BakePizza] update that
    returns an error leaves the order exactly as it was.  A
    [CompletePayment] update whose payment activity returned, sent for an
    order whose Payment component is not Ready, returns the
    not-INCOMPLETE error and leaves the order with PaymentTxnID and
    PaymentAmount overwritten by the new payment, every other field and
    the graph as they were. *)
Theorem failed_update_effects clock wnow po tick :
  (forall u e w', u = Order.MakeDough \/ u = Order.AddToppings \/
                  u = Order.BakePizza ->
     Order.handle clock u wnow (po, tick) = Some (Some e, w') ->
     w' = (po, tick)) /\
  (forall d i c paymentResult,
     Order.DAG po = Some d -> GetComponent d ComponentPayment = Ok (i, c) ->
     State c <> StateIncomplete ->
     Order.handle clock (Order.CompletePayment (Order.Returned paymentResult))
       wnow (po, tick) =
     Some (Some (Order.DagError (ErrNotIncomplete ComponentPayment (State c))),
           (Order.mkPizzaOrder (Order.OrderID po) (Order.CustomerName po)
              (Order.CustomerEmail po) (Order.CustomerPhone po)
              (Order.DeliveryAddress po) (Order.State po) (Order.DAG po)
              (Order.CreateTime po) (Order.UpdateTime po)
              (Order.TransactionID paymentResult)
              (Order.Amount paymentResult) (Order.DeliveryID po)
              (Order.DriverName po) (Order.TrackingURL po)
              (Order.EstimatedArrival po), tick))).
Proof.
  split.
  - intros u e w' [->|[->| ->]] H.
    + exact (completeStep_fails clock ComponentMakeDough wnow _ e w' H).
    + exact (completeStep_fails clock ComponentAddToppings wnow _ e w' H).
    + exact (completeStep_fails clock ComponentBakePizza wnow _ e w' H).
  - intros d i c r Hd Hget Hs. simpl. unfold Order.completeStep. simpl.
    rewrite Hd. unfold CompleteComponent. rewrite Hget.
    rewrite decide_False by done. done.
Qed.

Lemma failed_update_effects_witness :
  (Order.initialOrder
     (Order.mkPizzaOrderInput "o" "n" "e" "p" "a" PrimFloat.one)
     0%Z 1%Z 2%Z, 0) =
  (Order.initialOrder
     (Order.mkPizzaOrderInput "o" "n" "e" "p" "a" PrimFloat.one)
     0%Z 1%Z 2%Z, 0).
Proof.
  apply (proj1 (failed_update_effects tickClock 7%Z _ 0) Order.BakePizza
           (Order.DagError (ErrNotIncomplete ComponentBakePizza StateNeedsInit))).
  - right. right. reflexivity.
  - reflexivity.
Defined.

(** ** The workflow finishes after the five updates, in order *)

Lemma pizzaAt_done k d :
  pizzaAt k d -> AllComponentsCompleted d = bool_decide (k = 5).
Proof.
  intros (Hk & Hty & _ & Hst). destruct d as [cs]. simpl in *.
  destruct cs as [|[t0 s0 d0 u0 e0] [|[t1 s1 d1 u1 e1] [|[t2 s2 d2 u2 e2]
    [|[t3 s3 d3 u3 e3] [|[t4 s4 d4 u4 e4] [|? ?]]]]]]; try discriminate Hty.
  simpl in Hst.
  do 6 (destruct k as [|k]; [by injection Hst as -> -> -> -> ->|]). lia.
Qed.

Lemma completeStep_orderAt clock input ct k ty wnow po tick :
  orderAt input ct k po ->
  exists err po' tick',
    Order.completeStep clock ty wnow (po, tick) = Some (err, (po', tick')) /\
    ((err = None /\ pizzaTypes !! k = Some ty /\ orderAt input ct (S k) po' /\
      Order.UpdateTime po' = wnow) \/
     (err <> None /\ pizzaTypes !! k <> Some ty /\ po' = po /\ tick' = tick)).
Proof.
  intros ((d & Hd & Hk) & Hid). unfold Order.completeStep. rewrite Hd.
  destruct (pizzaAt_call clock ty k d tick Hk) as [(Hnth & Herr & Hk')|
    (Hnth & Herr & Hsame)];
    destruct (CompleteComponent clock ty (d, tick)) as [[e|] [d' t']];
    simpl in *; try done.
  - eexists _, _, _. split; [done|]. left. split; [done|]. split; [done|].
    split; [|done]. split; [by exists d'|]. exact Hid.
  - injection Hsame as -> ->. eexists _, _, _. split; [done|]. right.
    split; [done|]. split; [done|]. split; [|done].
    destruct po. simpl in *. by rewrite Hd.
Qed.

Lemma handle_orderAt clock input ct k u wnow po tick :
  orderAt input ct k po ->
  exists err po' tick',
    Order.handle clock u wnow (po, tick) = Some (err, (po', tick')) /\
    ((err = None /\ Order.activityReturned u = true /\
      pizzaTypes !! k = Some (Order.stepOf u) /\
      orderAt input ct (S k) po' /\ Order.UpdateTime po' = wnow) \/
     (err <> None /\
      ~ (Order.activityReturned u = true /\
         pizzaTypes !! k = Some (Order.stepOf u)) /\
      orderAt input ct k po' /\ Order.DAG po' = Order.DAG po /\ tick' = tick)).
Proof.
  intros Hpo.
  assert (Hplain : forall ty,
    exists err po' tick',
      Order.completeStep clock ty wnow (po, tick) = Some (err, (po', tick')) /\
      ((err = None /\ pizzaTypes !! k = Some ty /\ orderAt input ct (S k) po' /\
        Order.UpdateTime po' = wnow) \/
       (err <> None /\ pizzaTypes !! k <> Some ty /\
        orderAt input ct k po' /\ Order.DAG po' = Order.DAG po /\ tick' = tick))).
  { intros ty.
    destruct (completeStep_orderAt clock input ct k ty wnow po tick Hpo)
      as (err & po' & tick' & H & Hcases).
    exists err, po', tick'. split; [done|].
    destruct Hcases as [?|(? & ? & -> & ->)]; [by left | by right]. }
  destruct u as [[r|]| | | |[r|]];
    cbn [Order.handle Order.updateCompletePayment Order.updateDeliver
         Order.updateMakeDough Order.updateAddToppings Order.updateBakePizza
         Order.activityReturned Order.stepOf].
  - match goal with
    | |- context [Order.completeStep _ _ _ (?p, _)] => set (po1 := p)
    end.
    assert (Hpo1 : orderAt input ct k po1) by exact Hpo.
    destruct (completeStep_orderAt clock input ct k ComponentPayment wnow po1
                tick Hpo1) as (err & po' & tick' & H & Hcases).
    exists err, po', tick'. split; [done|].
    destruct Hcases as [(? & ? & ? & ?)|(? & ? & -> & ->)]; [by left|].
    right. split; [done|]. split; [by intros [_ ?]|]. done.
  - exists (Some Order.PaymentProcessingFailed), po, tick. split; [done|].
    right. split; [done|]. split; [by intros [? _]|]. done.
  - destruct (Hplain ComponentMakeDough)
      as (err & po' & tick' & H & [(? & ? & ?)|(? & ? & ?)]);
      exists err, po', tick'; (split; [done|]); [by left|].
    right. split; [done|]. split; [by intros [_ ?]|]. done.
  - destruct (Hplain ComponentAddToppings)
      as (err & po' & tick' & H & [(? & ? & ?)|(? & ? & ?)]);
      exists err, po', tick'; (split; [done|]); [by left|].
    right. split; [done|]. split; [by intros [_ ?]|]. done.
  - destruct (Hplain ComponentBakePizza)
      as (err & po' & tick' & H & [(? & ? & ?)|(? & ? & ?)]);
      exists err, po', tick'; (split; [done|]); [by left|].
    right. split; [done|]. split; [by intros [_ ?]|]. done.
  - match goal with
    | |- context [Order.completeStep _ _ _ (?p, _)] => set (po1 := p)
    end.
    assert (Hpo1 : orderAt input ct k po1) by exact Hpo.
    destruct (completeStep_orderAt clock input ct k ComponentDeliver wnow po1
                tick Hpo1) as (err & po' & tick' & H & Hcases).
    exists err, po', tick'. split; [done|].
    destruct Hcases as [(? & ? & ? & ?)|(? & ? & -> & ->)]; [by left|].
    right. split; [done|]. split; [by intros [_ ?]|]. done.
  - exists (Some Order.DeliverySchedulingFailed), po, tick. split; [done|].
    right. split; [done|]. split; [by intros [? _]|]. done.
Qed.

Lemma handleAll_orderAt clock input ct us k po tick :
  orderAt input ct k po ->
  exists po' tick' k',
    Order.handleAll clock us (po, tick) = Some (po', tick') /\
    k <= k' /\ orderAt input ct k' po'.
Proof.
  revert k po tick. induction us as [|[u wnow] us IH]; intros k po tick Hpo.
  - exists po, tick, k. by split.
  - simpl.
    destruct (handle_orderAt clock input ct k u wnow po tick Hpo)
      as (err & po1 & t1 & -> & [(_ & _ & _ & H1 & _)|(_ & _ & H1 & _)]).
    + destruct (IH (S k) po1 t1 H1) as (po' & tick' & k' & ? & ? & ?).
      exists po', tick', k'. split; [done|]. split; [lia | done].
    + destruct (IH k po1 t1 H1) as (po' & tick' & k' & ? & ? & ?).
      by exists po', tick', k'.
Qed.

Lemma initialOrder_orderAt input dagNow ct ut :
  orderAt input ct 0 (Order.initialOrder input dagNow ct ut).
Proof.
  split; [|done]. exists (mkDAG (pizzaComponents dagNow)).
  split; [done | apply pizzaAt_initial].
Qed.

(** X16.  The workflow can only advance in the declared order.  From the
    state [PizzaOrderWorkflow] starts with, whatever updates are handled
    and whatever their activities return: no handler panics on a nil
    graph; the identity fields, CreateTime and the IN_PROGRESS state are
    as set at the start; the graph is the pizza graph with its first [k]
    steps Done; [IsDone], the condition the workflow awaits, is true
    exactly when [k] is five; and a further update succeeds exactly when
    its activity returned and it is the update of step [k]. *)
Theorem workflow_pipeline clock input dagNow createTime updateTime tick us :
  exists po tick' k,
    Order.handleAll clock us
      (Order.initialOrder input dagNow createTime updateTime, tick) =
      Some (po, tick') /\
    orderAt input createTime k po /\
    Order.IsDone po = bool_decide (k = 5) /\
    forall u wnow,
      exists err w',
        Order.handle clock u wnow (po, tick') = Some (err, w') /\
        (err = None <->
         Order.activityReturned u = true /\
         pizzaTypes !! k = Some (Order.stepOf u)).
Proof.
  destruct (handleAll_orderAt clock input createTime us 0 _ tick
              (initialOrder_orderAt input dagNow createTime updateTime))
    as (po & tick' & k & Hrun & _ & Hpo).
  exists po, tick', k. split; [done|]. split; [done|]. split.
  - destruct Hpo as ((d & Hd & Hk) & _). unfold Order.IsDone. rewrite Hd.
    by apply pizzaAt_done.
  - intros u wnow.
    destruct (handle_orderAt clock input createTime k u wnow po tick' Hpo)
      as (err & po' & t' & H & Hcases).
    exists err, (po', t'). split; [done|].
    destruct Hcases as [(? & ? & ? & _)|(? & ? & _)]; [done|].
    split; [done|]. intros ?. done.
Qed.

(** * dag.go on a store of components *)

(** ** The store embedding and the list embedding agree *)

Lemma holds_lookup h ptrs cs i l :
  holds h ptrs cs -> ptrs !! i = Some l ->
  exists c, cs !! i = Some c /\ h !! l = Some c.
Proof. intros H Hi. by apply (Forall2_lookup_l _ _ _ _ _ H Hi). Qed.

Lemma findComponentAt_holds h ptrs cs ty i :
  holds h ptrs cs ->
  match findComponent ty cs i with
  | Some (k, c) =>
      exists l, findComponentAt h ty ptrs = Some (Some l) /\
                i <= k /\ ptrs !! (k - i) = Some l /\ h !! l = Some c
  | None => findComponentAt h ty ptrs = Some None
  end.
Proof.
  intros H. revert i. induction H as [|l c ptrs cs Hl _ IH]; intros i; simpl.
  - done.
  - rewrite Hl. destruct (decide (Type_ c = ty)) as [Hc|Hc].
    + exists l. split; [done|]. split; [lia|]. by rewrite Nat.sub_diag.
    + specialize (IH (S i)).
      destruct (findComponent ty cs (S i)) as [[k c']|]; [|done].
      destruct IH as (l' & ? & ? & Hk & ?). exists l'.
      split; [done|]. split; [lia|]. split; [|done].
      replace (k - i) with (S (k - S i)) by lia. done.
Qed.

Lemma allDepsCompleteAt_holds h ptrs cs deps :
  holds h ptrs cs ->
  allDepsCompleteAt h ptrs deps = Some (allDepsComplete (mkDAG cs) deps).
Proof.
  intros H. induction deps as [|y deps IH]; simpl; [done|].
  unfold GetComponent. simpl.
  pose proof (findComponentAt_holds h ptrs cs y 0 H) as Hf.
  destruct (findComponent y cs 0) as [[k c]|].
  - destruct Hf as (l & -> & _ & _ & ->).
    by destruct (decide (State c = StateCompleted)).
  - by rewrite Hf.
Qed.

Lemma holds_insert h ptrs cs i l c :
  holds h ptrs cs -> NoDup ptrs -> ptrs !! i = Some l ->
  holds (<[l := c]> h) ptrs (<[i := c]> cs).
Proof.
  intros H Hnd Hi. apply Forall2_same_length_lookup. split.
  { rewrite length_insert. by eapply Forall2_length. }
  intros k lk ck Hk Hck. destruct (decide (k = i)) as [->|Hki].
  - rewrite Hi in Hk. injection Hk as <-.
    rewrite list_lookup_insert_eq in Hck.
    + injection Hck as <-. apply lookup_insert_eq.
    + destruct (holds_lookup h ptrs cs i l H Hi) as (c0 & Hc0 & _).
      by eapply lookup_lt_Some.
  - rewrite list_lookup_insert_ne in Hck by done.
    assert (lk <> l).
    { intros ->. apply Hki. by apply (NoDup_lookup ptrs k i l). }
    rewrite lookup_insert_ne by done.
    destruct (holds_lookup h ptrs cs k lk H Hk) as (c0 & Hc0 & ?). congruence.
Qed.

Lemma promoteAt_holds clock h ptrs cs t i l :
  holds h ptrs cs -> NoDup ptrs -> ptrs !! i = Some l ->
  exists h',
    promoteAt clock ptrs (h, t) l =
      Some (h', snd (promote clock (mkDAG cs, t) i)) /\
    holds h' ptrs (components (fst (promote clock (mkDAG cs, t) i))).
Proof.
  intros H Hnd Hi. unfold promoteAt, promote. simpl.
  destruct (holds_lookup h ptrs cs i l H Hi) as (c & -> & ->).
  destruct (decide (State c = StateNeedsInit)); [|by exists h].
  rewrite (allDepsCompleteAt_holds h ptrs cs _ H).
  destruct (allDepsComplete (mkDAG cs) (DependsOn c)); [|by exists h].
  eexists. split; [done|]. simpl. by apply holds_insert.
Qed.

Lemma scanAt_holds clock ptrs todo i h cs t :
  todo = drop i ptrs -> holds h ptrs cs -> NoDup ptrs ->
  exists h',
    scanAt clock ptrs todo (h, t) =
      Some (h', snd (scan clock (seq i (length todo)) (mkDAG cs, t))) /\
    holds h' ptrs
      (components (fst (scan clock (seq i (length todo)) (mkDAG cs, t)))).
Proof.
  revert i h cs t. induction todo as [|l rest IH]; intros i h cs t Htodo H Hnd.
  - exists h. by split.
  - assert (Hi : ptrs !! i = Some l).
    { rewrite <- (Nat.add_0_r i), <- lookup_drop, <- Htodo. done. }
    assert (Hrest : rest = drop (S i) ptrs).
    { rewrite (drop_S _ _ _ Hi) in Htodo. by injection Htodo. }
    destruct (promoteAt_holds clock h ptrs cs t i l H Hnd Hi) as (h1 & Hp & H1).
    cbn [scanAt length seq]. rewrite Hp.
    change (scan clock (i :: seq (S i) (length rest)) (mkDAG cs, t))
      with (scan clock (seq (S i) (length rest)) (promote clock (mkDAG cs, t) i)).
    destruct (promote clock (mkDAG cs, t) i) as [[cs1] t1]. cbn [fst snd] in *.
    apply (IH (S i) h1 cs1 t1 Hrest H1 Hnd).
Qed.

Lemma refines clock ptrs ty h cs t :
  holds h ptrs cs -> NoDup ptrs ->
  exists h',
    CompleteComponentAt clock ptrs ty (h, t) =
      Some (fst (CompleteComponent clock ty (mkDAG cs, t)),
            (h', snd (snd (CompleteComponent clock ty (mkDAG cs, t))))) /\
    holds h' ptrs
      (components (fst (snd (CompleteComponent clock ty (mkDAG cs, t))))).
Proof.
  intros H Hnd. unfold CompleteComponentAt, CompleteComponent, GetComponent.
  simpl. pose proof (findComponentAt_holds h ptrs cs ty 0 H) as Hf.
  destruct (findComponent ty cs 0) as [[k c]|].
  - destruct Hf as (l & -> & _ & Hk & ->). rewrite Nat.sub_0_r in Hk.
    destruct (decide (State c = StateIncomplete)); [|by exists h].
    unfold updateDependentComponentsAt, updateDependentComponents. simpl.
    set (c' := mkComponent _ _ _ _ _).
    destruct (scanAt_holds clock ptrs ptrs 0 (<[l := c']> h) (<[k := c']> cs)
                (S t) eq_refl (holds_insert h ptrs cs k l c' H Hnd Hk) Hnd)
      as (h' & Hscan & H').
    rewrite length_insert, <- (Forall2_length _ _ _ H).
    rewrite Hscan. by exists h'.
  - rewrite Hf. by exists h.
Qed.

Lemma refines_calls clock ptrs tys h cs t :
  holds h ptrs cs -> NoDup ptrs ->
  exists h',
    callsAt clock ptrs tys (h, t) =
      Some (h', snd (calls clock tys (mkDAG cs, t))) /\
    holds h' ptrs (components (fst (calls clock tys (mkDAG cs, t)))).
Proof.
  intros H Hnd. revert h cs t H.
  induction tys as [|ty tys IH]; intros h cs t H; [by exists h|].
  destruct (refines clock ptrs ty h cs t H Hnd) as (h1 & Hcall & H1).
  cbn [callsAt]. rewrite Hcall, calls_cons.
  destruct (CompleteComponent clock ty (mkDAG cs, t)) as [err [[cs1] t1]].
  cbn [fst snd] in *. by apply IH.
Qed.

(** X17.  With a slice of pairwise distinct, allocated pointers, dag.go
    on the store and dag.go on the list of components are the same
    program: [CompleteComponent] through the pointers does not panic,
    returns the same error, reads the clock as often, and leaves in the
    slots the components the list version computes; and so for any
    sequence of calls. *)
Theorem store_refines_list clock ptrs ty tys h cs t :
  holds h ptrs cs -> NoDup ptrs ->
  (exists h',
     CompleteComponentAt clock ptrs ty (h, t) =
       Some (fst (CompleteComponent clock ty (mkDAG cs, t)),
             (h', snd (snd (CompleteComponent clock ty (mkDAG cs, t))))) /\
     holds h' ptrs
       (components (fst (snd (CompleteComponent clock ty (mkDAG cs, t)))))) /\
  (exists h',
     callsAt clock ptrs tys (h, t) =
       Some (h', snd (calls clock tys (mkDAG cs, t))) /\
     holds h' ptrs (components (fst (calls clock tys (mkDAG cs, t))))).
Proof.
  intros H Hnd. split; [by apply refines | by apply refines_calls].
Qed.

Lemma store_refines_list_witness :
  (exists h',
     CompleteComponentAt tickClock [0; 1; 2] "A" (twoReadyStore, 0) =
       Some (fst (CompleteComponent tickClock "A" (twoReady, 0)),
             (h', snd (snd (CompleteComponent tickClock "A" (twoReady, 0))))) /\
     holds h' [0; 1; 2]
       (components (fst (snd (CompleteComponent tickClock "A" (twoReady, 0)))))) /\
  (exists h',
     callsAt tickClock [0; 1; 2] ["A"; "B"; "C"] (twoReadyStore, 0) =
       Some (h', snd (calls tickClock ["A"; "B"; "C"] (twoReady, 0))) /\
     holds h' [0; 1; 2]
       (components (fst (calls tickClock ["A"; "B"; "C"] (twoReady, 0))))).
Proof.
  apply (store_refines_list tickClock [0; 1; 2] "A" ["A"; "B"; "C"]
           twoReadyStore (components twoReady) 0).
  - repeat constructor.
  - repeat (apply NoDup_cons; split; [set_solver|]). apply NoDup_nil_2.
Defined.

(** ** What a call can write *)

Lemma findComponentAt_in h ty ptrs l :
  findComponentAt h ty ptrs = Some (Some l) -> l ∈ ptrs.
Proof.
  induction ptrs as [|l0 ptrs IH]; simpl; [done|].
  destruct (h !! l0) as [c|]; [|done].
  destruct (decide (Type_ c = ty)).
  - intros [= ->]. by left.
  - intros ?. right. by apply IH.
Qed.

Lemma promoteAt_frame clock ptrs h t l h' t' :
  promoteAt clock ptrs (h, t) l = Some (h', t') ->
  forall l0, l0 <> l -> h' !! l0 = h !! l0.
Proof.
  unfold promoteAt. destruct (h !! l) as [c|]; [|done].
  destruct (decide (State c = StateNeedsInit)); [|by intros [= <- <-]].
  destruct (allDepsCompleteAt h ptrs (DependsOn c)) as [[]|]; [| |done].
  - intros [= <- <-] l0 Hl0. by rewrite lookup_insert_ne.
  - by intros [= <- <-].
Qed.

Lemma scanAt_frame clock ptrs todo h t h' t' :
  scanAt clock ptrs todo (h, t) = Some (h', t') ->
  forall l0, l0 ∉ todo -> h' !! l0 = h !! l0.
Proof.
  revert h t. induction todo as [|l rest IH]; intros h t; cbn [scanAt].
  - by intros [= <- <-].
  - destruct (promoteAt clock ptrs (h, t) l) as [[h1 t1]|] eqn:E; [|done].
    intros Hscan l0 [Hne Hl0]%not_elem_of_cons.
    rewrite (IH h1 t1 Hscan l0 Hl0).
    by apply (promoteAt_frame _ _ _ _ _ _ _ E).
Qed.

Lemma CompleteComponentAt_frame clock ptrs ty h t err h' t' :
  CompleteComponentAt clock ptrs ty (h, t) = Some (err, (h', t')) ->
  forall l0, l0 ∉ ptrs -> h' !! l0 = h !! l0.
Proof.
  unfold CompleteComponentAt.
  destruct (findComponentAt h ty ptrs) as [[l|]|] eqn:Ef; [| |done].
  - apply findComponentAt_in in Ef. destruct (h !! l) as [c|]; [|done].
    destruct (decide (State c = StateIncomplete)); [|by intros [= <- <- <-]].
    unfold updateDependentComponentsAt.
    destruct (scanAt clock ptrs ptrs _) as [[h1 t1]|] eqn:Es; [|done].
    intros [= <- <- <-] l0 Hl0. rewrite (scanAt_frame _ _ _ _ _ _ _ Es l0 Hl0).
    apply lookup_insert_ne. intros ->. done.
  - by intros [= <- <- <-].
Qed.

Lemma callsAt_frame clock ptrs tys h t h' t' :
  callsAt clock ptrs tys (h, t) = Some (h', t') ->
  forall l0, l0 ∉ ptrs -> h' !! l0 = h !! l0.
Proof.
  revert h t. induction tys as [|ty tys IH]; intros h t; cbn [callsAt].
  - by intros [= <- <-].
  - destruct (CompleteComponentAt clock ptrs ty (h, t)) as [[err [h1 t1]]|] eqn:E;
      [|done].
    intros Hcalls l0 Hl0. rewrite (IH h1 t1 Hcalls l0 Hl0).
    by apply (CompleteComponentAt_frame _ _ _ _ _ _ _ _ E).
Qed.

Lemma holds_frame h h' ptrs cs :
  holds h ptrs cs -> (forall l, l ∈ ptrs -> h' !! l = h !! l) ->
  holds h' ptrs cs.
Proof.
  intros H Hsame. induction H as [|l c ptrs cs Hl _ IH]; [by constructor|].
  constructor.
  - rewrite Hsame; [done | by left].
  - apply IH. intros l0 Hl0. apply Hsame. by right.
Qed.

(** ** Clone *)

Lemma CloneAt_spec h ptrs cs :
  holds h ptrs cs ->
  exists h1 ptrs',
    CloneAt h ptrs = Some (h1, ptrs') /\ holds h1 ptrs' cs /\ NoDup ptrs' /\
    (forall l, l ∈ ptrs' -> h !! l = None) /\
    (forall l, is_Some (h !! l) -> h1 !! l = h !! l).
Proof.
  revert h ptrs. induction cs as [|c cs IH]; intros h ptrs H.
  - apply Forall2_nil_inv_r in H as ->. exists h, []. split; [done|].
    split; [by constructor|]. split; [by constructor|]. split; [|done].
    intros l Hl. by apply elem_of_nil in Hl.
  - apply Forall2_cons_inv_r in H as (l & ptrs0 & Hl & H & ->).
    set (l' := fresh (dom h)).
    assert (Hfresh : h !! l' = None).
    { apply not_elem_of_dom. apply is_fresh. }
    set (h0 := <[l' := mkComponent (Type_ c) (State c) (DependsOn c)
                         (UpdateTime c) (CompleteTime c)]> h).
    assert (H0 : holds h0 ptrs0 cs).
    { apply (holds_frame h); [done|]. intros l0 Hl0. unfold h0.
      apply lookup_insert_ne. intros <-.
      apply list_elem_of_lookup_1 in Hl0 as [k Hk].
      destruct (holds_lookup h ptrs0 cs k l' H Hk) as (? & _ & ?). congruence. }
    destruct (IH h0 ptrs0 H0) as (h1 & ptrs' & Hclone & H1 & Hnd & Hnew & Hold).
    exists h1, (l' :: ptrs'). cbn [CloneAt]. rewrite Hl. fold l'. fold h0.
    rewrite Hclone. split; [done|].
    assert (Hl' : h0 !! l' = Some c).
    { unfold h0. rewrite lookup_insert_eq. by destruct c. }
    split; [|split; [|split]].
    + constructor; [|done]. rewrite Hold; [done | by rewrite Hl'].
    + apply NoDup_cons. split; [|done]. intros Hin.
      specialize (Hnew l' Hin). congruence.
    + intros l0 [->|Hl0]%elem_of_cons; [done|].
      specialize (Hnew l0 Hl0). unfold h0 in Hnew.
      by apply lookup_insert_None in Hnew as [? _].
    + intros l0 Hl0.
      assert (Hne : l' <> l0).
      { intros E. rewrite <- E, Hfresh in Hl0. by destruct Hl0. }
      assert (Hsame : h0 !! l0 = h !! l0).
      { unfold h0. by apply lookup_insert_ne. }
      rewrite Hold; [done | by rewrite Hsame].
Qed.

(** X18.  [Clone] shares nothing with the original.  Cloning a graph
    whose pointers are allocated does not panic and gives a slice of new,
    pairwise distinct pointers that holds the same components; the
    original slice still holds them; and afterwards no sequence of
    [CompleteComponent] calls on the clone changes a component of the
    original, nor one on the original a component of the clone. *)
Theorem Clone_independent h ptrs cs :
  holds h ptrs cs ->
  exists h1 ptrs',
    CloneAt h ptrs = Some (h1, ptrs') /\
    holds h1 ptrs' cs /\ holds h1 ptrs cs /\ NoDup ptrs' /\
    (forall l, l ∈ ptrs' -> l ∉ ptrs) /\
    (forall clock tys t h2 t2,
       callsAt clock ptrs' tys (h1, t) = Some (h2, t2) -> holds h2 ptrs cs) /\
    (forall clock tys t h2 t2,
       callsAt clock ptrs tys (h1, t) = Some (h2, t2) -> holds h2 ptrs' cs).
Proof.
  intros H.
  destruct (CloneAt_spec h ptrs cs H) as (h1 & ptrs' & Hclone & H1 & Hnd & Hnew & Hold).
  assert (Halloc : forall l, l ∈ ptrs -> is_Some (h !! l)).
  { intros l [k Hk]%list_elem_of_lookup_1.
    destruct (holds_lookup h ptrs cs k l H Hk) as (c & _ & ->). done. }
  assert (Hdisj : forall l, l ∈ ptrs' -> l ∉ ptrs).
  { intros l Hl Hin. specialize (Hnew l Hl).
    destruct (Halloc l Hin) as [? ?]. congruence. }
  assert (H1o : holds h1 ptrs cs).
  { apply (holds_frame h); [done|]. intros l Hl. by apply Hold, Halloc. }
  exists h1, ptrs'. repeat (split; [done|]). split.
  - intros clock tys t h2 t2 Hcalls. apply (holds_frame h1); [done|].
    intros l Hl. apply (callsAt_frame _ _ _ _ _ _ _ Hcalls).
    intros Hin. by apply (Hdisj l).
  - intros clock tys t h2 t2 Hcalls. apply (holds_frame h1); [done|].
    intros l Hl. apply (callsAt_frame _ _ _ _ _ _ _ Hcalls). by apply Hdisj.
Qed.

Lemma Clone_independent_witness :
  exists h1 ptrs',
    CloneAt twoReadyStore [0; 1; 2] = Some (h1, ptrs') /\
    holds h1 ptrs' (components twoReady) /\
    holds h1 [0; 1; 2] (components twoReady) /\ NoDup ptrs' /\
    (forall l, l ∈ ptrs' -> l ∉ [0; 1; 2]) /\
    (forall clock tys t h2 t2,
       callsAt clock ptrs' tys (h1, t) = Some (h2, t2) ->
       holds h2 [0; 1; 2] (components twoReady)) /\
    (forall clock tys t h2 t2,
       callsAt clock [0; 1; 2] tys (h1, t) = Some (h2, t2) ->
       holds h2 ptrs' (components twoReady)).
Proof.
  apply (Clone_independent twoReadyStore [0; 1; 2] (components twoReady)).
  repeat constructor.
Defined.
